(** * Flow-to-TypeScript migration codemod: a shallow embedding

    The development follows the repository file by file:
    - [paths.ts] and the location type shared by both reporters;
    - [typescript/migration_reporter.ts] and [modules/migration_reporter.ts]
      (collecting, merging and rendering findings);
    - [typescript/flow_type_at_pos.ts] (sanitising the answer of
      [flow type-at-pos]);
    - [typescript/migrate_to_typescript.ts] (the type migration, the cast
      visitor, the parameter visitors);
    - [typescript/process_batch_async.ts] and [typescript/run.ts] (per-file
      error handling and the primary/worker protocol).

    JavaScript strings are modelled by [string] (one character per code
    unit), line and column numbers and counters by [N], the numeric value of
    a number literal by a binary64 [float].  Source locations and comments
    that the code copies from an old node to its replacement
    ([inheritLocAndComments]) are not carried on the migrated nodes; a
    location is kept wherever the code reads it. *)

From Stdlib Require Import PrimFloat Ascii.
From stdpp Require Import base option list sorting strings gmap pretty.

Local Set Warnings "-clear-no-such-hyp".

(** Induction principles of the node types give an induction hypothesis
    for the nodes held in a list or in an optional field. *)
Scheme All for list.
Scheme All for option.

(** ** Errors and promise outcomes *)

(** A thrown JavaScript [Error], identified by its message. *)
Inductive Error : Type := MkError (message : string).

Inductive result (A : Type) : Type :=
| Ok (a : A)
| Throw (e : Error).
Arguments Ok {A} a.
Arguments Throw {A} e.

(** The character [U+0022], which [JSON.stringify] puts around a string. *)
Definition dquote : string := String (Ascii.ascii_of_nat 34) EmptyString.

(** [JSON.stringify] of a node type name (letters only, nothing to escape). *)
Definition JSON_stringify (s : string) : string := dquote +:+ s +:+ dquote.

(** ** Source locations ([t.SourceLocation], and [Location] of the reporters) *)

Record Position : Type := { line : N; column : N }.

Record SourceLocation : Type := { start : Position; end_ : Position }.

Record Location : Type :=
  { filePath : string; loc_start : Position; loc_end : Position }.

Definition mkLocation (path : string) (l : SourceLocation) : Location :=
  {| filePath := path; loc_start := start l; loc_end := end_ l |}.

(** ** The origin grammar: Flow types *)

Inductive VarianceKind : Type := plus | minus.

Inductive PropertyKind : Type := init | get | set.

(** [t.Identifier | t.QualifiedTypeIdentifier] *)
Inductive FlowIdentifier : Type :=
| FIdentifier (name : string)
| QualifiedTypeIdentifier (qualification : FlowIdentifier) (id : string).

(** The key of an object type property. *)
Inductive PropertyKey : Type :=
| KeyIdentifier (name : string)
| KeyStringLiteral (value : string).

(** [t.FlowType] with the member, parameter and type-parameter nodes it
    contains.  [OtherFlowType] stands for a node of any kind the [switch] of
    [actuallyMigrateType] does not list; [OtherObjectTypeMember] likewise for
    [actuallyMigrateObjectMember]. *)
Inductive FlowType : Type :=
| AnyTypeAnnotation
| ArrayTypeAnnotation (elementType : FlowType)
| BooleanTypeAnnotation
| BooleanLiteralTypeAnnotation (value : bool)
| NullLiteralTypeAnnotation
| ExistsTypeAnnotation
| FunctionTypeAnnotation (typeParameters : option (list TypeParameter))
    (params : list FunctionTypeParam) (rest : option FunctionTypeParam)
    (returnType : FlowType)
| GenericTypeAnnotation (id : FlowIdentifier)
    (typeParameters : option (list FlowType))
| InterfaceTypeAnnotation (body : FlowType)
| IntersectionTypeAnnotation (types : list FlowType)
| MixedTypeAnnotation
| EmptyTypeAnnotation
| NullableTypeAnnotation (typeAnnotation : FlowType)
| NumberLiteralTypeAnnotation (value : float)
| NumberTypeAnnotation
| ObjectTypeAnnotation (properties : list ObjectTypeMember)
    (indexers callProperties internalSlots : option (list ObjectTypeMember))
    (exact : bool)
| StringLiteralTypeAnnotation (value : string)
| StringTypeAnnotation
| ThisTypeAnnotation
| TupleTypeAnnotation (types : list FlowType)
| TypeofTypeAnnotation (argument : FlowType)
| UnionTypeAnnotation (types : list FlowType)
| VoidTypeAnnotation
| OtherFlowType (type : string)
with TypeParameter : Type :=
| MkTypeParameter (name : string) (bound : option FlowType)
    (default : option FlowType) (variance : option VarianceKind)
    (loc : SourceLocation)
with FunctionTypeParam : Type :=
| MkFunctionTypeParam (name : option string) (optional : option bool)
    (typeAnnotation : FlowType)
with ObjectTypeMember : Type :=
| ObjectTypeProperty (key : PropertyKey) (value : FlowType)
    (variance : option VarianceKind) (kind : option PropertyKind)
    (method optional proto static : bool) (loc : SourceLocation)
| ObjectTypeSpreadProperty (argument : FlowType) (loc : SourceLocation)
| ObjectTypeIndexer (id : option string) (key value : FlowType)
    (variance : option VarianceKind) (static : bool) (loc : SourceLocation)
| ObjectTypeCallProperty (value : FlowType) (static : bool)
    (loc : SourceLocation)
| ObjectTypeInternalSlot (id : string) (value : FlowType)
    (optional static method : bool) (loc : SourceLocation)
| OtherObjectTypeMember (type : string) (loc : SourceLocation).

Scheme FlowType_mut := Induction for FlowType Sort Prop
  with TypeParameter_mut := Induction for TypeParameter Sort Prop
  with FunctionTypeParam_mut := Induction for FunctionTypeParam Sort Prop
  with ObjectTypeMember_mut := Induction for ObjectTypeMember Sort Prop.

Combined Scheme FlowType_mutind from
  FlowType_mut, TypeParameter_mut, FunctionTypeParam_mut, ObjectTypeMember_mut.

(** ** The target grammar: TypeScript types *)

(** [t.Identifier | t.TSQualifiedName] *)
Inductive TSEntityName : Type :=
| TSIdentifierName (name : string)
| TSQualifiedName (left : TSEntityName) (right : string).

Inductive TSLiteral : Type :=
| TSBooleanLiteral (value : bool)
| TSNumericLiteral (value : float)
| TSStringLiteral (value : string).

Inductive TSType : Type :=
| TSAnyKeyword
| TSBooleanKeyword
| TSNullKeyword
| TSUnknownKeyword
| TSNeverKeyword
| TSNumberKeyword
| TSStringKeyword
| TSUndefinedKeyword
| TSVoidKeyword
| TSThisType
| TSArrayType (elementType : TSType)
| TSLiteralType (literal : TSLiteral)
| TSTypeReference (typeName : TSEntityName)
    (typeParameters : option (list TSType))
| TSFunctionType (typeParameters : option (list TSTypeParameter))
    (parameters : list TSParameter) (typeAnnotation : TSType)
| TSTypeOperator (operator : string) (typeAnnotation : TSType)
| TSIndexedAccessType (objectType indexType : TSType)
| TSIntersectionType (types : list TSType)
| TSUnionType (types : list TSType)
| TSParenthesizedType (typeAnnotation : TSType)
| TSTypeLiteral (members : list TSTypeElement)
| TSTupleType (elementTypes : list TSType)
| TSTypeQuery (exprName : TSEntityName)
with TSTypeParameter : Type :=
| MkTSTypeParameter (constraint default : option TSType) (name : string)
with TSParameter : Type :=
| TSIdentifier (name : string) (optional : option bool)
    (typeAnnotation : option TSType)
| TSRestElement (argument : string) (typeAnnotation : TSType)
with TSTypeElement : Type :=
| TSPropertySignature (key : PropertyKey) (typeAnnotation : TSType)
    (computed optional : bool) (readonly : option bool)
| TSMethodSignature (key : PropertyKey)
    (typeParameters : option (list TSTypeParameter))
    (parameters : list TSParameter) (typeAnnotation : TSType)
    (computed optional : bool)
| TSIndexSignature (parameters : list TSParameter) (typeAnnotation : TSType)
    (readonly : option bool).

(** The [type] field of a target type node. *)
Definition TSType_type (ts : TSType) : string :=
  match ts with
  | TSAnyKeyword => "TSAnyKeyword"
  | TSBooleanKeyword => "TSBooleanKeyword"
  | TSNullKeyword => "TSNullKeyword"
  | TSUnknownKeyword => "TSUnknownKeyword"
  | TSNeverKeyword => "TSNeverKeyword"
  | TSNumberKeyword => "TSNumberKeyword"
  | TSStringKeyword => "TSStringKeyword"
  | TSUndefinedKeyword => "TSUndefinedKeyword"
  | TSVoidKeyword => "TSVoidKeyword"
  | TSThisType => "TSThisType"
  | TSArrayType _ => "TSArrayType"
  | TSLiteralType _ => "TSLiteralType"
  | TSTypeReference _ _ => "TSTypeReference"
  | TSFunctionType _ _ _ => "TSFunctionType"
  | TSTypeOperator _ _ => "TSTypeOperator"
  | TSIndexedAccessType _ _ => "TSIndexedAccessType"
  | TSIntersectionType _ => "TSIntersectionType"
  | TSUnionType _ => "TSUnionType"
  | TSParenthesizedType _ => "TSParenthesizedType"
  | TSTypeLiteral _ => "TSTypeLiteral"
  | TSTupleType _ => "TSTupleType"
  | TSTypeQuery _ => "TSTypeQuery"
  end.

(** The kinds of target type node that the migration builds. *)
Definition targetTypeKinds : list string :=
  [ "TSAnyKeyword"; "TSBooleanKeyword"; "TSNullKeyword"; "TSUnknownKeyword";
    "TSNeverKeyword"; "TSNumberKeyword"; "TSStringKeyword"; "TSVoidKeyword";
    "TSThisType"; "TSArrayType"; "TSLiteralType"; "TSTypeReference";
    "TSFunctionType"; "TSTypeOperator"; "TSIndexedAccessType";
    "TSIntersectionType"; "TSUnionType"; "TSParenthesizedType";
    "TSTypeLiteral"; "TSTupleType"; "TSTypeQuery" ].

(** ** Collecting findings: [typescript/migration_reporter.ts] *)

(** The private arrays of a [MigrationReporter] instance; every reporting
    method pushes one [Location] at the end of its array. *)
Record MigrationReporter : Type :=
  { _typeParameterWithVariance : list Location;
    _objectPropertyWithInternalName : list Location;
    _objectPropertyWithMinusVariance : list Location;
    _unsupportedTypeCast : list Location }.

Definition newMigrationReporter : MigrationReporter :=
  {| _typeParameterWithVariance := [];
     _objectPropertyWithInternalName := [];
     _objectPropertyWithMinusVariance := [];
     _unsupportedTypeCast := [] |}.

(** ** A state-and-exception monad for the visitors

    A computation reads and updates a state and either returns or throws;
    what was pushed on the reporter before a [throw] stays pushed. *)
Definition M (S A : Type) : Type := S → result A * S.

Definition ret {S A} (a : A) : M S A := λ s, (Ok a, s).

Definition bind {S A B} (m : M S A) (k : A → M S B) : M S B :=
  λ s, match m s with
       | (Ok a, s') => k a s'
       | (Throw e, s') => (Throw e, s')
       end.

Definition throw {S A} (message : string) : M S A :=
  λ s, (Throw (MkError message), s).

Definition modify {S} (f : S → S) : M S unit := λ s, (Ok tt, f s).

Definition when {S} (b : bool) (m : M S unit) : M S unit :=
  if b then m else ret tt.

Notation "x <- m ;; k" := (bind m (λ x, k))
  (at level 100, m at next level, right associativity, only parsing).
Notation "m ;;; k" := (bind m (λ _, k))
  (at level 100, right associativity, only parsing).

(** [xs.map(f)] for an [f] that may report and throw: left to right. *)
Definition mapM {S A B} (f : A → M S B) : list A → M S (list B) :=
  fix go (l : list A) : M S (list B) :=
    match l with
    | [] => ret []
    | x :: l' => y <- f x ;; ys <- go l' ;; ret (y :: ys)
    end.

(** [x ? f(x) : null] *)
Definition optM {S A B} (f : A → M S B) (o : option A) : M S (option B) :=
  match o with
  | None => ret None
  | Some x => y <- f x ;; ret (Some y)
  end.

(** [for (const m of ms) m()], each step working on an accumulator. *)
Definition foldM {S A B} (f : B → A → M S B) : list A → B → M S B :=
  fix go (l : list A) (acc : B) : M S B :=
    match l with
    | [] => ret acc
    | x :: l' => acc' <- f acc x ;; go l' acc'
    end.

Section Reporting.
Variable filePath : string.

Definition typeParameterWithVariance (l : SourceLocation)
  : M MigrationReporter unit :=
  modify (λ r,
    {| _typeParameterWithVariance :=
         _typeParameterWithVariance r ++ [mkLocation filePath l];
       _objectPropertyWithInternalName := _objectPropertyWithInternalName r;
       _objectPropertyWithMinusVariance := _objectPropertyWithMinusVariance r;
       _unsupportedTypeCast := _unsupportedTypeCast r |}).

Definition objectPropertyWithInternalName (l : SourceLocation)
  : M MigrationReporter unit :=
  modify (λ r,
    {| _typeParameterWithVariance := _typeParameterWithVariance r;
       _objectPropertyWithInternalName :=
         _objectPropertyWithInternalName r ++ [mkLocation filePath l];
       _objectPropertyWithMinusVariance := _objectPropertyWithMinusVariance r;
       _unsupportedTypeCast := _unsupportedTypeCast r |}).

Definition objectPropertyWithMinusVariance (l : SourceLocation)
  : M MigrationReporter unit :=
  modify (λ r,
    {| _typeParameterWithVariance := _typeParameterWithVariance r;
       _objectPropertyWithInternalName := _objectPropertyWithInternalName r;
       _objectPropertyWithMinusVariance :=
         _objectPropertyWithMinusVariance r ++ [mkLocation filePath l];
       _unsupportedTypeCast := _unsupportedTypeCast r |}).

Definition unsupportedTypeCast (l : SourceLocation)
  : M MigrationReporter unit :=
  modify (λ r,
    {| _typeParameterWithVariance := _typeParameterWithVariance r;
       _objectPropertyWithInternalName := _objectPropertyWithInternalName r;
       _objectPropertyWithMinusVariance := _objectPropertyWithMinusVariance r;
       _unsupportedTypeCast :=
         _unsupportedTypeCast r ++ [mkLocation filePath l] |}).
End Reporting.

(** ** The type migration: [typescript/migrate_to_typescript.ts] *)

Fixpoint migrateQualifiedIdentifier (identifier : FlowIdentifier)
  : TSEntityName :=
  match identifier with
  | FIdentifier name => TSIdentifierName name
  | QualifiedTypeIdentifier qualification id =>
      TSQualifiedName (migrateQualifiedIdentifier qualification) id
  end.

Definition tsIdentifier (name : string) (optional : option bool)
    (typeAnnotation : option TSType) : TSParameter :=
  TSIdentifier name optional typeAnnotation.

(** [id.type === 'Identifier' && id.name === name] *)
Definition isIdentifierNamed (id : TSEntityName) (name : string) : bool :=
  match id with
  | TSIdentifierName n => String.eqb n name
  | TSQualifiedName _ _ => false
  end.

(** [id.type === 'TSQualifiedName' && id.left.type === 'Identifier' &&
    id.left.name === l && id.right.name === r] *)
Definition isQualifiedNamed (id : TSEntityName) (l r : string) : bool :=
  match id with
  | TSQualifiedName (TSIdentifierName n) m => String.eqb n l && String.eqb m r
  | _ => false
  end.

(** [params && params.params.length === n] *)
Definition hasParams (params : option (list TSType)) (n : nat) : bool :=
  match params with
  | Some ps => Nat.eqb (length ps) n
  | None => false
  end.

Definition noParams (params : option (list TSType)) : bool :=
  match params with
  | Some _ => false
  | None => true
  end.

(** [params.params[i]]; the default is never reached where the code indexes,
    the length having been tested first. *)
Definition paramAt (params : option (list TSType)) (i : nat) : TSType :=
  match params with
  | Some ps => nth i ps TSAnyKeyword
  | None => TSAnyKeyword
  end.

Definition isAnyOrExistential (ts : TSType) : bool :=
  match ts with
  | TSAnyKeyword => true
  | TSTypeReference (TSIdentifierName n) _ => String.eqb n "FlowAnyExistential"
  | _ => false
  end.

(** The case [GenericTypeAnnotation] once the identifier and the type
    arguments are migrated: the chain of [if]s, in the order of the source. *)
Definition migrateGenericTypeAnnotation (id : TSEntityName)
    (params : option (list TSType)) : TSType :=
  if isIdentifierNamed id "Object" && noParams params then
    TSTypeReference (TSIdentifierName "FlowAnyObject") None
  else if isIdentifierNamed id "Function" && noParams params then
    TSTypeReference (TSIdentifierName "FlowAnyFunction") None
  else if isIdentifierNamed id "$ReadOnlyArray" && hasParams params 1 then
    TSTypeReference (TSIdentifierName "ReadonlyArray") params
  else if isIdentifierNamed id "$ReadOnly" && hasParams params 1 then
    TSTypeReference (TSIdentifierName "Readonly") params
  else if isIdentifierNamed id "$Keys" && hasParams params 1 then
    TSTypeOperator "keyof" (paramAt params 0)
  else if isIdentifierNamed id "$Values" && hasParams params 1 then
    TSTypeReference (TSQualifiedName (TSIdentifierName "h") "ObjectValues")
      params
  else if isIdentifierNamed id "$Shape" && hasParams params 1 then
    TSTypeReference (TSIdentifierName "Partial") params
  else if isIdentifierNamed id "$Subtype" && hasParams params 1 then
    TSTypeReference (TSIdentifierName "FlowAnySubtype") params
  else if isIdentifierNamed id "$PropertyType" && hasParams params 2 then
    TSIndexedAccessType (paramAt params 0) (paramAt params 1)
  else if isIdentifierNamed id "$ElementType" && hasParams params 2 then
    TSIndexedAccessType (paramAt params 0) (paramAt params 1)
  else if isQualifiedNamed id "React" "Node" && noParams params then
    TSTypeReference (TSQualifiedName (TSIdentifierName "React") "ReactNode")
      None
  else if isQualifiedNamed id "React" "Element" && hasParams params 1 then
    if isAnyOrExistential (paramAt params 0) then
      TSTypeReference
        (TSQualifiedName (TSIdentifierName "React") "ReactElement") params
    else
      TSTypeReference
        (TSQualifiedName (TSIdentifierName "React") "ReactElement")
        (Some [TSTypeReference
                 (TSQualifiedName (TSIdentifierName "React") "ComponentProps")
                 params])
  else TSTypeReference id params.

(** Function types are wrapped in parentheses inside unions and
    intersections. *)
Definition parenthesizeFunctionType (tsMemberType : TSType) : TSType :=
  match tsMemberType with
  | TSFunctionType _ _ _ => TSParenthesizedType tsMemberType
  | _ => tsMemberType
  end.

(** [variance && variance.kind !== 'plus'] *)
Definition isMinusVariance (variance : option VarianceKind) : bool :=
  match variance with
  | Some minus => true
  | _ => false
  end.

(** [variance ? variance.kind === 'plus' : null] *)
Definition readonlyOfVariance (variance : option VarianceKind)
  : option bool :=
  match variance with
  | Some plus => Some true
  | Some minus => Some false
  | None => None
  end.

Definition keyIsIdentifier (key : PropertyKey) : bool :=
  match key with
  | KeyIdentifier _ => true
  | KeyStringLiteral _ => false
  end.

(** [key.type === 'Identifier' && key.name.startsWith('$')] *)
Definition hasInternalName (key : PropertyKey) : bool :=
  match key with
  | KeyIdentifier (String c _) => Ascii.eqb c "$"%char
  | _ => false
  end.

Definition memberLoc (flowMember : ObjectTypeMember) : SourceLocation :=
  match flowMember with
  | ObjectTypeProperty _ _ _ _ _ _ _ _ l => l
  | ObjectTypeSpreadProperty _ l => l
  | ObjectTypeIndexer _ _ _ _ _ l => l
  | ObjectTypeCallProperty _ _ l => l
  | ObjectTypeInternalSlot _ _ _ _ _ l => l
  | OtherObjectTypeMember _ l => l
  end.

(** [Array.prototype.sort] with the comparator
    [(a, b) => a.loc.start.line - b.loc.start.line]: a stable sort on the
    start line.  [insertByLine] puts an element in front of the first one
    that starts on a later or the same line. *)
Fixpoint insertByLine {A} (x : N * A) (l : list (N * A)) : list (N * A) :=
  match l with
  | [] => [x]
  | y :: l' =>
      if (x.1 <=? y.1)%N then x :: y :: l' else y :: insertByLine x l'
  end.

Definition sortByLine {A} (l : list (N * A)) : list (N * A) :=
  foldr insertByLine [] l.

(** The pieces of the intersection an object type is split into. *)
Inductive IntersectionPart : Type :=
| literal (members : list TSTypeElement)
| reference (type : TSType).

(** What one member of an object type contributes. *)
Inductive MigratedMember : Type :=
| SpreadArgument (tsArgument : TSType)
| OwnMember (tsMember : TSTypeElement).

(** One turn of the loop over the sorted members: a spread pushes a
    reference; any other member goes to the last literal, a new one being
    pushed when the last piece is not a literal. *)
Definition pushMigratedMember (intersectionTypes : list IntersectionPart)
    (m : MigratedMember) : list IntersectionPart :=
  match m with
  | SpreadArgument tsArgument => intersectionTypes ++ [reference tsArgument]
  | OwnMember tsMember =>
      match last intersectionTypes with
      | Some (literal members) =>
          <[pred (length intersectionTypes) := literal (members ++ [tsMember])]>
            intersectionTypes
      | _ => intersectionTypes ++ [literal [tsMember]]
      end
  end.

Definition isStringOrNumberKeyword (ts : TSType) : bool :=
  match ts with
  | TSStringKeyword | TSNumberKeyword => true
  | _ => false
  end.

(** [intersectionTypes.map(...)]: a literal whose only member is an index
    signature keyed by something else than [string] or [number] becomes
    [h.ObjectMap<K, V>]. *)
Definition typeOfIntersectionPart (intersectionType : IntersectionPart)
  : TSType :=
  match intersectionType with
  | literal members =>
      match members with
      | [TSIndexSignature (TSIdentifier _ _ (Some indexType) :: _) valueType _] =>
          if negb (isStringOrNumberKeyword indexType) then
            TSTypeReference (TSQualifiedName (TSIdentifierName "h") "ObjectMap")
              (Some [indexType; valueType])
          else TSTypeLiteral members
      | _ => TSTypeLiteral members
      end
  | reference type => type
  end.

(** The end of the case [ObjectTypeAnnotation]. *)
Definition typeOfIntersectionParts (intersectionTypes : list IntersectionPart)
  : TSType :=
  match intersectionTypes with
  | [] => TSTypeLiteral []
  | _ =>
      match typeOfIntersectionPart <$> intersectionTypes with
      | [type] => type
      | types => TSIntersectionType types
      end
  end.

(** [xs.map((x, i) => f(x, i))], counting from [i]. *)
Definition mapiM {S A B} (f : nat → A → M S B)
  : nat → list A → M S (list B) :=
  fix go (i : nat) (l : list A) : M S (list B) :=
    match l with
    | [] => ret []
    | x :: l' => y <- f i x ;; ys <- go (Datatypes.S i) l' ;; ret (y :: ys)
    end.

Section Migration.
Variable filePath : string.

Let R := MigrationReporter.

(** [migrateType] (which is [actuallyMigrateType] followed by
    [inheritLocAndComments]), [migrateTypeParameterDeclaration] on one
    parameter, the callback of [flowType.params.map], the rest parameter,
    and [migrateObjectMember] ([actuallyMigrateObjectMember]).

    In the case [ObjectTypeAnnotation] the migration of each member is
    prepared as a computation paired with the member's start line; the
    computations then run in the sorted order, as the loop of the source
    visits the sorted members. *)
Fixpoint migrateType (flowType : FlowType) {struct flowType} : M R TSType :=
  match flowType with
  | AnyTypeAnnotation => ret TSAnyKeyword
  | ArrayTypeAnnotation elementType =>
      ts <- migrateType elementType ;; ret (TSArrayType ts)
  | BooleanTypeAnnotation => ret TSBooleanKeyword
  | BooleanLiteralTypeAnnotation value =>
      ret (TSLiteralType (TSBooleanLiteral value))
  | NullLiteralTypeAnnotation => ret TSNullKeyword
  | ExistsTypeAnnotation =>
      ret (TSTypeReference (TSIdentifierName "FlowAnyExistential") None)
  | FunctionTypeAnnotation typeParameters params rest returnType =>
      typeParams <- optM (mapM migrateTypeParameter) typeParameters ;;
      params' <- mapiM migrateFunctionTypeParam 0 params ;;
      restParams <-
        match rest with
        | Some r => tsRestParam <- migrateRest r ;; ret [tsRestParam]
        | None => ret []
        end ;;
      ret' <- migrateType returnType ;;
      ret (TSFunctionType typeParams (params' ++ restParams) ret')
  | GenericTypeAnnotation id typeParameters =>
      let id' := migrateQualifiedIdentifier id in
      params <-
        match typeParameters with
        | Some (p :: ps) =>
            ps' <- mapM migrateType (p :: ps) ;; ret (Some ps')
        | _ => ret None
        end ;;
      ret (migrateGenericTypeAnnotation id' params)
  | InterfaceTypeAnnotation _ =>
      throw ("Unsupported AST node: " +:+
             JSON_stringify "InterfaceTypeAnnotation")
  | IntersectionTypeAnnotation types =>
      types' <- mapM (λ flowMemberType,
                       tsMemberType <- migrateType flowMemberType ;;
                       ret (parenthesizeFunctionType tsMemberType)) types ;;
      ret (TSIntersectionType types')
  | MixedTypeAnnotation => ret TSUnknownKeyword
  | EmptyTypeAnnotation => ret TSNeverKeyword
  | NullableTypeAnnotation typeAnnotation =>
      ts <- migrateType typeAnnotation ;;
      ret (TSUnionType [ts; TSNullKeyword; TSUndefinedKeyword])
  | NumberLiteralTypeAnnotation value =>
      ret (TSLiteralType (TSNumericLiteral value))
  | NumberTypeAnnotation => ret TSNumberKeyword
  | ObjectTypeAnnotation properties indexers callProperties internalSlots _ =>
      let prepare (flowMember : ObjectTypeMember)
        : N * M R MigratedMember :=
        (line (start (memberLoc flowMember)),
         match flowMember with
         | ObjectTypeSpreadProperty argument _ =>
             ts <- migrateType argument ;;
             ret (SpreadArgument (TSParenthesizedType ts))
         | _ =>
             tsMember <- migrateObjectMember flowMember ;;
             ret (OwnMember tsMember)
         end) in
      let preparedOf (o : option (list ObjectTypeMember)) :=
        match o with
        | Some l => map prepare l
        | None => []
        end in
      let flowMembers :=
        map prepare properties ++ preparedOf indexers ++
        preparedOf callProperties ++ preparedOf internalSlots in
      intersectionTypes <-
        foldM (λ intersectionTypes flowMember,
                m <- flowMember.2 ;;
                ret (pushMigratedMember intersectionTypes m))
              (sortByLine flowMembers) [] ;;
      ret (typeOfIntersectionParts intersectionTypes)
  | StringLiteralTypeAnnotation value =>
      ret (TSLiteralType (TSStringLiteral value))
  | StringTypeAnnotation => ret TSStringKeyword
  | ThisTypeAnnotation => ret TSThisType
  | TupleTypeAnnotation types =>
      types' <- mapM migrateType types ;; ret (TSTupleType types')
  | TypeofTypeAnnotation argument =>
      tsType <- migrateType argument ;;
      match tsType with
      | TSTypeReference typeName None => ret (TSTypeQuery typeName)
      | TSTypeReference _ (Some _) =>
          throw "Unexpected type parameters on `typeof` argument."
      | _ =>
          throw ("Unexpected AST node: " +:+
                 JSON_stringify (TSType_type tsType))
      end
  | UnionTypeAnnotation types =>
      (* [anyMemberIndex] starts as [null] and is only assigned under the
         test [anyMemberIndex !== null]: it is [null] at the [return]. *)
      types' <- mapM (λ flowMemberType,
                       tsMemberType <- migrateType flowMemberType ;;
                       ret (parenthesizeFunctionType tsMemberType)) types ;;
      ret (TSUnionType types')
  | VoidTypeAnnotation => ret TSVoidKeyword
  | OtherFlowType type =>
      throw ("Unexpected AST node: " +:+ JSON_stringify type)
  end

with migrateTypeParameter (flowTypeParameter : TypeParameter)
    {struct flowTypeParameter} : M R TSTypeParameter :=
  match flowTypeParameter with
  | MkTypeParameter name bound default variance loc =>
      when (bool_decide (variance ≠ None))
        (typeParameterWithVariance filePath loc) ;;;
      constraint <- optM migrateType bound ;;
      default' <- optM migrateType default ;;
      ret (MkTSTypeParameter constraint default' name)
  end

with migrateFunctionTypeParam (i : nat) (flowParam : FunctionTypeParam)
    {struct flowParam} : M R TSParameter :=
  match flowParam with
  | MkFunctionTypeParam name optional typeAnnotation =>
      ts <- migrateType typeAnnotation ;;
      ret (tsIdentifier
             (match name with
              | Some n => n
              | None => "arg" +:+ pretty (i + 1)%nat
              end)
             optional (Some ts))
  end

with migrateRest (rest : FunctionTypeParam) {struct rest}
    : M R TSParameter :=
  match rest with
  | MkFunctionTypeParam name _ typeAnnotation =>
      ts <- migrateType typeAnnotation ;;
      ret (TSRestElement (default "rest" name) ts)
  end

with migrateObjectMember (flowMember : ObjectTypeMember)
    {struct flowMember} : M R TSTypeElement :=
  match flowMember with
  | ObjectTypeProperty key value variance kind method optional proto
      static loc =>
      when (hasInternalName key)
        (objectPropertyWithInternalName filePath loc) ;;;
      when (isMinusVariance variance)
        (objectPropertyWithMinusVariance filePath loc) ;;;
      match kind with
      | None =>
          throw "Unsupported object type property kind: undefined"
      | Some _ =>
          if proto then
            throw "Did not expect any Flow properties with `proto` set to true."
          else if static then
            throw "Did not expect any Flow properties with `static` set to true."
          else
            tsValue <- migrateType value ;;
            if negb method then
              ret (TSPropertySignature key tsValue
                     (negb (keyIsIdentifier key)) optional
                     (readonlyOfVariance variance))
            else
              match tsValue with
              | TSFunctionType typeParameters parameters typeAnnotation =>
                  ret (TSMethodSignature key typeParameters parameters
                         typeAnnotation (negb (keyIsIdentifier key))
                         optional)
              | _ =>
                  throw ("Unexpected AST node: " +:+
                         JSON_stringify (TSType_type tsValue))
              end
      end
  | ObjectTypeIndexer id key value variance static loc =>
      when (isMinusVariance variance)
        (objectPropertyWithMinusVariance filePath loc) ;;;
      if static then
        throw "Did not expect any Flow properties with `static` set to true."
      else
        tsKey <- migrateType key ;;
        tsValue <- migrateType value ;;
        ret (TSIndexSignature
               [tsIdentifier (default "key" id) None (Some tsKey)]
               tsValue (readonlyOfVariance variance))
  | ObjectTypeCallProperty _ _ _ =>
      throw ("Unsupported AST node: " +:+
             JSON_stringify "ObjectTypeCallProperty")
  | ObjectTypeInternalSlot _ _ _ _ _ _ =>
      throw ("Unsupported AST node: " +:+
             JSON_stringify "ObjectTypeInternalSlot")
  | ObjectTypeSpreadProperty _ _ =>
      throw ("Unrecognized AST node: " +:+
             JSON_stringify "ObjectTypeSpreadProperty")
  | OtherObjectTypeMember type _ =>
      throw ("Unrecognized AST node: " +:+ JSON_stringify type)
  end.

Definition migrateTypeParameterDeclaration
    (flowTypeParameters : list TypeParameter)
  : M R (list TSTypeParameter) :=
  mapM migrateTypeParameter flowTypeParameters.

Definition migrateTypeParameterInstantiation
    (flowTypeParameters : list FlowType) : M R (list TSType) :=
  mapM migrateType flowTypeParameters.
End Migration.

(** ** Expressions and the cast visitor *)

(** The expressions the cast visitor inspects or builds.  An element of an
    array is absent (a hole), an expression or a spread; a property of an
    object expression is a method, a spread, or a property whose value is an
    expression or a pattern. *)
Inductive Expression : Type :=
| Identifier (name : string)
| StringLiteral (value : string)
| NumericLiteral (value : float)
| NullLiteral
| BooleanLiteral (value : bool)
| RegExpLiteral (pattern flags : string)
| TemplateLiteral (quasis : list string) (expressions : list Expression)
| BigIntLiteral (value : string)
| ArrayExpression (elements : list (option ArrayElement))
| ObjectExpression (properties : list ObjectMember)
| TypeCastExpression (expression : Expression) (typeAnnotation : FlowType)
| CallExpression (callee : Expression) (arguments : list Expression)
    (typeParameters : option (list TSType))
| MemberExpression (object property : Expression)
| ParenthesizedExpression (expression : Expression)
| TSAsExpression (expression : Expression) (typeAnnotation : TSType)
| OtherExpression (type : string)
with ArrayElement : Type :=
| Element (expression : Expression)
| SpreadElement (argument : Expression)
with ObjectMember : Type :=
| ObjectMethod (key : Expression)
| ObjectSpreadElement (argument : Expression)
| ObjectProperty (key : Expression) (computed : bool) (value : Expression)
| ObjectPatternProperty (key : Expression) (computed : bool)
    (valueType : string).

(** [t.isLiteral]: the node types of Babel's alias [Literal]. *)
Definition isLiteral (expression : Expression) : bool :=
  match expression with
  | StringLiteral _ | NumericLiteral _ | NullLiteral | BooleanLiteral _
  | RegExpLiteral _ _ | TemplateLiteral _ _ | BigIntLiteral _ => true
  | _ => false
  end.

(** Is this a literal expression? Includes literal objects and functions. *)
Fixpoint isComplexLiteral (expression : Expression) : bool :=
  if isLiteral expression then true
  else
    match expression with
    | Identifier name => String.eqb name "undefined"
    | ArrayExpression elements =>
        forallb (λ element,
                  match element with
                  | None => true
                  | Some (SpreadElement argument) => isComplexLiteral argument
                  | Some (Element e) => isComplexLiteral e
                  end) elements
    | ObjectExpression properties =>
        forallb (λ property,
                  match property with
                  | ObjectMethod _ => false
                  | ObjectSpreadElement _ => false
                  | ObjectProperty key computed value =>
                      negb (computed && negb (isComplexLiteral key)) &&
                      isComplexLiteral value
                  | ObjectPatternProperty key computed _ =>
                      negb (computed && negb (isComplexLiteral key))
                  end) properties
    | _ => false
    end.

(** A node on the path from the visited node to the program. *)
Inductive Node : Type :=
| ExpressionNode (expression : Expression)
| OtherNode (type : string).

Definition Expression_type (expression : Expression) : string :=
  match expression with
  | Identifier _ => "Identifier"
  | StringLiteral _ => "StringLiteral"
  | NumericLiteral _ => "NumericLiteral"
  | NullLiteral => "NullLiteral"
  | BooleanLiteral _ => "BooleanLiteral"
  | RegExpLiteral _ _ => "RegExpLiteral"
  | TemplateLiteral _ _ => "TemplateLiteral"
  | BigIntLiteral _ => "BigIntLiteral"
  | ArrayExpression _ => "ArrayExpression"
  | ObjectExpression _ => "ObjectExpression"
  | TypeCastExpression _ _ => "TypeCastExpression"
  | CallExpression _ _ _ => "CallExpression"
  | MemberExpression _ _ => "MemberExpression"
  | ParenthesizedExpression _ => "ParenthesizedExpression"
  | TSAsExpression _ _ => "TSAsExpression"
  | OtherExpression type => type
  end.

Definition Node_type (node : Node) : string :=
  match node with
  | ExpressionNode e => Expression_type e
  | OtherNode type => type
  end.

(** [NodePath]: a node, the path of its parent, and what its scope binds. *)
Inductive NodePath : Type :=
| MkNodePath (node : Node) (parentPath : option NodePath).

Definition path_node (path : NodePath) : Node :=
  match path with MkNodePath node _ => node end.

(** Are we inside [createReactClass()]? *)
Fixpoint isInsideCreateReactClass (path : NodePath) : bool :=
  match path with
  | MkNodePath node parentPath =>
      match node with
      | ExpressionNode (CallExpression (Identifier name) _ _) =>
          if String.eqb name "createReactClass" then true
          else match parentPath with
               | Some p => isInsideCreateReactClass p
               | None => false
               end
      | _ =>
          match parentPath with
          | Some p => isInsideCreateReactClass p
          | None => false
          end
      end
  end.

(** The state of one traversal: the reporter and [shouldImportUtils]. *)
Record TraversalState : Type :=
  { reporter : MigrationReporter; shouldImportUtils : bool }.

(** Running a reporter computation inside a traversal. *)
Definition liftReporter {A} (m : M MigrationReporter A)
  : M TraversalState A :=
  λ s, match m (reporter s) with
       | (a, r) =>
           (a, {| reporter := r; shouldImportUtils := shouldImportUtils s |})
       end.

(** [importUtils(path)]; [hasBindingU] is [path.scope.hasBinding('u')]. *)
Definition importUtils (hasBindingU : bool) : M TraversalState Expression :=
  when (negb hasBindingU)
    (modify (λ s, {| reporter := reporter s; shouldImportUtils := true |})) ;;;
  ret (Identifier "u").

(** The first test of the cast visitor: the expression is itself a cast
    whose annotation is [any], or a generic type with type parameters
    present whose identifier is [Object] or [Function]. *)
Definition isUnsoundInnerAnnotation (inner : FlowType) : bool :=
  match inner with
  | AnyTypeAnnotation => true
  | GenericTypeAnnotation (FIdentifier name) (Some _) =>
      String.eqb name "Object" || String.eqb name "Function"
  | _ => false
  end.

(** The third test: a string or number literal cast to its own type. *)
Definition isSelfLiteralCast (expression : Expression) (T : FlowType)
  : bool :=
  match expression, T with
  | StringLiteral v, StringLiteralTypeAnnotation v' => String.eqb v v'
  | NumericLiteral v, NumberLiteralTypeAnnotation v' => PrimFloat.eqb v v'
  | _, _ => false
  end.

Definition isAnyTypeAnnotation (T : FlowType) : bool :=
  match T with
  | AnyTypeAnnotation => true
  | _ => false
  end.

Section CastVisitor.
Variable filePath : string.

(** The visitor [TypeCastExpression(path)] for the node
    [(expression: typeAnnotation)]; it returns the node that replaces the
    cast.  [parentPath] is the path above the cast.  The chain of tests is
    that of the source: the nested unsound cast first, then
    [otherStrategies], which ends in [safeCast]. *)
Definition TypeCastExpression_visitor (parentPath : option NodePath)
    (hasBindingU : bool) (expression : Expression)
    (typeAnnotation : FlowType) : M TraversalState Expression :=
  let path :=
    MkNodePath (ExpressionNode (TypeCastExpression expression typeAnnotation))
      parentPath in
  let parentIsObjectProperty :=
    match parentPath with
    | Some p => String.eqb (Node_type (path_node p)) "ObjectProperty"
    | None => false
    end in
  let safeCast : M TraversalState Expression :=
    u <- importUtils hasBindingU ;;
    ts <- liftReporter (migrateType filePath typeAnnotation) ;;
    ret (CallExpression (MemberExpression u (Identifier "cast"))
           [expression] (Some [ts])) in
  let otherStrategies : M TraversalState Expression :=
    if isAnyTypeAnnotation typeAnnotation then
      ts <- liftReporter (migrateType filePath typeAnnotation) ;;
      ret (TSAsExpression expression ts)
    else if isSelfLiteralCast expression typeAnnotation then
      ret (TSAsExpression expression
             (TSTypeReference (TSIdentifierName "const") None))
    else if isComplexLiteral expression then
      ts <- liftReporter (migrateType filePath typeAnnotation) ;;
      ret (TSAsExpression expression ts)
    else safeCast in
  match expression with
  | TypeCastExpression inner innerAnnotation =>
      if isUnsoundInnerAnnotation innerAnnotation then
        if parentIsObjectProperty && isInsideCreateReactClass path then
          tsInner <- liftReporter (migrateType filePath innerAnnotation) ;;
          tsOuter <- liftReporter (migrateType filePath typeAnnotation) ;;
          ret (TSAsExpression
                 (ParenthesizedExpression (TSAsExpression inner tsInner))
                 tsOuter)
        else
          tsOuter <- liftReporter (migrateType filePath typeAnnotation) ;;
          ret (TSAsExpression inner tsOuter)
      else otherStrategies
  | _ => otherStrategies
  end.
End CastVisitor.

(** ** Function parameters *)

(** The annotation held by a pattern node: a Flow annotation not yet
    visited, or the [TSTypeAnnotation] that replaced it. *)
Inductive Annotation : Type :=
| TypeAnnotation (typeAnnotation : FlowType)
| TSTypeAnnotation (typeAnnotation : TSType).

(** A pattern node ([Identifier], [ObjectPattern], [ArrayPattern],
    [RestElement], ...) with the fields the visitors read and write. *)
Record LVal : Type :=
  { node_type : string;
    node_name : string;
    node_optional : option bool;
    node_typeAnnotation : option Annotation;
    node_loc : SourceLocation }.

(** A parameter of a function: a pattern, or a pattern with a default. *)
Inductive Param : Type :=
| Pattern (node : LVal)
| AssignmentPattern (left : LVal) (right : Expression)
    (typeAnnotation : option Annotation).

Definition isIdentifier (node : LVal) : bool :=
  String.eqb (node_type node) "Identifier".

(** Truthiness of the field [optional]. *)
Definition isOptional (node : LVal) : bool :=
  match node_optional node with
  | Some true => true
  | _ => false
  end.

Definition setOptional (o : option bool) (node : LVal) : LVal :=
  {| node_type := node_type node; node_name := node_name node;
     node_optional := o; node_typeAnnotation := node_typeAnnotation node;
     node_loc := node_loc node |}.

Definition setTypeAnnotation (a : option Annotation) (node : LVal) : LVal :=
  {| node_type := node_type node; node_name := node_name node;
     node_optional := node_optional node; node_typeAnnotation := a;
     node_loc := node_loc node |}.

(** [T] becomes [T | undefined]; a union gets [undefined] pushed. *)
Definition unionWithUndefined (ts : TSType) : TSType :=
  match ts with
  | TSUnionType types => TSUnionType (types ++ [TSUndefinedKeyword])
  | _ => TSUnionType [ts; TSUndefinedKeyword]
  end.

(** The body of [if (!optional)] in [FunctionDeclaration.exit]:
    [delete identifier.optional], and [undefined] joins the type when the
    annotation is a [TSTypeAnnotation]. *)
Definition makeRequired (identifier : LVal) : LVal :=
  let identifier' := setOptional None identifier in
  match node_typeAnnotation identifier' with
  | Some (TSTypeAnnotation ts) =>
      setTypeAnnotation (Some (TSTypeAnnotation (unionWithUndefined ts)))
        identifier'
  | _ => identifier'
  end.

(** The value of [paramIsOptional] for a parameter. *)
Definition paramIsOptional (param : Param) : bool :=
  match param with
  | AssignmentPattern _ _ _ => true
  | Pattern node => isIdentifier node && isOptional node
  end.

(** One turn of the loop of [FunctionDeclaration.exit]; [optional] is the
    flag carried from the parameters to the right. *)
Definition exitParam (optional : bool) (param : Param) : bool * Param :=
  let param1 :=
    match param with
    | AssignmentPattern left_ right_ a =>
        if isIdentifier left_ && isOptional left_
        then AssignmentPattern (setOptional (Some false) left_) right_ a
        else param
    | Pattern _ => param
    end in
  if negb (paramIsOptional param) then (false, param1)
  else if negb optional then
    (optional,
     match param1 with
     | AssignmentPattern left_ right_ a => AssignmentPattern (makeRequired left_) right_ a
     | Pattern node => Pattern (makeRequired node)
     end)
  else (optional, param1).

(** The loop over [params.slice().reverse()], given the reversed list; the
    result lists the rewritten parameters in source order. *)
Fixpoint exitParams (optional : bool) (reversed : list Param) (done : list Param)
  : list Param :=
  match reversed with
  | [] => done
  | param :: reversed' =>
      let '(optional', param') := exitParam optional param in
      exitParams optional' reversed' (param' :: done)
  end.

(** [FunctionDeclaration.exit] on [path.node.params]. *)
Definition FunctionDeclaration_exit (params : list Param) : list Param :=
  exitParams true (rev params) [].

Definition isVoidTypeAnnotation (T : FlowType) : bool :=
  match T with
  | VoidTypeAnnotation => true
  | _ => false
  end.

Section ParameterAnnotations.
Variable filePath : string.

(** The visitor [TypeAnnotation(path)] where the parent of the annotation
    is the pattern node [parent]; [grandParentType] is
    [path.parentPath.parent.type].  It returns the parent with its
    annotation replaced. *)
Definition TypeAnnotation_visitor (grandParentType : string) (parent : LVal)
    (typeAnnotation : FlowType) : M MigrationReporter LVal :=
  let applies :=
    isIdentifier parent &&
    negb (String.eqb grandParentType "VariableDeclarator") in
  (* function f(x: ?T) → function f(x?: T | null) *)
  let '(parent1, annotation1) :=
    match typeAnnotation with
    | NullableTypeAnnotation T =>
        if applies
        then (setOptional (Some true) parent,
              UnionTypeAnnotation [T; NullLiteralTypeAnnotation])
        else (parent, typeAnnotation)
    | _ => (parent, typeAnnotation)
    end in
  (* function f(x: T | void) → function f(x?: T) *)
  let '(parent2, annotation2) :=
    match annotation1 with
    | UnionTypeAnnotation types =>
        if applies && existsb isVoidTypeAnnotation types
        then (setOptional (Some true) parent1,
              UnionTypeAnnotation
                (filter (λ T, isVoidTypeAnnotation T = false) types))
        else (parent1, annotation1)
    | _ => (parent1, annotation1)
    end in
  ts <- migrateType filePath annotation2 ;;
  ret (setTypeAnnotation (Some (TSTypeAnnotation ts)) parent2).
End ParameterAnnotations.

(** ** Merging and rendering reports: [typescript/migration_reporter.ts] *)

(** [mergeArrays(k, os)]: the arrays [o[k]] one after the other. *)
Definition mergeArrays {Report T} (k : Report → list T) (os : list Report)
  : list T :=
  foldl (λ a o, foldl (λ a x, a ++ [x]) a (k o)) [] os.

(** A line printed by [console.log]. *)
Definition bullet (text : string) : string := "• " +:+ text.

(** The shape shared by the blocks of [logReport]: nothing when the list is
    empty, otherwise an empty line, a title and one line per entry. *)
Definition logSection (title : string) (entries : list string)
  : list string :=
  match entries with
  | [] => []
  | _ => [""; title] ++ entries
  end.

Section Display.
(** [CWD] of [paths.ts] and [path.relative] of Node.js. *)
Variable CWD : string.
Variable path_relative : string → string → string.

Definition displayLocation (location : Location) : string :=
  path_relative CWD (filePath location) +:+ ":" +:+
  pretty (line (loc_start location)) +:+ ":" +:+
  pretty (column (loc_start location)).
End Display.

Module MigrationReport.
(** A report on the activities of our migration. *)
Record t : Type :=
  { typeParameterWithVariance : list Location;
    objectPropertyWithInternalName : list Location;
    objectPropertyWithMinusVariance : list Location;
    unsupportedTypeCast : list Location }.
End MigrationReport.

Definition generateReport (this : MigrationReporter) : MigrationReport.t :=
  {| MigrationReport.typeParameterWithVariance :=
       _typeParameterWithVariance this;
     MigrationReport.objectPropertyWithInternalName :=
       _objectPropertyWithInternalName this;
     MigrationReport.objectPropertyWithMinusVariance :=
       _objectPropertyWithMinusVariance this;
     MigrationReport.unsupportedTypeCast := _unsupportedTypeCast this |}.

Definition mergeReports (reports : list MigrationReport.t)
  : MigrationReport.t :=
  {| MigrationReport.typeParameterWithVariance :=
       mergeArrays MigrationReport.typeParameterWithVariance reports;
     MigrationReport.objectPropertyWithInternalName :=
       mergeArrays MigrationReport.objectPropertyWithInternalName reports;
     MigrationReport.objectPropertyWithMinusVariance :=
       mergeArrays MigrationReport.objectPropertyWithMinusVariance reports;
     MigrationReport.unsupportedTypeCast :=
       mergeArrays MigrationReport.unsupportedTypeCast reports |}.

Section LogReport.
Variable CWD : string.
Variable path_relative : string → string → string.

(** [allowlists.typeParameterWithVariance], the only allowlist of
    [typescript/allowlists.ts]; its entries are data of the migrated
    corpus. *)
Variable allowlist_typeParameterWithVariance : gset string.

Let display := displayLocation CWD path_relative.

Definition logTypeParameterWithVariance (report : MigrationReport.t)
  : list string :=
  let locations :=
    filter (λ location, location ∉ allowlist_typeParameterWithVariance)
      (display <$> MigrationReport.typeParameterWithVariance report) in
  logSection "Type parameter with variance:" (bullet <$> locations).

Definition logObjectPropertyWithInternalName (report : MigrationReport.t)
  : list string :=
  let locations :=
    display <$> MigrationReport.objectPropertyWithInternalName report in
  logSection "Object property with an internal name:" (bullet <$> locations).

Definition logObjectPropertyWithMinusVariance (report : MigrationReport.t)
  : list string :=
  let locations :=
    display <$> MigrationReport.objectPropertyWithMinusVariance report in
  logSection "Object property with negative variance:"
    (bullet <$> locations).

Definition logUnsupportedTypeCast (report : MigrationReport.t)
  : list string :=
  let locations :=
    display <$> MigrationReport.unsupportedTypeCast report in
  logSection "Unsupported type cast:" (bullet <$> locations).

(** [MigrationReporter.logReport]: the lines printed, block after block. *)
Definition logReport (report : MigrationReport.t) : list string :=
  logTypeParameterWithVariance report ++
  logObjectPropertyWithInternalName report ++
  logObjectPropertyWithMinusVariance report ++
  logUnsupportedTypeCast report.
End LogReport.

(** ** The reporter of the ES-modules migration:
       [modules/migration_reporter.ts] *)
Module Modules.

(** An entry of a JavaScript [Map<string, number>], which keeps its keys
    in insertion order. *)
Definition JsMap : Type := list (string * N).

Fixpoint Map_get (m : JsMap) (k : string) : option N :=
  match m with
  | [] => None
  | e :: m' => if decide (e.1 = k) then Some e.2 else Map_get m' k
  end.

(** [m.set(k, v)]: the value changes in place when the key is present,
    otherwise the entry goes last. *)
Fixpoint Map_set (m : JsMap) (k : string) (v : N) : JsMap :=
  match m with
  | [] => [(k, v)]
  | e :: m' => if decide (e.1 = k) then (k, v) :: m' else e :: Map_set m' k v
  end.

(** A JavaScript [Set<string>], in insertion order. *)
Definition JsSet : Type := list string.

Definition Set_add (s : JsSet) (x : string) : JsSet :=
  if decide (x ∈ s) then s else s ++ [x].

Record DestructedCount : Type := { modulePath : string; count : N }.

Record MissingModule : Type := { moduleId : string; location : Location }.

Module MigrationReport.
Record t : Type :=
  { skippedLargeFiles : list string;
    requireNotCalled : list Location;
    requireOtherThanString : list Location;
    cannotFindModule : list MissingModule;
    moduleNotExportAssignment : list Location;
    requireWasDestructed : list DestructedCount;
    unableToLoadExternalModule : list string;
    importAfterSideEffects : list Location }.
End MigrationReport.

(** The private fields of a reporter instance. *)
Record MigrationReporter : Type :=
  { _skippedLargeFiles : list string;
    _requireNotCalled : list Location;
    _requireOtherThanString : list Location;
    _cannotFindModule : list MissingModule;
    _moduleNotExports : list Location;
    _requireWasDestructed : JsMap;
    _unableToLoadExternalModule : JsSet;
    _importAfterSideEffects : list Location }.

(** [requireWasDestructed(modulePath)] *)
Definition requireWasDestructed (modulePath : string)
    (this : MigrationReporter) : MigrationReporter :=
  let count := default 0%N (Map_get (_requireWasDestructed this) modulePath) in
  {| _skippedLargeFiles := _skippedLargeFiles this;
     _requireNotCalled := _requireNotCalled this;
     _requireOtherThanString := _requireOtherThanString this;
     _cannotFindModule := _cannotFindModule this;
     _moduleNotExports := _moduleNotExports this;
     _requireWasDestructed :=
       Map_set (_requireWasDestructed this) modulePath (count + 1)%N;
     _unableToLoadExternalModule := _unableToLoadExternalModule this;
     _importAfterSideEffects := _importAfterSideEffects this |}.

(** [unableToLoadExternalModule(modulePath)] *)
Definition unableToLoadExternalModule (modulePath : string)
    (this : MigrationReporter) : MigrationReporter :=
  {| _skippedLargeFiles := _skippedLargeFiles this;
     _requireNotCalled := _requireNotCalled this;
     _requireOtherThanString := _requireOtherThanString this;
     _cannotFindModule := _cannotFindModule this;
     _moduleNotExports := _moduleNotExports this;
     _requireWasDestructed := _requireWasDestructed this;
     _unableToLoadExternalModule :=
       Set_add (_unableToLoadExternalModule this) modulePath;
     _importAfterSideEffects := _importAfterSideEffects this |}.

Definition entriesToCounts (m : JsMap) : list DestructedCount :=
  (λ e, {| modulePath := e.1; count := e.2 |}) <$> m.

Definition generateReport (this : MigrationReporter) : MigrationReport.t :=
  {| MigrationReport.skippedLargeFiles := _skippedLargeFiles this;
     MigrationReport.requireNotCalled := _requireNotCalled this;
     MigrationReport.requireOtherThanString := _requireOtherThanString this;
     MigrationReport.cannotFindModule := _cannotFindModule this;
     MigrationReport.moduleNotExportAssignment := _moduleNotExports this;
     MigrationReport.requireWasDestructed :=
       entriesToCounts (_requireWasDestructed this);
     MigrationReport.unableToLoadExternalModule :=
       _unableToLoadExternalModule this;
     MigrationReport.importAfterSideEffects :=
       _importAfterSideEffects this |}.

(** The body of the first loop of [mergeReports]. *)
Definition countStep (requireWasDestructed : JsMap) (c : DestructedCount)
  : JsMap :=
  let lastCount :=
    default 0%N (Map_get requireWasDestructed (modulePath c)) in
  Map_set requireWasDestructed (modulePath c) (lastCount + count c)%N.

(** The first loop of [mergeReports]. *)
Definition mergeRequireWasDestructed (reports : list MigrationReport.t)
  : JsMap :=
  foldl (λ m report,
          foldl countStep m (MigrationReport.requireWasDestructed report))
        [] reports.

(** The second loop of [mergeReports]. *)
Definition mergeUnableToLoadExternalModule
    (reports : list MigrationReport.t) : JsSet :=
  foldl (λ s report,
          foldl Set_add s (MigrationReport.unableToLoadExternalModule report))
        [] reports.

Definition mergeReports (reports : list MigrationReport.t)
  : MigrationReport.t :=
  {| MigrationReport.skippedLargeFiles :=
       mergeArrays MigrationReport.skippedLargeFiles reports;
     MigrationReport.requireNotCalled :=
       mergeArrays MigrationReport.requireNotCalled reports;
     MigrationReport.requireOtherThanString :=
       mergeArrays MigrationReport.requireOtherThanString reports;
     MigrationReport.cannotFindModule :=
       mergeArrays MigrationReport.cannotFindModule reports;
     MigrationReport.moduleNotExportAssignment :=
       mergeArrays MigrationReport.moduleNotExportAssignment reports;
     MigrationReport.requireWasDestructed :=
       entriesToCounts (mergeRequireWasDestructed reports);
     MigrationReport.unableToLoadExternalModule :=
       mergeUnableToLoadExternalModule reports;
     MigrationReport.importAfterSideEffects :=
       mergeArrays MigrationReport.importAfterSideEffects reports |}.

Section LogReport.
Variable CWD : string.
Variable path_relative : string → string → string.

(** The allowlists of [modules/allowlists.ts] that [logReport] reads. *)
Variable allowlist_requireNotCalled : gset string.
Variable allowlist_requireOtherThanString : gset string.
Variable allowlist_cannotFindModule : gset string.
Variable allowlist_moduleNotExportAssignment : gset string.

Let display := displayLocation CWD path_relative.

Definition logSkippedLargeFiles (report : MigrationReport.t)
  : list string :=
  logSection "Skipped large files:"
    ((λ filePath, bullet (path_relative CWD filePath)) <$>
       MigrationReport.skippedLargeFiles report).

Definition logRequireNotCalled (report : MigrationReport.t)
  : list string :=
  let requireNotCalled :=
    filter (λ location, location ∉ allowlist_requireNotCalled)
      (display <$> MigrationReport.requireNotCalled report) in
  logSection "Require not called:" (bullet <$> requireNotCalled).

Definition logRequireOtherThanString (report : MigrationReport.t)
  : list string :=
  let requireOtherThanString :=
    filter (λ location, location ∉ allowlist_requireOtherThanString)
      (display <$> MigrationReport.requireOtherThanString report) in
  logSection "Required something other than a string:"
    (bullet <$> requireOtherThanString).

Definition cannotFindModuleLine (e : string * string) : string :=
  bullet ("Cannot find module '" +:+ e.1 +:+ "' in '" +:+ e.2 +:+ "'").

Definition logCannotFindModule (report : MigrationReport.t)
  : list string :=
  let cannotFindModule :=
    filter (λ e : string * string, e.2 ∉ allowlist_cannotFindModule)
      ((λ m, (moduleId m, display (location m))) <$>
         MigrationReport.cannotFindModule report) in
  logSection "Required something other than a string:"
    (cannotFindModuleLine <$> cannotFindModule).

Definition logModuleNotExportAssignment (report : MigrationReport.t)
  : list string :=
  let moduleNotExportAssignment :=
    filter (λ location, location ∉ allowlist_moduleNotExportAssignment)
      (display <$> MigrationReport.moduleNotExportAssignment report) in
  logSection "Module reference is not an exports assignment:"
    (bullet <$> moduleNotExportAssignment).

Definition logUnableToLoadExternalModule (report : MigrationReport.t)
  : list string :=
  logSection "Unable to load external module:"
    ((λ modulePath, bullet (path_relative CWD modulePath)) <$>
       MigrationReport.unableToLoadExternalModule report).

(** [MigrationReporter.logReport]; the blocks for [requireWasDestructed]
    and [importAfterSideEffects] are commented out in the source. *)
Definition logReport (report : MigrationReport.t) : list string :=
  logSkippedLargeFiles report ++
  logRequireNotCalled report ++
  logRequireOtherThanString report ++
  logCannotFindModule report ++
  logModuleNotExportAssignment report ++
  logUnableToLoadExternalModule report.
End LogReport.

(** The interpretations under which merged reports are compared: a
    concatenated category as a multiset (lists up to permutation), the
    destructure counts as a map from module path to the sum of its
    counts, the unloadable modules as a set. *)
Definition countsAsMap (counts : list DestructedCount) : gmap string N :=
  foldr (λ c m, <[modulePath c := (default 0 (m !! modulePath c) + count c)%N]> m)
    ∅ counts.

Definition modulesAsSet (modules : list string) : gset string :=
  list_to_set modules.

(** The sum of two optional counts, absent when both are. *)
Definition optadd (a b : option N) : option N :=
  match a, b with
  | None, None => None
  | _, _ => Some (default 0 a + default 0 b)%N
  end.

(** The total of the counts recorded for [k], absent when [k] has none. *)
Definition keyTotal (k : string) (counts : list DestructedCount)
  : option N :=
  foldr (λ c acc,
          if decide (modulePath c = k)
          then Some (default 0 acc + count c)%N else acc)
        None counts.

Definition report_equiv (a b : MigrationReport.t) : Prop :=
  MigrationReport.skippedLargeFiles a ≡ₚ MigrationReport.skippedLargeFiles b ∧
  MigrationReport.requireNotCalled a ≡ₚ MigrationReport.requireNotCalled b ∧
  MigrationReport.requireOtherThanString a ≡ₚ
    MigrationReport.requireOtherThanString b ∧
  MigrationReport.cannotFindModule a ≡ₚ MigrationReport.cannotFindModule b ∧
  MigrationReport.moduleNotExportAssignment a ≡ₚ
    MigrationReport.moduleNotExportAssignment b ∧
  countsAsMap (MigrationReport.requireWasDestructed a) =
    countsAsMap (MigrationReport.requireWasDestructed b) ∧
  modulesAsSet (MigrationReport.unableToLoadExternalModule a) =
    modulesAsSet (MigrationReport.unableToLoadExternalModule b) ∧
  MigrationReport.importAfterSideEffects a ≡ₚ
    MigrationReport.importAfterSideEffects b.

End Modules.

(** Merged reports of the TypeScript migration compared as multisets. *)
Definition report_equiv (a b : MigrationReport.t) : Prop :=
  MigrationReport.typeParameterWithVariance a ≡ₚ
    MigrationReport.typeParameterWithVariance b ∧
  MigrationReport.objectPropertyWithInternalName a ≡ₚ
    MigrationReport.objectPropertyWithInternalName b ∧
  MigrationReport.objectPropertyWithMinusVariance a ≡ₚ
    MigrationReport.objectPropertyWithMinusVariance b ∧
  MigrationReport.unsupportedTypeCast a ≡ₚ
    MigrationReport.unsupportedTypeCast b.

(** ** Asking Flow for a type: [typescript/flow_type_at_pos.ts] *)

Definition newline : ascii := Ascii.ascii_of_nat 10.

(** [stdout.split('\n', 2)[0]]: what comes before the first line feed. *)
Fixpoint firstLine (stdout : string) : string :=
  match stdout with
  | EmptyString => EmptyString
  | String c rest =>
      if Ascii.eqb c newline then EmptyString else String c (firstLine rest)
  end.

(** [.replace(/ \((implicit|explicit)\)$/, '')]: the search goes from the
    left for a position where the rest of the string is the qualifier; what
    is matched there is dropped. *)
Fixpoint removeQualifier (s : string) : string :=
  if String.eqb s " (implicit)" || String.eqb s " (explicit)" then EmptyString
  else
    match s with
    | EmptyString => EmptyString
    | String c rest => String c (removeQualifier rest)
    end.

Definition sanitize (stdout : string) : string :=
  removeQualifier (firstLine stdout).

Section FlowTypeAtPos.
(** Babel's [parse] on [type T = ...] followed by
    [.program.body[0].right]; it throws on a syntax error. *)
Variable parseTypeAlias : string → result FlowType.

(** [executeFlowTypeAtPos]: the child process running
    [flow type-at-pos]; the promise resolves with what the process wrote
    or rejects with its error. *)
Variable executeFlowTypeAtPos : string → SourceLocation → result string.

(** Processes the standard output of [flow type-at-pos]. *)
Definition processFlowTypeAtPosStdout (stdout : string)
  : result (option FlowType) :=
  let flowTypeString := sanitize stdout in
  if String.eqb flowTypeString "(unknown)" then Ok None
  else if (100 <=? String.length flowTypeString)%nat then Ok None
  else
    match parseTypeAlias ("type T = " +:+ flowTypeString) with
    | Ok flowType => Ok (Some flowType)
    | Throw e => Throw e
    end.

(** *** The queue *)

(** A pending call; [entry_id] names the promise that [resolve] and
    [reject] settle. *)
Record QueueEntry : Type :=
  { entry_id : nat;
    entry_filePath : string;
    entry_location : SourceLocation }.

(** The module state ([processingFlowTypeAtPosQueue] and
    [flowTypeAtPosQueue]), the call in flight, and the promises settled so
    far with the raw answer or the error. *)
Record QueueState : Type :=
  { processingFlowTypeAtPosQueue : bool;
    flowTypeAtPosQueue : list QueueEntry;
    inFlight : option QueueEntry;
    settled : list (nat * result string) }.

Definition emptyQueue : QueueState :=
  {| processingFlowTypeAtPosQueue := false; flowTypeAtPosQueue := [];
     inFlight := None; settled := [] |}.

(** [processFlowTypeAtPosQueue()] up to the call of
    [executeFlowTypeAtPos]. *)
Definition processFlowTypeAtPosQueue (q : QueueState) : QueueState :=
  match flowTypeAtPosQueue q with
  | [] =>
      {| processingFlowTypeAtPosQueue := false; flowTypeAtPosQueue := [];
         inFlight := None; settled := settled q |}
  | entry :: queue =>
      {| processingFlowTypeAtPosQueue := true; flowTypeAtPosQueue := queue;
         inFlight := Some entry; settled := settled q |}
  end.

(** [flowTypeAtPos(filePath, location)] up to the [return]: the entry is
    pushed, and the queue is started unless it is running. *)
Definition enqueue (entry : QueueEntry) (q : QueueState) : QueueState :=
  let q' :=
    {| processingFlowTypeAtPosQueue := processingFlowTypeAtPosQueue q;
       flowTypeAtPosQueue := flowTypeAtPosQueue q ++ [entry];
       inFlight := inFlight q; settled := settled q |} in
  if processingFlowTypeAtPosQueue q then q' else processFlowTypeAtPosQueue q'.

(** The two callbacks of [executeFlowTypeAtPos(...).then]: the next call
    is started, then the entry is resolved or rejected with the outcome of
    its own call. *)
Definition complete (q : QueueState) : QueueState :=
  match inFlight q with
  | None => q
  | Some entry =>
      let value :=
        executeFlowTypeAtPos (entry_filePath entry) (entry_location entry) in
      let q' := processFlowTypeAtPosQueue q in
      {| processingFlowTypeAtPosQueue := processingFlowTypeAtPosQueue q';
         flowTypeAtPosQueue := flowTypeAtPosQueue q';
         inFlight := inFlight q';
         settled := settled q' ++ [(entry_id entry, value)] |}
  end.

(** What the promise returned by [flowTypeAtPos] settles to:
    [promise.then(processFlowTypeAtPosStdout)]. *)
Definition flowTypeAtPos (filePath : string) (location : SourceLocation)
  : result (option FlowType) :=
  match executeFlowTypeAtPos filePath location with
  | Ok stdout => processFlowTypeAtPosStdout stdout
  | Throw e => Throw e
  end.

(** *** Annotating parameters *)

(** [Promise.all]: fulfilled when every promise is, rejected with the
    first rejection otherwise.  The promises of one file settle in the
    order of the list, the queue being first in, first out. *)
Fixpoint Promise_all {A} (promises : list (result A)) : result (list A) :=
  match promises with
  | [] => Ok []
  | Ok a :: rest =>
      match Promise_all rest with
      | Ok l => Ok (a :: l)
      | Throw e => Throw e
      end
  | Throw e :: _ => Throw e
  end.

Definition isEmptyTypeAnnotation (T : FlowType) : bool :=
  match T with
  | EmptyTypeAnnotation => true
  | _ => false
  end.

(** The test of the loop of [annotateParamsWithFlowTypeAtPos], made when
    the function is called: is an asynchronous function started for this
    parameter. *)
Definition needsInference (param : Param) : bool :=
  match param with
  | Pattern node =>
      isIdentifier node && bool_decide (node_typeAnnotation node = None)
  | AssignmentPattern _ _ _ => false
  end.

(** The asynchronous function started for one identifier: the node after
    it ran, what its promise settled to, and the reporter. *)
Definition inferAnnotation (filePath : string) (node : LVal)
    (r : MigrationReporter) : LVal * result unit * MigrationReporter :=
  match flowTypeAtPos filePath (node_loc node) with
  | Throw e => (node, Throw e, r)
  | Ok None => (node, Ok tt, r)
  | Ok (Some flowType) =>
      let migrated :=
        if isEmptyTypeAnnotation flowType then (Ok TSAnyKeyword, r)
        else migrateType filePath flowType r in
      match migrated with
      | (Throw e, r') => (node, Throw e, r')
      | (Ok tsType, r') =>
          let tsType' :=
            match tsType with
            | TSAnyKeyword =>
                TSTypeReference (TSIdentifierName "FlowAnyInferred") None
            | _ => tsType
            end in
          (setTypeAnnotation (Some (TSTypeAnnotation tsType')) node,
           Ok tt, r')
      end
  end.

(** The functions started by one call of
    [annotateParamsWithFlowTypeAtPos], run to their end.  [started] tells,
    parameter by parameter, whether a function was started for it; the
    parameters are taken as they are when the answers arrive.  The result
    is the parameters, what each promise settled to, and the reporter. *)
Fixpoint settleParams (filePath : string) (started : list bool)
    (params : list Param) (r : MigrationReporter)
  : list Param * list (result unit) * MigrationReporter :=
  match started, params with
  | true :: started', Pattern node :: params' =>
      let '(node', outcome, r1) := inferAnnotation filePath node r in
      let '(rest, outcomes, r2) := settleParams filePath started' params' r1 in
      (Pattern node' :: rest, outcome :: outcomes, r2)
  | _ :: started', param :: params' =>
      let '(rest, outcomes, r2) := settleParams filePath started' params' r in
      (param :: rest, outcomes, r2)
  | _, _ => (params, [], r)
  end.

(** Adds a type annotation to all unannotated function parameters: the
    parameters once every started function has settled, the outcome of
    [Promise.all(awaitPromises)], and the reporter. *)
Definition annotateParamsWithFlowTypeAtPos (filePath : string)
    (params : list Param) (r : MigrationReporter)
  : list Param * result (list unit) * MigrationReporter :=
  let '(params', outcomes, r') :=
    settleParams filePath (needsInference <$> params) params r in
  (params', Promise_all outcomes, r').
End FlowTypeAtPos.

(** ** One file: [migrateToTypeScript] on declarations

    A file is modelled by the list of its declarations that the visitors
    for parameters and type aliases rewrite; each parameter is a pattern
    whose default, if any, holds nothing to rewrite. *)

Inductive Declaration : Type :=
| FunctionDeclaration (params : list Param)
| ClassMethod (params : list Param)
| ObjectMethodDeclaration (parentPath : option NodePath) (params : list Param)
| FunctionExpression (params : list Param)
| TypeAlias (id : string) (typeParameters : option (list TypeParameter))
    (right : FlowType)
| TSTypeAliasDeclaration (id : string)
    (typeParameters : option (list TSTypeParameter)) (typeAnnotation : TSType)
| JSXElement
| OtherStatement (type : string).

Definition File : Type := list Declaration.

(** [s.endsWith(suffix)] *)
Fixpoint endsWith (s suffix : string) : bool :=
  String.eqb s suffix ||
  match s with
  | EmptyString => false
  | String _ rest => endsWith rest suffix
  end.

(** [filePath.replace(/\.js$/, extension)] *)
Fixpoint replaceJsExtension (filePath extension : string) : string :=
  if String.eqb filePath ".js" then extension
  else
    match filePath with
    | EmptyString => EmptyString
    | String c rest => String c (replaceJsExtension rest extension)
    end.

Definition isJSXElement (d : Declaration) : bool :=
  match d with
  | JSXElement => true
  | _ => false
  end.

Section MigrateToTypeScript.
Variable parseTypeAlias : string → result FlowType.
Variable executeFlowTypeAtPos : string → SourceLocation → result string.
Variable filePath : string.

Let R := MigrationReporter.

(** We insert [any] more frequently when migrating a test file. *)
Definition isTestFile : bool := endsWith filePath ".test.js".

(** The loop of [FunctionDeclaration.enter] in a test file. *)
Definition annotateWithAny (param : Param) : Param :=
  let any := Some (TSTypeAnnotation TSAnyKeyword) in
  match param with
  | Pattern node =>
      match node_typeAnnotation node with
      | None => Pattern (setTypeAnnotation any node)
      | Some _ => param
      end
  | AssignmentPattern left_ right_ None => AssignmentPattern left_ right_ any
  | AssignmentPattern _ _ (Some _) => param
  end.

(** The visitors met below one parameter: [AssignmentPattern] on a
    parameter with a default, then [TypeAnnotation] on the annotation of
    the identifier.  [functionType] is the type of the function node. *)
Definition visitParam (functionType : string) (param : Param)
  : M R Param :=
  match param with
  | Pattern node =>
      match node_typeAnnotation node with
      | Some (TypeAnnotation T) =>
          node' <- TypeAnnotation_visitor filePath functionType node T ;;
          ret (Pattern node')
      | _ => ret param
      end
  | AssignmentPattern left_ right_ a =>
      let left1 :=
        if isIdentifier left_ && isOptional left_
        then setOptional (Some false) left_ else left_ in
      match node_typeAnnotation left1 with
      | Some (TypeAnnotation T) =>
          left2 <- TypeAnnotation_visitor filePath "AssignmentPattern" left1 T ;;
          ret (AssignmentPattern left2 right_ a)
      | _ => ret (AssignmentPattern left1 right_ a)
      end
  end.

(** The synchronous traversal of one declaration: the rewritten
    declaration, and for which parameters a query to Flow was started. *)
Definition visitDeclaration (d : Declaration)
  : M R (Declaration * list bool) :=
  match d with
  | FunctionDeclaration params =>
      let started := needsInference <$> params in
      let params1 := if isTestFile then annotateWithAny <$> params else params in
      params2 <- mapM (visitParam "FunctionDeclaration") params1 ;;
      ret (FunctionDeclaration (FunctionDeclaration_exit params2), started)
  | ClassMethod params =>
      let started := needsInference <$> params in
      params' <- mapM (visitParam "ClassMethod") params ;;
      ret (ClassMethod params', started)
  | ObjectMethodDeclaration parentPath params =>
      let started :=
        if isInsideCreateReactClass
             (MkNodePath (OtherNode "ObjectMethod") parentPath)
        then needsInference <$> params else [] in
      params' <- mapM (visitParam "ObjectMethod") params ;;
      ret (ObjectMethodDeclaration parentPath params', started)
  | FunctionExpression params =>
      params' <- mapM (visitParam "FunctionExpression") params ;;
      ret (FunctionExpression params', [])
  | TypeAlias id typeParameters right_ =>
      typeParameters' <-
        optM (migrateTypeParameterDeclaration filePath) typeParameters ;;
      ts <- migrateType filePath right_ ;;
      ret (TSTypeAliasDeclaration id typeParameters' ts, [])
  | _ => ret (d, [])
  end.

Definition withParams (d : Declaration) (params : list Param)
  : Declaration :=
  match d with
  | FunctionDeclaration _ => FunctionDeclaration params
  | ClassMethod _ => ClassMethod params
  | ObjectMethodDeclaration parentPath _ =>
      ObjectMethodDeclaration parentPath params
  | FunctionExpression _ => FunctionExpression params
  | _ => d
  end.

Definition paramsOf (d : Declaration) : list Param :=
  match d with
  | FunctionDeclaration params | ClassMethod params
  | ObjectMethodDeclaration _ params | FunctionExpression params => params
  | _ => []
  end.

(** The answers of Flow arrive after the traversal, in the order the
    queries were queued: each entry of [awaitPromises] settles. *)
Fixpoint settleDeclarations (visited : list (Declaration * list bool))
    (r : R) : File * list (result (list unit)) * R :=
  match visited with
  | [] => ([], [], r)
  | (d, started) :: visited' =>
      let '(params', outcomes, r1) :=
        settleParams parseTypeAlias executeFlowTypeAtPos filePath started
          (paramsOf d) r in
      let '(file', promises, r2) := settleDeclarations visited' r1 in
      (withParams d params' :: file', Promise_all outcomes :: promises, r2)
  end.

(** [migrateToTypeScript]: the traversal may throw; otherwise the
    returned promise [Promise.all(awaitPromises)] settles.  The file is
    given back when the promise is fulfilled. *)
Definition migrateToTypeScript (file : File) (r : R) : result File * R :=
  match mapM visitDeclaration file r with
  | (Throw e, r1) => (Throw e, r1)
  | (Ok visited, r1) =>
      let '(file', promises, r2) := settleDeclarations visited r1 in
      match Promise_all promises with
      | Ok _ => (Ok file', r2)
      | Throw e => (Throw e, r2)
      end
  end.
End MigrateToTypeScript.

(** ** One batch: [typescript/process_batch_async.ts] *)

(** What a worker process acts on: the files on disk, what [console.error]
    printed, and the reporter of the worker. *)
Record World : Type :=
  { disk : gmap string string;
    console_error : list Error;
    world_reporter : MigrationReporter }.

Section ProcessBatch.
Variable parseTypeAlias : string → result FlowType.
Variable executeFlowTypeAtPos : string → SourceLocation → result string.

(** [recast.parse] with the Flow parser, and [recast.print] followed by
    the two textual replacements on the printed code. *)
Variable recast_parse : string → result File.
Variable recast_print : File → string.

Definition readFile (w : World) (filePath : string) : result string :=
  match disk w !! filePath with
  | Some fileText => Ok fileText
  | None => Throw (MkError ("ENOENT: no such file or directory, open '" +:+
                            filePath +:+ "'"))
  end.

Definition logError (e : Error) (r : MigrationReporter) (w : World)
  : World :=
  {| disk := disk w; console_error := console_error w ++ [e];
     world_reporter := r |}.

(** The body of the callback of [filePaths.map]: everything happens inside
    [try]; the [catch] prints the error and the worker goes on. *)
Definition processFile (w : World) (filePath : string) : World :=
  match readFile w filePath with
  | Throw e => logError e (world_reporter w) w
  | Ok fileText =>
      match recast_parse fileText with
      | Throw e => logError e (world_reporter w) w
      | Ok file =>
          match migrateToTypeScript parseTypeAlias executeFlowTypeAtPos
                  filePath file (world_reporter w) with
          | (Throw e, r) => logError e r w
          | (Ok file', r) =>
              let tsFilePath :=
                replaceJsExtension filePath
                  (if existsb isJSXElement file then ".tsx" else ".ts") in
              {| disk := <[tsFilePath := recast_print file']> (disk w);
                 console_error := console_error w;
                 world_reporter := r |}
          end
      end
  end.

(** [processBatchAsync]: the promise is always fulfilled.  The files of a
    batch are taken one after the other. *)
Definition processBatchAsync (filePaths : list string) (w : World)
  : World :=
  foldl processFile w filePaths.
End ProcessBatch.

(** ** The primary process: [typescript/run.ts] *)

(** The size of a file batch that we send to a worker. *)
Definition BATCH : nat := 50.

(** [popBatch()]: the batch, if any, and the paths that remain. *)
Definition popBatch (flowFilePaths : list string)
  : option (list string) * list string :=
  match flowFilePaths with
  | [] => (None, [])
  | _ =>
      let batchSize := BATCH `min` length flowFilePaths in
      let remaining := (length flowFilePaths - batchSize)%nat in
      (Some (rev (drop remaining flowFilePaths)), take remaining flowFilePaths)
  end.

Inductive Message : Type :=
| next
| report (data : MigrationReport.t).

(** Where a spawned worker is in its life: it holds a batch and will answer
    [next]; it was asked for its report; it was killed. *)
Inductive WorkerStatus : Type :=
| AwaitingBatchResult (batch : list string)
| AwaitingReport
| Terminated.

Record WorkerSession : Type :=
  { status : WorkerStatus;
    timeoutArmed : bool }.

(** The variables of [runPrimaryAsync]; [finished] holds the merged report
    once [finish()] has run. *)
Record Primary : Type :=
  { workerCount : nat;
    flowFilePaths : list string;
    flowFilePathsCopy : list string;
    workers : list WorkerSession;
    reports : list MigrationReport.t;
    finished : option MigrationReport.t }.

(** [sendBatch(batch)] for worker [i]: the batch is sent and the timer
    is armed again. *)
Definition sendBatch (i : nat) (batch : list string)
    (workers : list WorkerSession) : list WorkerSession :=
  <[i := {| status := AwaitingBatchResult batch; timeoutArmed := true |}]>
    workers.

(** The loop [for (let i = 0; i < CPUS; i++)], with [n] turns left. *)
Fixpoint spawnWorkers (n : nat) (flowFilePaths : list string)
    (workers : list WorkerSession) : list string * list WorkerSession :=
  match n with
  | O => (flowFilePaths, workers)
  | Datatypes.S n' =>
      match popBatch flowFilePaths with
      | (None, _) => (flowFilePaths, workers)
      | (Some initialBatch, flowFilePaths') =>
          spawnWorkers n' flowFilePaths'
            (workers ++
               [{| status := AwaitingBatchResult initialBatch;
                   timeoutArmed := true |}])
      end
  end.

(** [runPrimaryAsync] up to the end of the loop; [shuffled] is the list of
    files after [shuffle]. *)
Definition runPrimaryAsync (CPUS : nat) (shuffled : list string) : Primary :=
  let '(remaining, spawned) := spawnWorkers CPUS shuffled [] in
  {| workerCount := CPUS;
     flowFilePaths := remaining;
     flowFilePathsCopy := shuffled;
     workers := spawned;
     reports := [];
     finished := None |}.

(** The listener [worker.on('message', ...)] of worker [i]. *)
Definition onMessage (i : nat) (message : Message) (p : Primary) : Primary :=
  match message with
  | next =>
      match popBatch (flowFilePaths p) with
      | (Some nextBatch, flowFilePaths') =>
          {| workerCount := workerCount p;
             flowFilePaths := flowFilePaths';
             flowFilePathsCopy := flowFilePathsCopy p;
             workers := sendBatch i nextBatch (workers p);
             reports := reports p;
             finished := finished p |}
      | (None, _) =>
          {| workerCount := workerCount p;
             flowFilePaths := flowFilePaths p;
             flowFilePathsCopy := flowFilePathsCopy p;
             workers :=
               <[i := {| status := AwaitingReport; timeoutArmed := false |}]>
                 (workers p);
             reports := reports p;
             finished := finished p |}
      end
  | report data =>
      let reports' := reports p ++ [data] in
      {| workerCount := workerCount p;
         flowFilePaths := flowFilePaths p;
         flowFilePathsCopy := flowFilePathsCopy p;
         workers :=
           <[i := {| status := Terminated; timeoutArmed := false |}]>
             (workers p);
         reports := reports';
         finished :=
           if decide (length reports' = workerCount p)
           then Some (mergeReports reports') else finished p |}
  end.

(** What the workers do ([runWorkerAsync]): a worker that holds a batch
    answers [next] once the batch is processed; a worker asked for its
    report answers with it. *)
Inductive step : Primary → Primary → Prop :=
| step_next (p : Primary) (i : nat) (w : WorkerSession) (batch : list string) :
    workers p !! i = Some w →
    status w = AwaitingBatchResult batch →
    step p (onMessage i next p)
| step_report (p : Primary) (i : nat) (w : WorkerSession)
    (data : MigrationReport.t) :
    workers p !! i = Some w →
    status w = AwaitingReport →
    step p (onMessage i (report data) p).

(** Every spawned worker has delivered its report. *)
Definition allReported (p : Primary) : Prop :=
  Forall (λ w, status w = Terminated) (workers p).

(** ** What the properties are stated with *)

(** The callback of the loop over the members of an object type: a spread
    gives its migrated argument in parentheses, any other member is
    migrated by [migrateObjectMember]. *)
Definition migrateFlowMember (filePath : string) (flowMember : ObjectTypeMember)
  : M MigrationReporter MigratedMember :=
  match flowMember with
  | ObjectTypeSpreadProperty argument _ =>
      ts <- migrateType filePath argument ;;
      ret (SpreadArgument (TSParenthesizedType ts))
  | _ =>
      tsMember <- migrateObjectMember filePath flowMember ;;
      ret (OwnMember tsMember)
  end.

(** The members of an object type, each with its start line, in the order
    the source concatenates them. *)
Definition flowMembersOf (properties : list ObjectTypeMember)
    (indexers callProperties internalSlots : option (list ObjectTypeMember))
  : list ObjectTypeMember :=
  properties ++ default [] indexers ++ default [] callProperties ++
  default [] internalSlots.

(** The errors that the type migration throws on a construct it does not
    support. *)
Inductive UnsupportedConstruct : Error → Prop :=
| Unsupported_AST_node (type : string) :
    UnsupportedConstruct
      (MkError ("Unsupported AST node: " +:+ JSON_stringify type))
| Unexpected_AST_node (type : string) :
    UnsupportedConstruct
      (MkError ("Unexpected AST node: " +:+ JSON_stringify type))
| Unrecognized_AST_node (type : string) :
    UnsupportedConstruct
      (MkError ("Unrecognized AST node: " +:+ JSON_stringify type))
| Unexpected_typeof_parameters :
    UnsupportedConstruct
      (MkError "Unexpected type parameters on `typeof` argument.")
| Unsupported_property_kind :
    UnsupportedConstruct
      (MkError "Unsupported object type property kind: undefined")
| Unexpected_proto :
    UnsupportedConstruct
      (MkError "Did not expect any Flow properties with `proto` set to true.")
| Unexpected_static :
    UnsupportedConstruct
      (MkError "Did not expect any Flow properties with `static` set to true.").

(** A rest element, if any, is the last parameter. *)
Fixpoint restIsLast (parameters : list TSParameter) : bool :=
  match parameters with
  | [] => true
  | TSRestElement _ _ :: l => bool_decide (l = [])
  | TSIdentifier _ _ _ :: l => restIsLast l
  end.

(** The structure that the type migration gives every type it returns:
    type arguments, when given, are not empty; every parameter of a
    function type or of a method is annotated, and a rest element comes
    last; an index signature has one parameter, an annotated identifier
    without an optional mark; a type operator is [keyof].  This is less than
    what TypeScript accepts, see [structurallyValid]: the order of the
    optional parameters, the key of an index signature and the number of
    members of a union are not looked at. *)
Fixpoint wellFormed (ts : TSType) : bool :=
  match ts with
  | TSArrayType elementType => wellFormed elementType
  | TSTypeReference _ (Some params) =>
      negb (bool_decide (params = [])) && forallb wellFormed params
  | TSFunctionType typeParameters parameters typeAnnotation =>
      match typeParameters with
      | Some l => forallb wellFormedTypeParameter l
      | None => true
      end &&
      forallb wellFormedParameter parameters && restIsLast parameters &&
      wellFormed typeAnnotation
  | TSTypeOperator operator typeAnnotation =>
      String.eqb operator "keyof" && wellFormed typeAnnotation
  | TSIndexedAccessType objectType indexType =>
      wellFormed objectType && wellFormed indexType
  | TSIntersectionType types => forallb wellFormed types
  | TSUnionType types => forallb wellFormed types
  | TSParenthesizedType typeAnnotation => wellFormed typeAnnotation
  | TSTypeLiteral members => forallb wellFormedElement members
  | TSTupleType elementTypes => forallb wellFormed elementTypes
  | _ => true
  end
with wellFormedTypeParameter (p : TSTypeParameter) : bool :=
  match p with
  | MkTSTypeParameter constraint default _ =>
      match constraint with Some ts => wellFormed ts | None => true end &&
      match default with Some ts => wellFormed ts | None => true end
  end
with wellFormedParameter (p : TSParameter) : bool :=
  match p with
  | TSIdentifier _ _ (Some ts) => wellFormed ts
  | TSIdentifier _ _ None => false
  | TSRestElement _ ts => wellFormed ts
  end
with wellFormedElement (e : TSTypeElement) : bool :=
  match e with
  | TSPropertySignature _ ts _ _ _ => wellFormed ts
  | TSMethodSignature _ typeParameters parameters ts _ _ =>
      match typeParameters with
      | Some l => forallb wellFormedTypeParameter l
      | None => true
      end &&
      forallb wellFormedParameter parameters && restIsLast parameters &&
      wellFormed ts
  | TSIndexSignature [TSIdentifier _ None (Some key)] value _ =>
      wellFormed key && wellFormed value
  | TSIndexSignature _ _ _ => false
  end.

(** A specification of a computation: whatever the state, a returned value
    satisfies [Q] and a thrown error satisfies [E]. *)
Definition post {S A} (m : M S A) (Q : A → Prop) (E : Error → Prop) : Prop :=
  ∀ s, match m s with
       | (Ok a, _) => Q a
       | (Throw e, _) => E e
       end.

(** What [migrateType] returns at the top: a well-formed type that is not
    the keyword [undefined]. *)
Definition good (ts : TSType) : Prop :=
  wellFormed ts = true ∧ ts ≠ TSUndefinedKeyword.

Definition goodMember (m : MigratedMember) : Prop :=
  match m with
  | SpreadArgument ts =>
      wellFormed ts = true ∧ ∃ ts', ts = TSParenthesizedType ts'
  | OwnMember e => wellFormedElement e = true
  end.

Definition goodPart (p : IntersectionPart) : Prop :=
  match p with
  | literal members => Forall (λ e, wellFormedElement e = true) members
  | reference ts => wellFormed ts = true ∧ ∃ ts', ts = TSParenthesizedType ts'
  end.

Definition isIdentifierParameter (p : TSParameter) : Prop :=
  match p with
  | TSIdentifier _ _ _ => True
  | TSRestElement _ _ => False
  end.

(** An object literal type that holds an index signature keyed by a type
    other than the keywords [string] and [number]. *)
Definition hasUnsupportedIndexSignature (ts : TSType) : bool :=
  match ts with
  | TSTypeLiteral members =>
      existsb (λ e,
                match e with
                | TSIndexSignature (TSIdentifier _ _ (Some key) :: _) _ _ =>
                    negb (isStringOrNumberKeyword key)
                | _ => false
                end) members
  | _ => false
  end.

(** [Object] or [Function], with type arguments or without. *)
Definition isObjectOrFunctionAnnotation (T : FlowType) : bool :=
  match T with
  | GenericTypeAnnotation (FIdentifier name) _ =>
      String.eqb name "Object" || String.eqb name "Function"
  | _ => false
  end.

(** The expression of the cast is itself a cast to [any], [Object] or
    [Function]. *)
Definition isNestedUnsoundCast (expression : Expression) : bool :=
  match expression with
  | TypeCastExpression _ inner =>
      isAnyTypeAnnotation inner || isObjectOrFunctionAnnotation inner
  | _ => false
  end.

(** The cast is the value of an object property inside
    [createReactClass()]. *)
Definition isCreateReactClassProperty (parentPath : option NodePath)
    (cast : Expression) : bool :=
  match parentPath with
  | Some p => String.eqb (Node_type (path_node p)) "ObjectProperty"
  | None => false
  end &&
  isInsideCreateReactClass (MkNodePath (ExpressionNode cast) parentPath).

(** A parameter made required: the optional mark goes and [undefined]
    joins its type. *)
Definition requireParam (param : Param) : Param :=
  match param with
  | Pattern node => Pattern (makeRequired node)
  | AssignmentPattern left_ right_ a =>
      AssignmentPattern (makeRequired left_) right_ a
  end.

(** The loop of [FunctionDeclaration.exit] read from the left: the flag
    [optional] after the parameters of the list, and what they become. *)
Fixpoint exitFrom (params : list Param) : bool * list Param :=
  match params with
  | [] => (true, [])
  | param :: params' =>
      let '(optional, done) := exitFrom params' in
      let '(optional', param') := exitParam optional param in
      (optional', param' :: done)
  end.

(** An identifier that carries the optional mark. *)
Definition isMarkedOptional (param : Param) : bool :=
  match param with
  | Pattern node => isIdentifier node && isOptional node
  | AssignmentPattern left_ _ _ => isIdentifier left_ && isOptional left_
  end.

(** The place of a parameter that Flow is asked about. *)
Definition inferredAt (param : Param) : option SourceLocation :=
  match param with
  | Pattern node => Some (node_loc node)
  | AssignmentPattern _ _ _ => None
  end.

(** The number of batches a list of [n] files is cut into. *)
Definition batchCount (n : nat) : nat := (n + (BATCH - 1)) `div` BATCH.

Definition isTerminated (w : WorkerSession) : bool :=
  match status w with
  | Terminated => true
  | _ => false
  end.

(** The runs of the primary process and its workers. *)
Definition reachable (p0 p : Primary) : Prop := rtc step p0 p.

(** The number of workers that were killed. *)
Fixpoint countTerminated (ws : list WorkerSession) : nat :=
  match ws with
  | [] => 0
  | w :: ws' => (if isTerminated w then 1 else 0) + countTerminated ws'
  end.

(** The parameters of a declaration for which
    [annotateParamsWithFlowTypeAtPos] is called: those of a function
    declaration, of a class method, and of an object method inside
    [createReactClass()]. *)
Definition queriedParams (d : Declaration) : option (list Param) :=
  match d with
  | FunctionDeclaration params => Some params
  | ClassMethod params => Some params
  | ObjectMethodDeclaration parentPath params =>
      if isInsideCreateReactClass
           (MkNodePath (OtherNode "ObjectMethod") parentPath)
      then Some params else None
  | _ => None
  end.

Definition isRejected {A} (outcome : result A) : bool :=
  match outcome with
  | Throw _ => true
  | Ok _ => false
  end.

(** ** The rest of [typescript/run.ts] and [modules/run.ts] *)

(** The three assignments [x = a[i]; a[i] = a[j]; a[j] = x] of [shuffle].
    Both indices are in range where the loop makes them: [0 ≤ j ≤ i] and
    [i < a.length]. *)
Definition swap {T} (a : list T) (i j : nat) : list T :=
  match a !! i, a !! j with
  | Some x, Some y => <[j := x]> (<[i := y]> a)
  | _, _ => a
  end.

(** The loop [for (i = ...; i > 0; i--)] of [shuffle], from index [i] down.
    [random i] is the value that [Math.floor(Math.random() * (i + 1))] takes
    in the turn of index [i]. *)
Fixpoint shuffleFrom {T} (random : nat → nat) (i : nat) (a : list T)
  : list T :=
  match i with
  | O => a
  | Datatypes.S i' => shuffleFrom random i' (swap a i (random i))
  end.

(** Randomize the order of an array. *)
Definition shuffle {T} (random : nat → nat) (a : list T) : list T :=
  shuffleFrom random (length a - 1) a.

(** The files of the batch a worker holds. *)
Definition heldBatch (w : WorkerSession) : list string :=
  match status w with
  | AwaitingBatchResult batch => batch
  | _ => []
  end.

(** The files of the batches that are with the workers. *)
Definition heldFiles (ws : list WorkerSession) : list string :=
  concat (heldBatch <$> ws).

(** What holds of every worker session: a worker that holds a batch holds
    between one and [BATCH] files and its timer is armed; the timer of any
    other worker is cleared. *)
Definition sessionInvariant (w : WorkerSession) : Prop :=
  match status w with
  | AwaitingBatchResult batch =>
      (0 < length batch ≤ BATCH)%nat ∧ timeoutArmed w = true
  | _ => timeoutArmed w = false
  end.

(** [filePath.startsWith(prefix)] *)
Fixpoint startsWith (s prefix : string) : bool :=
  match prefix, s with
  | EmptyString, _ => true
  | String c prefix', String c' s' => Ascii.eqb c c' && startsWith s' prefix'
  | String _ _, EmptyString => false
  end.

(** The beginning of [runPrimaryAsync] in [modules/run.ts]: the files in
    ignored directories are removed and the list is reversed. *)
Definition Modules_jsFilePaths (IGNORED_DIRS : list string)
    (allJsFilePaths : list string) : list string :=
  rev (filter (λ filePath,
                 forallb (λ ignoredDir,
                            negb (startsWith filePath (ignoredDir +:+ "/")))
                   IGNORED_DIRS = true)
         allJsFilePaths).

(** ** Finding the files: [modules/find_js_files_async.ts] *)

(** [s.split('\n')]: the pieces between the line feeds, at least one. *)
Fixpoint splitLines (s : string) : list string :=
  match s with
  | EmptyString => [EmptyString]
  | String c rest =>
      if Ascii.eqb c newline then EmptyString :: splitLines rest
      else
        match splitLines rest with
        | [] => [String c EmptyString]
        | piece :: pieces => String c piece :: pieces
        end
  end.

Section FindJsFiles.
(** [path.join] of Node.js. *)
Variable path_join : string → string → string.
Variable rootDirectory : string.

(** [chunkLineBuffer] and [filePaths]. *)
Record FindState : Type :=
  { chunkLineBuffer : string;
    filePaths : list string }.

(** One turn of the loop of the listener of ['data'] on the line
    [chunkLines[i]], [first] telling whether [i === 0]. *)
Definition addChunkLine (first : bool) (st : FindState) (line : string)
  : FindState :=
  let chunkLine := if first then chunkLineBuffer st +:+ line else line in
  {| chunkLineBuffer :=
       if first then EmptyString else chunkLineBuffer st;
     filePaths :=
       if endsWith chunkLine ".js"
       then filePaths st ++ [path_join rootDirectory chunkLine]
       else filePaths st |}.

(** The loop over all the lines of the chunk except for the last one. *)
Fixpoint addChunkLines (first : bool) (st : FindState)
    (chunkLines : list string) : FindState :=
  match chunkLines with
  | [] | [_] => st
  | line :: rest => addChunkLines false (addChunkLine first st line) rest
  end.

(** The listener of ['data'] on a chunk, given as the string
    [chunk.toString('utf8')]. *)
Definition onData (st : FindState) (chunk : string) : FindState :=
  let chunkLines := splitLines chunk in
  let st' := addChunkLines true st chunkLines in
  {| chunkLineBuffer := default EmptyString (last chunkLines);
     filePaths := filePaths st' |}.

(** The listener of ['end']. *)
Definition onEnd (st : FindState) : result (list string) :=
  if String.eqb (chunkLineBuffer st) EmptyString then Ok (filePaths st)
  else Throw (MkError ("Expected stdout to end with a new line, not: " +:+
                       dquote +:+ chunkLineBuffer st +:+ dquote)).

(** [findJsFilesAsync(rootDirectory)] when [git ls-files] writes the given
    chunks: what the promise settles to. *)
Definition findJsFilesAsync (chunks : list string) : result (list string) :=
  onEnd (foldl onData {| chunkLineBuffer := EmptyString; filePaths := [] |}
           chunks).
End FindJsFiles.

(** [chunk.includes('\n')] *)
Fixpoint hasLineFeed (chunk : string) : bool :=
  match chunk with
  | EmptyString => false
  | String c rest => Ascii.eqb c newline || hasLineFeed rest
  end.

(** ** Side effects before imports: [modules/migrate_to_es_modules.ts] *)

Inductive ImportKind : Type := import_type | import_typeof | import_value.

(** The statements of a program that [statementHasSideEffects] tells
    apart; a variable declaration is given by the [init] of each of its
    declarators. *)
Inductive Statement : Type :=
| ImportDeclaration (importKind : option ImportKind)
    (loc : option SourceLocation)
| ExpressionStatement (expression : Expression)
| VariableDeclaration (declarations : list (option Expression))
| OtherStatementKind (type : string).

(** Conservative check for whether an expression has any side-effects that
    should be executed before an import. *)
Fixpoint expressionHasSideEffects (expression : Expression) : bool :=
  if isLiteral expression then false
  else
    match expression with
    | Identifier _ => false
    | MemberExpression object property =>
        expressionHasSideEffects object || expressionHasSideEffects property
    | _ => true
    end.

(** Conservative check for whether a statement has any side-effects that
    should be executed before an import. *)
Definition statementHasSideEffects (statement : Statement) : bool :=
  match statement with
  | ImportDeclaration _ _ => false
  | ExpressionStatement expression => expressionHasSideEffects expression
  | VariableDeclaration declarations =>
      existsb (λ init,
                 match init with
                 | Some e => expressionHasSideEffects e
                 | None => false
                 end) declarations
  | OtherStatementKind _ => true
  end.

(** [statement.type === 'ImportDeclaration' &&
     (!statement.importKind || statement.importKind === 'value')] *)
Definition isValueImport (statement : Statement) : bool :=
  match statement with
  | ImportDeclaration None _ | ImportDeclaration (Some import_value) _ => true
  | _ => false
  end.

Definition statementLoc (statement : Statement) : option SourceLocation :=
  match statement with
  | ImportDeclaration _ loc => loc
  | _ => None
  end.

(** [importAfterSideEffects(filePath, loc)] of the reporter. *)
Definition Modules_importAfterSideEffects (filePath : string)
    (l : SourceLocation) (this : Modules.MigrationReporter)
  : Modules.MigrationReporter :=
  {| Modules._skippedLargeFiles := Modules._skippedLargeFiles this;
     Modules._requireNotCalled := Modules._requireNotCalled this;
     Modules._requireOtherThanString := Modules._requireOtherThanString this;
     Modules._cannotFindModule := Modules._cannotFindModule this;
     Modules._moduleNotExports := Modules._moduleNotExports this;
     Modules._requireWasDestructed := Modules._requireWasDestructed this;
     Modules._unableToLoadExternalModule :=
       Modules._unableToLoadExternalModule this;
     Modules._importAfterSideEffects :=
       Modules._importAfterSideEffects this ++ [mkLocation filePath l] |}.

(** The loop of [doesProgramHaveSideEffectsBeforeImports] from a statement
    on, [importZone] being the flag: the location reported, if any. *)
Fixpoint findImportAfterSideEffects (importZone : bool)
    (body : list Statement) : option SourceLocation :=
  match body with
  | [] => None
  | statement :: rest =>
      match (if isValueImport statement && negb importZone
             then statementLoc statement else None) with
      | Some l => Some l
      | None =>
          findImportAfterSideEffects
            (if statementHasSideEffects statement then false else importZone)
            rest
      end
  end.

(** Checks to see if the program does some side effects before imports
    that the imported module might depend on. *)
Definition doesProgramHaveSideEffectsBeforeImports (filePath : string)
    (body : list Statement) (this : Modules.MigrationReporter)
  : Modules.MigrationReporter :=
  match findImportAfterSideEffects true body with
  | Some l => Modules_importAfterSideEffects filePath l this
  | None => this
  end.

(** ** The reporter of the ES-modules migration, when it is created *)

Definition Modules_newMigrationReporter : Modules.MigrationReporter :=
  {| Modules._skippedLargeFiles := [];
     Modules._requireNotCalled := [];
     Modules._requireOtherThanString := [];
     Modules._cannotFindModule := [];
     Modules._moduleNotExports := [];
     Modules._requireWasDestructed := [];
     Modules._unableToLoadExternalModule := [];
     Modules._importAfterSideEffects := [] |}.

(** How many times [k] occurs in a list of module paths. *)
Definition occurrences (k : string) (modulePaths : list string) : N :=
  N.of_nat (length (filter (λ m, m = k) modulePaths)).

(** ** Findings are kept *)

(** The findings of [r] are those of [r'] that were recorded first: each
    array of [r'] starts with the array of [r]. *)
Definition extends (r r' : MigrationReporter) : Prop :=
  _typeParameterWithVariance r `prefix_of` _typeParameterWithVariance r' ∧
  _objectPropertyWithInternalName r `prefix_of`
    _objectPropertyWithInternalName r' ∧
  _objectPropertyWithMinusVariance r `prefix_of`
    _objectPropertyWithMinusVariance r' ∧
  _unsupportedTypeCast r `prefix_of` _unsupportedTypeCast r'.

(** A computation that only adds findings, whether it returns or
    throws. *)
Definition keepsFindings {A} (m : M MigrationReporter A) : Prop :=
  ∀ r, extends r (m r).2.

(** ** The parameters of a function, seen from outside *)

(** The identifier that [FunctionDeclaration.exit] works on. *)
Definition paramIdentifier (param : Param) : LVal :=
  match param with
  | Pattern node => node
  | AssignmentPattern left_ _ _ => left_
  end.

Definition paramDefault (param : Param) : option Expression :=
  match param with
  | Pattern _ => None
  | AssignmentPattern _ right_ _ => Some right_
  end.

(** The assignment [param.left.optional = false] that the loop of
    [FunctionDeclaration.exit] makes on a parameter with a default whose
    left side is an identifier marked optional. *)
Definition clearOptionalOfDefault (param : Param) : Param :=
  match param with
  | AssignmentPattern left_ right_ a =>
      if isIdentifier left_ && isOptional left_
      then AssignmentPattern (setOptional (Some false) left_) right_ a
      else param
  | Pattern _ => param
  end.

(** ** The runs of the queue of [flow_type_at_pos.ts] *)

(** What happens to the queue: [flowTypeAtPos] is called, or the call of
    [executeFlowTypeAtPos] that is under way settles. *)
Inductive QueueEvent : Type :=
| Asked (entry : QueueEntry)
| Answered.

Section QueueRuns.
Variable executeFlowTypeAtPos : string → SourceLocation → result string.

Definition queueStep (q : QueueState) (event : QueueEvent) : QueueState :=
  match event with
  | Asked entry => enqueue entry q
  | Answered => complete executeFlowTypeAtPos q
  end.

Definition runQueue (events : list QueueEvent) : QueueState :=
  foldl queueStep emptyQueue events.

(** What the promise of an entry is settled with. *)
Definition outcomeOf (entry : QueueEntry) : nat * result string :=
  (entry_id entry,
   executeFlowTypeAtPos (entry_filePath entry) (entry_location entry)).
End QueueRuns.

(** The entries of the calls, in the order of the calls. *)
Definition askedEntries (events : list QueueEvent) : list QueueEntry :=
  omap (λ event, match event with
                 | Asked entry => Some entry
                 | Answered => None
                 end) events.

(** The entries that are not settled yet: the one under way, then those
    that wait. *)
Definition pendingEntries (q : QueueState) : list QueueEntry :=
  option_list (inFlight q) ++ flowTypeAtPosQueue q.

(** ** Default imports: [modules/babel_interop_default_import.ts] *)

(** What [require(modulePath)] returns, as far as the test
    [m && m.__esModule ? m === m.default : true] reads it. *)
Record LoadedModule : Type :=
  { isTruthy : bool;
    __esModule : bool;
    isItsOwnDefault : bool }.

Section BabelInterop.
(** The names of the builtin modules, the overrides of
    [modules/allowlists.ts], [CWD] and [path.relative]. *)
Variable builtinModuleSet : gset string.
Variable babelInteropDefaultImportOverrides : gmap string bool.
Variable CWD : string.
Variable path_relative : string → string → string.

(** [_isBabelInteropDefaultImportTheSame]; [require] is the module loader
    at the time of the call, and [None] stands for [null]. *)
Definition _isBabelInteropDefaultImportTheSame
    (require : string → result LoadedModule) (modulePath : string)
  : option bool :=
  if decide (modulePath ∈ builtinModuleSet) then Some true
  else
    match babelInteropDefaultImportOverrides !!
            path_relative CWD modulePath with
    | Some override => Some override
    | None =>
        match require modulePath with
        | Ok m =>
            if isTruthy m && __esModule m then Some (isItsOwnDefault m)
            else Some true
        | Throw _ => None
        end
    end.

(** Tests to see if the Babel interop import of a module results in the
    same thing as a Common JS require of that module; [cache] is the map
    of the process, where a missing key reads as [undefined]. *)
Definition isBabelInteropDefaultImportTheSame
    (require : string → result LoadedModule) (modulePath : string)
    (cache : gmap string (option bool))
  : option bool * gmap string (option bool) :=
  match cache !! modulePath with
  | Some result => (result, cache)
  | None =>
      let result := _isBabelInteropDefaultImportTheSame require modulePath in
      (result, <[modulePath := result]> cache)
  end.
End BabelInterop.

(** ** Which casts ask for the utilities *)

(** None of the four direct strategies of the cast visitor applies. *)
Definition resolvedBySafeCast (expression : Expression) (T : FlowType)
  : bool :=
  negb (match expression with
        | TypeCastExpression _ innerAnnotation =>
            isUnsoundInnerAnnotation innerAnnotation
        | _ => false
        end) &&
  negb (isAnyTypeAnnotation T) && negb (isSelfLiteralCast expression T) &&
  negb (isComplexLiteral expression).

Definition isSpreadProperty (flowMember : ObjectTypeMember) : bool :=
  match flowMember with
  | ObjectTypeSpreadProperty _ _ => true
  | _ => false
  end.

(** ** The pieces of an object type *)

(** The members of an object type in the order the loop over them takes
    them: sorted by their start line. *)
Definition sortedFlowMembers (properties : list ObjectTypeMember)
    (indexers callProperties internalSlots : option (list ObjectTypeMember))
  : list ObjectTypeMember :=
  (sortByLine
     ((λ flowMember, (line (start (memberLoc flowMember)), flowMember)) <$>
      flowMembersOf properties indexers callProperties internalSlots)).*2.

(** The pieces that the loop over the members builds, given what the
    members migrate to. *)
Definition piecesOf (migrated : list MigratedMember)
  : list IntersectionPart :=
  foldl pushMigratedMember [] migrated.

(** The literal pieces that hold the members [own]: none when there is no
    member. *)
Definition literalOf (own : list TSTypeElement) : list IntersectionPart :=
  match own with
  | [] => []
  | _ => [literal own]
  end.

(** [h.ObjectMap<K, V>] *)
Definition ObjectMap (indexType valueType : TSType) : TSType :=
  TSTypeReference (TSQualifiedName (TSIdentifierName "h") "ObjectMap")
    (Some [indexType; valueType]).

(** ** Answers of Flow that give no type *)

(** An answer of [flow type-at-pos] that gives no type: ["(unknown)"], or
    100 characters or more. *)
Definition isUnusableAnswer (stdout : string) : Prop :=
  sanitize stdout = "(unknown)" ∨ (100 ≤ String.length (sanitize stdout))%nat.

(** The annotations that the traversal can leave on an identifier that had
    none: [any] in the function declarations of a test file, unioned with
    [undefined] when [FunctionDeclaration.exit] made the parameter
    required; none anywhere else. *)
Definition leftByTheTraversal (filePath : string) (d : Declaration)
  : list (option Annotation) :=
  match d with
  | FunctionDeclaration _ =>
      if isTestFile filePath
      then [Some (TSTypeAnnotation TSAnyKeyword);
            Some (TSTypeAnnotation
                    (TSUnionType [TSAnyKeyword; TSUndefinedKeyword]))]
      else [None]
  | _ => [None]
  end.

(** ** What TypeScript accepts *)

(** The optional mark of a parameter; a rest element has none. *)
Definition parameterOptional (p : TSParameter) : option bool :=
  match p with
  | TSIdentifier _ optional _ => optional
  | TSRestElement _ _ => None
  end.

Definition flowParamOptional (flowParam : FunctionTypeParam) : option bool :=
  match flowParam with
  | MkFunctionTypeParam _ optional _ => optional
  end.

Definition isOptionalParameter (p : TSParameter) : bool :=
  bool_decide (parameterOptional p = Some true).

Definition isRequiredParameter (p : TSParameter) : bool :=
  match p with
  | TSIdentifier _ optional _ => negb (bool_decide (optional = Some true))
  | TSRestElement _ _ => false
  end.

(** No optional parameter stands before a required one. *)
Fixpoint optionalsLast (parameters : list TSParameter) : bool :=
  match parameters with
  | [] => true
  | p :: l =>
      (negb (isOptionalParameter p) ||
       forallb (λ q, negb (isRequiredParameter q)) l) &&
      optionalsLast l
  end.

(** What TypeScript accepts as a type.  It is [wellFormed] and moreover:
    in a function type or a method no optional parameter stands before a
    required one; an index signature is keyed by [string] or [number]; a
    union or an intersection has a member. *)
Fixpoint structurallyValid (ts : TSType) : bool :=
  match ts with
  | TSArrayType elementType => structurallyValid elementType
  | TSTypeReference _ (Some params) =>
      negb (bool_decide (params = [])) && forallb structurallyValid params
  | TSFunctionType typeParameters parameters typeAnnotation =>
      match typeParameters with
      | Some l => forallb structurallyValidTypeParameter l
      | None => true
      end &&
      forallb structurallyValidParameter parameters &&
      restIsLast parameters && optionalsLast parameters &&
      structurallyValid typeAnnotation
  | TSTypeOperator operator typeAnnotation =>
      String.eqb operator "keyof" && structurallyValid typeAnnotation
  | TSIndexedAccessType objectType indexType =>
      structurallyValid objectType && structurallyValid indexType
  | TSIntersectionType types =>
      negb (bool_decide (types = [])) && forallb structurallyValid types
  | TSUnionType types =>
      negb (bool_decide (types = [])) && forallb structurallyValid types
  | TSParenthesizedType typeAnnotation => structurallyValid typeAnnotation
  | TSTypeLiteral members => forallb structurallyValidElement members
  | TSTupleType elementTypes => forallb structurallyValid elementTypes
  | _ => true
  end
with structurallyValidTypeParameter (p : TSTypeParameter) : bool :=
  match p with
  | MkTSTypeParameter constraint default _ =>
      match constraint with
      | Some ts => structurallyValid ts
      | None => true
      end &&
      match default with
      | Some ts => structurallyValid ts
      | None => true
      end
  end
with structurallyValidParameter (p : TSParameter) : bool :=
  match p with
  | TSIdentifier _ _ (Some ts) => structurallyValid ts
  | TSIdentifier _ _ None => false
  | TSRestElement _ ts => structurallyValid ts
  end
with structurallyValidElement (e : TSTypeElement) : bool :=
  match e with
  | TSPropertySignature _ ts _ _ _ => structurallyValid ts
  | TSMethodSignature _ typeParameters parameters ts _ _ =>
      match typeParameters with
      | Some l => forallb structurallyValidTypeParameter l
      | None => true
      end &&
      forallb structurallyValidParameter parameters &&
      restIsLast parameters && optionalsLast parameters &&
      structurallyValid ts
  | TSIndexSignature [TSIdentifier _ None (Some key)] value _ =>
      isStringOrNumberKeyword key && structurallyValid value
  | TSIndexSignature _ _ _ => false
  end.

(** * Properties *)

(** ** Strings *)

Lemma String_eqb_spec (a b : string) : String.eqb a b = true ↔ a = b.
Proof. apply String.eqb_eq. Qed.

Lemma append_cons (c : ascii) (a b : string) :
  String c a +:+ b = String c (a +:+ b).
Proof. reflexivity. Qed.

Lemma append_nil (b : string) : EmptyString +:+ b = b.
Proof. reflexivity. Qed.

Lemma append_length (a b : string) :
  String.length (a +:+ b) = (String.length a + String.length b)%nat.
Proof.
  induction a as [|c a IH]; [done|].
  rewrite append_cons. simpl. by rewrite IH.
Qed.

Lemma endsWith_append (p q : string) : endsWith (p +:+ q) q = true.
Proof.
  induction p as [|c p IH].
  - rewrite append_nil. destruct q; cbn [endsWith]; by rewrite String.eqb_refl.
  - rewrite append_cons. cbn [endsWith]. rewrite IH. apply orb_true_r.
Qed.

Lemma endsWith_inv (s q : string) :
  endsWith s q = true → ∃ p, s = p +:+ q.
Proof.
  induction s as [|c s IH]; cbn [endsWith].
  - rewrite orb_false_r. intros H%String.eqb_eq. by exists EmptyString.
  - intros [H%String.eqb_eq | H]%orb_true_iff.
    + by exists EmptyString.
    + destruct (IH H) as [p ->]. by exists (String c p).
Qed.

(** The first line and the rest make up the output; the first line holds no
    line feed, and the rest is empty or begins with one. *)
Lemma firstLine_split (stdout : string) :
  ∃ rest, stdout = firstLine stdout +:+ rest ∧
          (rest = EmptyString ∨ ∃ rest', rest = String newline rest').
Proof.
  induction stdout as [|c s IH]; simpl.
  - exists EmptyString. auto.
  - destruct (Ascii.eqb c newline) eqn:E.
    + apply Ascii.eqb_eq in E as ->. exists (String newline s).
      rewrite append_nil. eauto.
    + destruct IH as (rest & Hs & Hrest). exists rest.
      split; [rewrite append_cons; by f_equal | done].
Qed.

Lemma firstLine_no_newline (stdout : string) (n : nat) :
  String.get n (firstLine stdout) ≠ Some newline.
Proof.
  revert n. induction stdout as [|c s IH]; intros n; simpl; [done|].
  destruct (Ascii.eqb c newline) eqn:E; simpl; [done|].
  destruct n; [|apply IH].
  intros [= ->]. by rewrite Ascii.eqb_refl in E.
Qed.

Lemma firstLine_single_line (s : string) :
  (∀ n, String.get n s ≠ Some newline) → firstLine s = s.
Proof.
  induction s as [|c s IH]; intros H; simpl; [done|].
  destruct (Ascii.eqb c newline) eqn:E.
  - apply Ascii.eqb_eq in E as ->. by specialize (H 0%nat).
  - f_equal. apply IH. intros n. apply (H (Datatypes.S n)).
Qed.

Lemma removeQualifier_unfold (s : string) :
  removeQualifier s =
  if String.eqb s " (implicit)" || String.eqb s " (explicit)" then EmptyString
  else match s with
       | EmptyString => EmptyString
       | String c rest => String c (removeQualifier rest)
       end.
Proof. by destruct s. Qed.

(** A qualifier at the end of the line is dropped. *)
Lemma removeQualifier_suffix (p q : string) :
  q = " (implicit)" ∨ q = " (explicit)" → removeQualifier (p +:+ q) = p.
Proof.
  intros Hq. induction p as [|c p IH].
  - destruct Hq as [-> | ->]; reflexivity.
  - rewrite removeQualifier_unfold.
    assert (String.length q = 11%nat) as Hlen by (by destruct Hq as [-> | ->]).
    assert (∀ q', String.length q' = 11%nat →
                  String.eqb (String c p +:+ q) q' = false) as Hne.
    { intros q' Hq'. apply String.eqb_neq. intros Heq.
      apply (f_equal String.length) in Heq.
      rewrite append_length in Heq. simpl in Heq. lia. }
    rewrite !Hne by done. rewrite append_cons. simpl. by rewrite IH.
Qed.

(** A line that ends with no qualifier is kept as it is. *)
Lemma removeQualifier_unqualified (s : string) :
  endsWith s " (implicit)" = false → endsWith s " (explicit)" = false →
  removeQualifier s = s.
Proof.
  induction s as [|c s IH]; [done|].
  intros H1 H2. rewrite removeQualifier_unfold.
  cbn [endsWith] in H1, H2.
  apply orb_false_iff in H1 as [-> H1], H2 as [-> H2].
  simpl. by rewrite IH.
Qed.

Section FlowTypeAtPosProperties.
Variable parseTypeAlias : string → result FlowType.

(** C2. Of the raw answer only the first line is taken and a trailing
    qualifier [(implicit)] or [(explicit)] is dropped; the answer
    ["(unknown)"] and any answer of 100 characters or more resolve to
    none; any other answer, of 99 characters or fewer, is parsed as a
    type and what the parser gives is returned. *)
Theorem processFlowTypeAtPosStdout_guard (stdout : string) :
  let flowTypeString := sanitize stdout in
  (∃ rest, stdout = firstLine stdout +:+ rest ∧
           (rest = EmptyString ∨ ∃ rest', rest = String newline rest')) ∧
  (∀ n, String.get n (firstLine stdout) ≠ Some newline) ∧
  (∀ p q, firstLine stdout = p +:+ q →
          q = " (implicit)" ∨ q = " (explicit)" → flowTypeString = p) ∧
  (endsWith (firstLine stdout) " (implicit)" = false →
   endsWith (firstLine stdout) " (explicit)" = false →
   flowTypeString = firstLine stdout) ∧
  (flowTypeString = "(unknown)" →
   processFlowTypeAtPosStdout parseTypeAlias stdout = Ok None) ∧
  (100 ≤ String.length flowTypeString →
   processFlowTypeAtPosStdout parseTypeAlias stdout = Ok None) ∧
  (flowTypeString ≠ "(unknown)" → String.length flowTypeString ≤ 99 →
   processFlowTypeAtPosStdout parseTypeAlias stdout =
   match parseTypeAlias ("type T = " +:+ flowTypeString) with
   | Ok flowType => Ok (Some flowType)
   | Throw e => Throw e
   end).
Proof.
  intros flowTypeString. unfold processFlowTypeAtPosStdout.
  fold flowTypeString.
  split; [apply firstLine_split|].
  split; [apply firstLine_no_newline|].
  split.
  { intros p q Hline Hq. unfold flowTypeString, sanitize.
    rewrite Hline. by apply removeQualifier_suffix. }
  split; [apply removeQualifier_unqualified|].
  split; [intros ->; reflexivity|].
  split.
  - intros Hlen. destruct (String.eqb flowTypeString "(unknown)"); [done|].
    by apply Nat.leb_le in Hlen as ->.
  - intros Hne Hlen. apply String.eqb_neq in Hne as ->.
    assert ((100 <=? String.length flowTypeString)%nat = false) as ->
      by (apply Nat.leb_gt; lia).
    done.
Qed.
End FlowTypeAtPosProperties.

(** An answer that resolves to none, twice, and one that is parsed. *)
Lemma processFlowTypeAtPosStdout_guard_witness :
  let parse := λ _ : string, Ok NumberTypeAnnotation in
  processFlowTypeAtPosStdout parse
    ("(unknown) (implicit)" +:+ String newline "See the documentation") =
    Ok None ∧
  processFlowTypeAtPosStdout parse
    "aaaaaaaaaaaaaaaaaaaaaaaaaaaaaaaaaaaaaaaaaaaaaaaaaaaaaaaaaaaaaaaaaaaaaaaaaaaaaaaaaaaaaaaaaaaaaaaaaaaa" = Ok None ∧
  processFlowTypeAtPosStdout parse
    "aaaaaaaaaaaaaaaaaaaaaaaaaaaaaaaaaaaaaaaaaaaaaaaaaaaaaaaaaaaaaaaaaaaaaaaaaaaaaaaaaaaaaaaaaaaaaaaaaaa" = Ok (Some NumberTypeAnnotation).
Proof.
  intros parse. split; [|split].
  - destruct (processFlowTypeAtPosStdout_guard parse
                ("(unknown) (implicit)" +:+
                 String newline "See the documentation"))
      as (_ & _ & _ & _ & H & _).
    apply H. reflexivity.
  - apply (processFlowTypeAtPosStdout_guard parse
             "aaaaaaaaaaaaaaaaaaaaaaaaaaaaaaaaaaaaaaaaaaaaaaaaaaaaaaaaaaaaaaaaaaaaaaaaaaaaaaaaaaaaaaaaaaaaaaaaaaaa").
    vm_compute. lia.
  - destruct (processFlowTypeAtPosStdout_guard parse
                "aaaaaaaaaaaaaaaaaaaaaaaaaaaaaaaaaaaaaaaaaaaaaaaaaaaaaaaaaaaaaaaaaaaaaaaaaaaaaaaaaaaaaaaaaaaaaaaaaaa")
      as (_ & _ & _ & _ & _ & _ & H).
    apply H; [discriminate | vm_compute; lia].
Defined.

(** ** Merging reports *)

Lemma foldl_snoc_app {T} (a l : list T) :
  foldl (λ a x, a ++ [x]) a l = a ++ l.
Proof.
  revert a. induction l as [|x l IH]; intros a; simpl.
  - by rewrite app_nil_r.
  - rewrite IH. by rewrite <- app_assoc.
Qed.

Lemma mergeArrays_foldl {Report T} (k : Report → list T) (os : list Report)
    (a : list T) :
  foldl (λ a o, foldl (λ a x, a ++ [x]) a (k o)) a os = a ++ (os ≫= k).
Proof.
  revert a. induction os as [|o os IH]; intros a; simpl.
  - by rewrite app_nil_r.
  - rewrite IH, foldl_snoc_app. by rewrite <- app_assoc.
Qed.

(** [mergeArrays] concatenates. *)
Lemma mergeArrays_bind {Report T} (k : Report → list T) (os : list Report) :
  mergeArrays k os = os ≫= k.
Proof. unfold mergeArrays. by rewrite mergeArrays_foldl. Qed.

Lemma mergeArrays_Permutation {Report T} (k : Report → list T)
    (os os' : list Report) :
  os ≡ₚ os' → mergeArrays k os ≡ₚ mergeArrays k os'.
Proof. intros H. rewrite !mergeArrays_bind. by rewrite H. Qed.

Lemma mergeArrays_cons {Report T} (k : Report → list T) (o : Report)
    (os : list Report) :
  mergeArrays k (o :: os) = k o ++ mergeArrays k os.
Proof. by rewrite !mergeArrays_bind. Qed.

Lemma mergeArrays_app {Report T} (k : Report → list T)
    (os os' : list Report) :
  mergeArrays k (os ++ os') = mergeArrays k os ++ mergeArrays k os'.
Proof. rewrite !mergeArrays_bind. apply bind_app. Qed.

(** *** The destructure counts as a map *)

Lemma countsAsMap_lookup (counts : list Modules.DestructedCount) (k : string) :
  Modules.countsAsMap counts !! k = Modules.keyTotal k counts.
Proof.
  induction counts as [|c counts IH]; simpl; [done|].
  rewrite lookup_insert. case_decide as Hk.
  - subst k. by rewrite IH.
  - done.
Qed.

Lemma keyTotal_app (k : string) (l1 l2 : list Modules.DestructedCount) :
  Modules.keyTotal k (l1 ++ l2) = Modules.optadd (Modules.keyTotal k l1) (Modules.keyTotal k l2).
Proof.
  induction l1 as [|c l1 IH]; simpl.
  - by destruct (Modules.keyTotal k l2).
  - case_decide; [|done]. rewrite IH.
    destruct (Modules.keyTotal k l1), (Modules.keyTotal k l2); simpl; f_equal; lia.
Qed.

Lemma keyTotal_Permutation (k : string)
    (l1 l2 : list Modules.DestructedCount) :
  l1 ≡ₚ l2 → Modules.keyTotal k l1 = Modules.keyTotal k l2.
Proof.
  induction 1 as [|c l1 l2 _ IH|c1 c2 l|l1 l2 l3 _ IH1 _ IH2]; simpl.
  - done.
  - by rewrite IH.
  - repeat case_decide; try done. f_equal. simpl. lia.
  - by rewrite IH1.
Qed.

Lemma Map_get_set (m : Modules.JsMap) (k k' : string) (v : N) :
  Modules.Map_get (Modules.Map_set m k v) k' =
  if decide (k = k') then Some v else Modules.Map_get m k'.
Proof.
  induction m as [|e m IH]; simpl.
  - repeat case_decide; naive_solver.
  - destruct (decide (e.1 = k)) as [He|He]; simpl.
    + repeat case_decide; naive_solver.
    + rewrite IH. repeat case_decide; naive_solver.
Qed.

Lemma Map_set_keys (m : Modules.JsMap) (k : string) (v : N) :
  (Modules.Map_set m k v).*1 =
  if decide (k ∈ m.*1) then m.*1 else m.*1 ++ [k].
Proof.
  induction m as [|e m IH]; [done|].
  cbn [Modules.Map_set]. rewrite fmap_cons.
  destruct (decide (e.1 = k)) as [He|He].
  - rewrite decide_True by (subst; left). rewrite fmap_cons. by subst.
  - rewrite fmap_cons, IH. destruct (decide (k ∈ m.*1)) as [Hin|Hin].
    + by rewrite decide_True by (by right).
    + rewrite decide_False; [done|]. rewrite elem_of_cons. intros [?|?]; done.
Qed.

Lemma Map_set_NoDup (m : Modules.JsMap) (k : string) (v : N) :
  NoDup m.*1 → NoDup (Modules.Map_set m k v).*1.
Proof.
  intros Hm. rewrite Map_set_keys. case_decide; [done|].
  apply NoDup_app. split_and!; [done| |apply NoDup_singleton].
  intros x Hx ->%list_elem_of_singleton. done.
Qed.

Lemma Map_get_None (m : Modules.JsMap) (k : string) :
  k ∉ m.*1 → Modules.Map_get m k = None.
Proof.
  induction m as [|e m IH]; simpl; [done|].
  rewrite not_elem_of_cons. intros [Hne Hin].
  rewrite decide_False by done. by apply IH.
Qed.

(** A map with distinct keys, read back as counts, gives each key its
    value. *)
Lemma keyTotal_entries (m : Modules.JsMap) (k : string) :
  NoDup m.*1 → Modules.keyTotal k (Modules.entriesToCounts m) = Modules.Map_get m k.
Proof.
  induction m as [|e m IH]; simpl; [done|].
  rewrite NoDup_cons. intros [Hnotin Hm].
  case_decide as Hk.
  - subst k. rewrite IH, Map_get_None by done. simpl; f_equal; lia.
  - by apply IH.
Qed.

Lemma countStep_foldl_get (counts : list Modules.DestructedCount)
    (m : Modules.JsMap) (k : string) :
  Modules.Map_get (foldl Modules.countStep m counts) k =
  Modules.optadd (Modules.Map_get m k) (Modules.keyTotal k counts).
Proof.
  revert m. induction counts as [|c counts IH]; intros m; simpl.
  - destruct (Modules.Map_get m k); simpl; f_equal; lia.
  - rewrite IH. unfold Modules.countStep. rewrite Map_get_set.
    case_decide as Hk; [|done]. subst k.
    destruct (Modules.Map_get m _), (Modules.keyTotal _ counts);
      simpl; f_equal; lia.
Qed.

Lemma countStep_foldl_NoDup (counts : list Modules.DestructedCount)
    (m : Modules.JsMap) :
  NoDup m.*1 → NoDup (foldl Modules.countStep m counts).*1.
Proof.
  revert m. induction counts as [|c counts IH]; intros m Hm; simpl; [done|].
  apply IH. by apply Map_set_NoDup.
Qed.

Lemma mergeRequireWasDestructed_foldl (reports : list Modules.MigrationReport.t) :
  Modules.mergeRequireWasDestructed reports =
  foldl Modules.countStep [] (reports ≫= Modules.MigrationReport.requireWasDestructed).
Proof.
  unfold Modules.mergeRequireWasDestructed. generalize (@nil (string * N)).
  induction reports as [|r reports IH]; intros m; simpl; [done|].
  rewrite foldl_app. apply IH.
Qed.

(** The merged counts, read as a map, are the counts of all the reports
    read as a map. *)
Lemma mergeRequireWasDestructed_map (reports : list Modules.MigrationReport.t) :
  Modules.countsAsMap
    (Modules.entriesToCounts (Modules.mergeRequireWasDestructed reports)) =
  Modules.countsAsMap
    (reports ≫= Modules.MigrationReport.requireWasDestructed).
Proof.
  apply map_eq. intros k. rewrite !countsAsMap_lookup.
  rewrite mergeRequireWasDestructed_foldl.
  rewrite keyTotal_entries by (apply countStep_foldl_NoDup; constructor).
  rewrite countStep_foldl_get. simpl.
  destruct (Modules.keyTotal k _); simpl; f_equal; lia.
Qed.

Lemma countsAsMap_Permutation (l1 l2 : list Modules.DestructedCount) :
  l1 ≡ₚ l2 → Modules.countsAsMap l1 = Modules.countsAsMap l2.
Proof.
  intros H. apply map_eq. intros k. rewrite !countsAsMap_lookup.
  by apply keyTotal_Permutation.
Qed.

Lemma countsAsMap_app_proper (l1 l1' l2 l2' : list Modules.DestructedCount) :
  Modules.countsAsMap l1 = Modules.countsAsMap l1' →
  Modules.countsAsMap l2 = Modules.countsAsMap l2' →
  Modules.countsAsMap (l1 ++ l2) = Modules.countsAsMap (l1' ++ l2').
Proof.
  intros H1 H2. apply map_eq. intros k.
  rewrite !countsAsMap_lookup, !keyTotal_app, <- !countsAsMap_lookup.
  by rewrite H1, H2.
Qed.

(** *** The unloadable modules as a set *)

Lemma Set_add_set (s : Modules.JsSet) (x : string) :
  Modules.modulesAsSet (Modules.Set_add s x) =
  Modules.modulesAsSet s ∪ {[x]}.
Proof.
  unfold Modules.Set_add, Modules.modulesAsSet. case_decide as Hin.
  - apply (elem_of_list_to_set (C := gset string)) in Hin. set_solver.
  - apply list_to_set_snoc_L.
Qed.

Lemma Set_add_foldl_set (l : list string) (s : Modules.JsSet) :
  Modules.modulesAsSet (foldl Modules.Set_add s l) =
  Modules.modulesAsSet s ∪ Modules.modulesAsSet l.
Proof.
  revert s. induction l as [|x l IH]; intros s; simpl.
  - unfold Modules.modulesAsSet. set_solver.
  - rewrite IH, Set_add_set. unfold Modules.modulesAsSet. set_solver.
Qed.

Lemma mergeUnableToLoadExternalModule_set
    (reports : list Modules.MigrationReport.t) :
  Modules.modulesAsSet (Modules.mergeUnableToLoadExternalModule reports) =
  Modules.modulesAsSet
    (reports ≫= Modules.MigrationReport.unableToLoadExternalModule).
Proof.
  unfold Modules.mergeUnableToLoadExternalModule.
  assert (∀ s, Modules.modulesAsSet
                 (foldl (λ s report,
                          foldl Modules.Set_add s
                            (Modules.MigrationReport.unableToLoadExternalModule
                               report)) s reports) =
               Modules.modulesAsSet s ∪
               Modules.modulesAsSet
                 (reports ≫=
                    Modules.MigrationReport.unableToLoadExternalModule)) as H.
  { induction reports as [|r reports IH]; intros s; simpl.
    - unfold Modules.modulesAsSet. set_solver.
    - rewrite IH, Set_add_foldl_set. unfold Modules.modulesAsSet.
      rewrite list_to_set_app_L. set_solver. }
  rewrite H. unfold Modules.modulesAsSet. set_solver.
Qed.

Lemma modulesAsSet_Permutation (l1 l2 : list string) :
  l1 ≡ₚ l2 → Modules.modulesAsSet l1 = Modules.modulesAsSet l2.
Proof.
  intros H. unfold Modules.modulesAsSet. apply set_eq. intros x.
  rewrite !elem_of_list_to_set. by rewrite H.
Qed.

(** The set of module paths that a merged report lists is duplicate free,
    as the array made from a [Set] is. *)
Lemma mergeUnableToLoadExternalModule_NoDup
    (reports : list Modules.MigrationReport.t) :
  NoDup (Modules.mergeUnableToLoadExternalModule reports).
Proof.
  unfold Modules.mergeUnableToLoadExternalModule.
  assert (∀ l s, NoDup s → NoDup (foldl Modules.Set_add s l)) as Hadd.
  { induction l as [|x l IH]; intros s Hs; simpl; [done|].
    apply IH. unfold Modules.Set_add. case_decide; [done|].
    apply NoDup_app. split_and!; [done| |apply NoDup_singleton].
    by intros y Hy ->%list_elem_of_singleton. }
  generalize (NoDup_nil_2 (A := string)). generalize (@nil string).
  induction reports as [|r reports IH]; intros s Hs; simpl; [done|].
  apply IH. by apply Hadd.
Qed.

(** *** Order independence *)

Global Instance report_equiv_equivalence : Equivalence report_equiv.
Proof.
  split.
  - intros a. by repeat split.
  - intros a b (?&?&?&?). by repeat split.
  - intros a b c (?&?&?&?) (?&?&?&?). repeat split; by etrans.
Qed.

Global Instance Modules_report_equiv_equivalence :
  Equivalence Modules.report_equiv.
Proof.
  split.
  - intros a. by repeat split.
  - intros a b (?&?&?&?&?&?&?&?). by repeat split.
  - intros a b c (?&?&?&?&?&?&?&?) (?&?&?&?&?&?&?&?).
    repeat split; by etrans.
Qed.

Lemma mergeReports_Permutation (reports reports' : list MigrationReport.t) :
  reports ≡ₚ reports' →
  report_equiv (mergeReports reports) (mergeReports reports').
Proof. intros H. repeat split; simpl; by apply mergeArrays_Permutation. Qed.

(** Merging a merged report with others is merging all of them. *)
Lemma mergeReports_flatten (reports1 reports2 : list MigrationReport.t) :
  mergeReports (mergeReports reports1 :: reports2) =
  mergeReports (reports1 ++ reports2).
Proof.
  unfold mergeReports. f_equal; by rewrite mergeArrays_cons, mergeArrays_app.
Qed.

Lemma Modules_mergeReports_Permutation
    (reports reports' : list Modules.MigrationReport.t) :
  reports ≡ₚ reports' →
  Modules.report_equiv (Modules.mergeReports reports)
    (Modules.mergeReports reports').
Proof.
  intros H. unfold Modules.report_equiv. simpl.
  rewrite !mergeRequireWasDestructed_map.
  rewrite !mergeUnableToLoadExternalModule_set.
  split_and!; try by apply mergeArrays_Permutation.
  - apply countsAsMap_Permutation. by rewrite H.
  - apply modulesAsSet_Permutation. by rewrite H.
Qed.

Lemma Modules_mergeReports_flatten
    (reports1 reports2 : list Modules.MigrationReport.t) :
  Modules.report_equiv
    (Modules.mergeReports (Modules.mergeReports reports1 :: reports2))
    (Modules.mergeReports (reports1 ++ reports2)).
Proof.
  unfold Modules.report_equiv. simpl.
  rewrite !mergeArrays_cons, !mergeArrays_app. simpl.
  rewrite !mergeRequireWasDestructed_map.
  rewrite !mergeUnableToLoadExternalModule_set.
  split_and!; try done.
  - rewrite bind_cons, bind_app.
    apply countsAsMap_app_proper; [|done].
    apply mergeRequireWasDestructed_map.
  - rewrite bind_cons, bind_app. unfold Modules.modulesAsSet.
    rewrite !list_to_set_app_L. f_equal.
    apply mergeUnableToLoadExternalModule_set.
Qed.

(** C6. Merging reports is commutative and associative in every category
    under the semantics of the category: the concatenated categories as
    multisets, the destructure counts as a map from module path to the sum
    of its counts, the unloadable modules as a set.  The merge of two
    reports does not depend on their order, the merge of any list of
    reports does not depend on the order in which they arrived, and merging
    in two stages gives what merging at once gives. *)
Theorem mergeReports_order_independent :
  (∀ A B, report_equiv (mergeReports [A; B]) (mergeReports [B; A])) ∧
  (∀ reports reports', reports ≡ₚ reports' →
     report_equiv (mergeReports reports) (mergeReports reports')) ∧
  (∀ A B C,
     report_equiv (mergeReports [mergeReports [A; B]; C])
       (mergeReports [A; mergeReports [B; C]])) ∧
  (∀ A B,
     Modules.report_equiv (Modules.mergeReports [A; B])
       (Modules.mergeReports [B; A])) ∧
  (∀ reports reports', reports ≡ₚ reports' →
     Modules.report_equiv (Modules.mergeReports reports)
       (Modules.mergeReports reports')) ∧
  (∀ A B C,
     Modules.report_equiv
       (Modules.mergeReports [Modules.mergeReports [A; B]; C])
       (Modules.mergeReports [A; Modules.mergeReports [B; C]])).
Proof.
  split_and!.
  - intros A B. apply mergeReports_Permutation, Permutation_swap.
  - apply mergeReports_Permutation.
  - intros A B C. rewrite mergeReports_flatten.
    etrans; [|apply mergeReports_Permutation, Permutation_swap].
    rewrite mergeReports_flatten. apply mergeReports_Permutation. simpl.
    by rewrite (Permutation_app_comm [B; C] [A]).
  - intros A B. apply Modules_mergeReports_Permutation, Permutation_swap.
  - apply Modules_mergeReports_Permutation.
  - intros A B C. etrans; [apply Modules_mergeReports_flatten|].
    etrans; [|apply Modules_mergeReports_Permutation, Permutation_swap].
    etrans; [|symmetry; apply Modules_mergeReports_flatten].
    apply Modules_mergeReports_Permutation. simpl.
    by rewrite (Permutation_app_comm [B; C] [A]).
Qed.

(** An instance with two findings in one report and three in the other. *)
Lemma mergeReports_order_independent_witness :
  let here (l c : N) : Location :=
    {| filePath := "src/a.js";
       loc_start := {| line := l; column := c |};
       loc_end := {| line := l; column := (c + 1)%N |} |} in
  let A :=
    {| MigrationReport.typeParameterWithVariance := [here 1%N 2%N];
       MigrationReport.objectPropertyWithInternalName := [here 3%N 4%N];
       MigrationReport.objectPropertyWithMinusVariance := [];
       MigrationReport.unsupportedTypeCast := [] |} in
  let B :=
    {| MigrationReport.typeParameterWithVariance := [here 5%N 6%N; here 7%N 8%N];
       MigrationReport.objectPropertyWithInternalName := [];
       MigrationReport.objectPropertyWithMinusVariance := [here 9%N 0%N];
       MigrationReport.unsupportedTypeCast := [] |} in
  let C :=
    {| Modules.MigrationReport.skippedLargeFiles := ["big.js"];
       Modules.MigrationReport.requireNotCalled := [here 1%N 1%N];
       Modules.MigrationReport.requireOtherThanString := [];
       Modules.MigrationReport.cannotFindModule := [];
       Modules.MigrationReport.moduleNotExportAssignment := [];
       Modules.MigrationReport.requireWasDestructed :=
         [{| Modules.modulePath := "m"; Modules.count := 2%N |}];
       Modules.MigrationReport.unableToLoadExternalModule := ["x"; "y"];
       Modules.MigrationReport.importAfterSideEffects := [] |} in
  let D :=
    {| Modules.MigrationReport.skippedLargeFiles := [];
       Modules.MigrationReport.requireNotCalled := [];
       Modules.MigrationReport.requireOtherThanString := [];
       Modules.MigrationReport.cannotFindModule := [];
       Modules.MigrationReport.moduleNotExportAssignment := [];
       Modules.MigrationReport.requireWasDestructed :=
         [{| Modules.modulePath := "n"; Modules.count := 1%N |};
          {| Modules.modulePath := "m"; Modules.count := 3%N |}];
       Modules.MigrationReport.unableToLoadExternalModule := ["y"];
       Modules.MigrationReport.importAfterSideEffects := [] |} in
  ([A; B; A] ≡ₚ [B; A; A] ∧
   report_equiv (mergeReports [A; B; A]) (mergeReports [B; A; A])) ∧
  ([C; D; C] ≡ₚ [D; C; C] ∧
   Modules.report_equiv (Modules.mergeReports [C; D; C])
     (Modules.mergeReports [D; C; C])).
Proof.
  intros here A B C D.
  destruct mergeReports_order_independent as (_ & HT & _ & _ & HM & _).
  split; (split; [apply Permutation_swap|]).
  - apply HT, Permutation_swap.
  - apply HM, Permutation_swap.
Defined.

(** ** Rendering reports *)

Lemma bullet_inj (a b : string) : bullet a = bullet b → a = b.
Proof. unfold bullet. intros H. by simplify_eq. Qed.

Lemma logSection_elem (title : string) (entries : list string)
    (line : string) :
  line ∈ logSection title entries ↔
  entries ≠ [] ∧ (line = EmptyString ∨ line = title ∨ line ∈ entries).
Proof.
  unfold logSection. destruct entries as [|e entries].
  - rewrite elem_of_nil. naive_solver.
  - rewrite !elem_of_app, !elem_of_cons, elem_of_nil. naive_solver.
Qed.

Lemma filter_fmap_comm {A B} (f : A → B) (P : B → Prop)
    `{!∀ y, Decision (P y)} (l : list A) :
  filter P (f <$> l) = f <$> filter (λ x, P (f x)) l.
Proof.
  induction l as [|x l IH]; [done|].
  rewrite fmap_cons, !filter_cons. case_decide; [|done].
  by rewrite fmap_cons, IH.
Qed.

(** A block whose entries are bullets never prints the bullet of a string
    that the filter removed, whatever else the block prints. *)
Lemma filtered_block_omits (title : string) (allow : gset string)
    (rendered : list string) (s : string) :
  title ≠ bullet s → s ∈ allow →
  bullet s ∉
    logSection title (bullet <$> filter (λ s, s ∉ allow) rendered).
Proof.
  intros Htitle Hs. rewrite logSection_elem.
  intros (_ & [H | [H | H]]); [done | done |].
  apply list_elem_of_fmap in H as (s' & ->%bullet_inj & H).
  apply list_elem_of_filter in H as [H _]. done.
Qed.

(** A title is not a bullet line. *)
Ltac not_a_bullet :=
  let H := fresh in
  intros H; cbv [bullet String.append] in H; discriminate H.

Section LogReportProperties.
Variable CWD : string.
Variable path_relative : string → string → string.
Variable allowlist_typeParameterWithVariance : gset string.
Variable allowlist_requireNotCalled : gset string.
Variable allowlist_requireOtherThanString : gset string.
Variable allowlist_cannotFindModule : gset string.
Variable allowlist_moduleNotExportAssignment : gset string.

Let display := displayLocation CWD path_relative.

(** C7. In every rendered block whose findings are locations, each
    finding is first turned into the string [relative/path:line:column];
    the block prints, in order, one line for each finding whose string is
    not in the allowlist of its category, and no line for a finding whose
    string is in it, however many findings the category holds.  The
    categories without an allowlist print all their findings. *)
Theorem logReport_allowlist_suppression :
  (∀ location,
     display location =
     path_relative CWD (filePath location) +:+ ":" +:+
     pretty (line (loc_start location)) +:+ ":" +:+
     pretty (column (loc_start location))) ∧
  (∀ report : MigrationReport.t,
     logReport CWD path_relative allowlist_typeParameterWithVariance report =
     logSection "Type parameter with variance:"
       (bullet ∘ display <$>
          filter (λ l, display l ∉ allowlist_typeParameterWithVariance)
            (MigrationReport.typeParameterWithVariance report)) ++
     logSection "Object property with an internal name:"
       (bullet ∘ display <$>
          MigrationReport.objectPropertyWithInternalName report) ++
     logSection "Object property with negative variance:"
       (bullet ∘ display <$>
          MigrationReport.objectPropertyWithMinusVariance report) ++
     logSection "Unsupported type cast:"
       (bullet ∘ display <$> MigrationReport.unsupportedTypeCast report)) ∧
  (∀ (report : MigrationReport.t) location,
     display location ∈ allowlist_typeParameterWithVariance →
     bullet (display location) ∉
       logTypeParameterWithVariance CWD path_relative
         allowlist_typeParameterWithVariance report) ∧
  (∀ report : Modules.MigrationReport.t,
     Modules.logReport CWD path_relative allowlist_requireNotCalled
       allowlist_requireOtherThanString allowlist_cannotFindModule
       allowlist_moduleNotExportAssignment report =
     logSection "Skipped large files:"
       (bullet ∘ path_relative CWD <$>
          Modules.MigrationReport.skippedLargeFiles report) ++
     logSection "Require not called:"
       (bullet ∘ display <$>
          filter (λ l, display l ∉ allowlist_requireNotCalled)
            (Modules.MigrationReport.requireNotCalled report)) ++
     logSection "Required something other than a string:"
       (bullet ∘ display <$>
          filter (λ l, display l ∉ allowlist_requireOtherThanString)
            (Modules.MigrationReport.requireOtherThanString report)) ++
     logSection "Required something other than a string:"
       ((λ m, Modules.cannotFindModuleLine
                (Modules.moduleId m, display (Modules.location m))) <$>
          filter (λ m, display (Modules.location m) ∉
                       allowlist_cannotFindModule)
            (Modules.MigrationReport.cannotFindModule report)) ++
     logSection "Module reference is not an exports assignment:"
       (bullet ∘ display <$>
          filter (λ l, display l ∉ allowlist_moduleNotExportAssignment)
            (Modules.MigrationReport.moduleNotExportAssignment report)) ++
     logSection "Unable to load external module:"
       (bullet ∘ path_relative CWD <$>
          Modules.MigrationReport.unableToLoadExternalModule report)) ∧
  (∀ (report : Modules.MigrationReport.t) location,
     (display location ∈ allowlist_requireNotCalled →
      bullet (display location) ∉
        Modules.logRequireNotCalled CWD path_relative
          allowlist_requireNotCalled report) ∧
     (display location ∈ allowlist_requireOtherThanString →
      bullet (display location) ∉
        Modules.logRequireOtherThanString CWD path_relative
          allowlist_requireOtherThanString report) ∧
     (display location ∈ allowlist_moduleNotExportAssignment →
      bullet (display location) ∉
        Modules.logModuleNotExportAssignment CWD path_relative
          allowlist_moduleNotExportAssignment report)).
Proof.
  split_and!.
  - done.
  - intros report. unfold logReport, logTypeParameterWithVariance,
      logObjectPropertyWithInternalName, logObjectPropertyWithMinusVariance,
      logUnsupportedTypeCast.
    rewrite filter_fmap_comm, <- !list_fmap_compose. reflexivity.
  - intros report location Hin. unfold logTypeParameterWithVariance.
    apply filtered_block_omits; [not_a_bullet | exact Hin].
  - intros report. unfold Modules.logReport, Modules.logSkippedLargeFiles,
      Modules.logRequireNotCalled, Modules.logRequireOtherThanString,
      Modules.logCannotFindModule, Modules.logModuleNotExportAssignment,
      Modules.logUnableToLoadExternalModule.
    rewrite !filter_fmap_comm, <- !list_fmap_compose. reflexivity.
  - intros report location.
    unfold Modules.logRequireNotCalled, Modules.logRequireOtherThanString,
      Modules.logModuleNotExportAssignment.
    split_and!; intros Hin;
      (apply filtered_block_omits; [not_a_bullet | exact Hin]).
Qed.
End LogReportProperties.

(** A report with two findings in one file, the first of them on the
    allowlist: its line is not printed, and the block holds the title and
    the line of the other finding. *)
Lemma logReport_allowlist_suppression_witness :
  let here (l c : N) : Location :=
    {| filePath := "src/a.js";
       loc_start := {| line := l; column := c |};
       loc_end := {| line := l; column := (c + 1)%N |} |} in
  let relative := λ _ p : string, p in
  let allowlist : gset string := {["src/a.js:3:4"]} in
  let report :=
    {| MigrationReport.typeParameterWithVariance := [here 3%N 4%N; here 8%N 0%N];
       MigrationReport.objectPropertyWithInternalName := [];
       MigrationReport.objectPropertyWithMinusVariance := [];
       MigrationReport.unsupportedTypeCast := [] |} in
  displayLocation "/repo" relative (here 3%N 4%N) ∈ allowlist ∧
  bullet (displayLocation "/repo" relative (here 3%N 4%N)) ∉
    logTypeParameterWithVariance "/repo" relative allowlist report.
Proof.
  intros here relative allowlist report.
  assert (displayLocation "/repo" relative (here 3%N 4%N) ∈ allowlist)
    as Hin by (by apply elem_of_singleton).
  split; [exact Hin|].
  destruct (logReport_allowlist_suppression "/repo" relative allowlist
              ∅ ∅ ∅ ∅) as (_ & _ & H & _).
  exact (H report (here 3%N 4%N) Hin).
Defined.

(** ** The monad *)

Lemma post_ret {S A} (a : A) (Q : A → Prop) (E : Error → Prop) :
  Q a → post (S := S) (ret a) Q E.
Proof. intros H s. exact H. Qed.

Lemma post_throw {S A} (message : string) (Q : A → Prop)
    (E : Error → Prop) :
  E (MkError message) → post (S := S) (throw message) Q E.
Proof. intros H s. exact H. Qed.

Lemma post_bind {S A B} (m : M S A) (k : A → M S B) (Q1 : A → Prop)
    (Q2 : B → Prop) (E : Error → Prop) :
  post m Q1 E → (∀ a, Q1 a → post (k a) Q2 E) → post (bind m k) Q2 E.
Proof.
  intros Hm Hk s. unfold bind. specialize (Hm s).
  destruct (m s) as [[a|e] s']; [|done]. by apply Hk.
Qed.

Lemma post_weaken {S A} (m : M S A) (Q Q' : A → Prop) (E : Error → Prop) :
  post m Q E → (∀ a, Q a → Q' a) → post m Q' E.
Proof.
  intros Hm HQ s. specialize (Hm s). destruct (m s) as [[a|e] s']; auto.
Qed.

Lemma post_when {S} (b : bool) (m : M S unit) (E : Error → Prop) :
  post m (λ _, True) E → post (when b m) (λ _, True) E.
Proof. intros Hm. destruct b; [done|]. by apply post_ret. Qed.

Lemma post_modify {S} (f : S → S) (E : Error → Prop) :
  post (modify f) (λ _, True) E.
Proof. by intros s. Qed.

Lemma post_mapM {S A B} (f : A → M S B) (l : list A) (Q : B → Prop)
    (E : Error → Prop) :
  Forall (λ x, post (f x) Q E) l →
  post (mapM f l) (λ ys, Forall Q ys ∧ length ys = length l) E.
Proof.
  induction 1 as [|x l Hx _ IH]; simpl.
  - by apply post_ret.
  - eapply post_bind; [exact Hx|]. intros y Hy.
    eapply post_bind; [exact IH|]. intros ys [Hys Hlen].
    apply post_ret. split; [by constructor | by rewrite <- Hlen].
Qed.

Lemma post_mapM_Forall {S A B} (f : A → M S B) (l : list A) (Q : B → Prop)
    (E : Error → Prop) :
  Forall (λ x, post (f x) Q E) l → post (mapM f l) (Forall Q) E.
Proof.
  intros H. eapply post_weaken; [by apply post_mapM|]. by intros ? [? _].
Qed.

Lemma post_mapiM {S A B} (f : nat → A → M S B) (l : list A) (i : nat)
    (Q : B → Prop) (E : Error → Prop) :
  Forall (λ x, ∀ i, post (f i x) Q E) l → post (mapiM f i l) (Forall Q) E.
Proof.
  intros H. revert i. induction H as [|x l Hx _ IH]; intros i; simpl.
  - by apply post_ret.
  - eapply post_bind; [apply Hx|]. intros y Hy.
    eapply post_bind; [apply IH|]. intros ys Hys.
    apply post_ret. by constructor.
Qed.

Lemma post_optM {S A B} (f : A → M S B) (o : option A) (Q : B → Prop)
    (E : Error → Prop) :
  (∀ x, o = Some x → post (f x) Q E) →
  post (optM f o) (λ o', ∀ y, o' = Some y → Q y) E.
Proof.
  intros H. destruct o as [x|]; simpl.
  - eapply post_bind; [by apply H|]. intros y Hy.
    apply post_ret. by intros ? [= <-].
  - apply post_ret. done.
Qed.

Lemma post_foldM {S A B} (f : B → A → M S B) (l : list A) (acc : B)
    (I : B → Prop) (E : Error → Prop) :
  I acc → Forall (λ x, ∀ acc, I acc → post (f acc x) I E) l →
  post (foldM f l acc) I E.
Proof.
  intros Hacc H. revert acc Hacc.
  induction H as [|x l Hx _ IH]; intros acc Hacc; simpl.
  - by apply post_ret.
  - eapply post_bind; [by apply Hx|]. intros acc' Hacc'. by apply IH.
Qed.

Lemma bind_Ok_inv {S A B} (m : M S A) (k : A → M S B) (s s' : S) (b : B) :
  bind m k s = (Ok b, s') → ∃ a s1, m s = (Ok a, s1) ∧ k a s1 = (Ok b, s').
Proof.
  unfold bind. destruct (m s) as [[a|e] s1]; [|done]. by exists a, s1.
Qed.

Lemma mapM_Forall2 {S A B} (f : A → M S B) (l : list A) (s s' : S)
    (ys : list B) :
  mapM f l s = (Ok ys, s') →
  Forall2 (λ x y, ∃ s1 s2, f x s1 = (Ok y, s2)) l ys.
Proof.
  revert s ys. induction l as [|x l IH]; intros s ys; simpl.
  - intros [= <- _]. constructor.
  - unfold bind at 1. destruct (f x s) as [[y|e] s1] eqn:Hx; [|done].
    unfold bind at 1.
    destruct (mapM f l s1) as [[ys'|e] s2] eqn:Hl; [|done].
    intros [= <- <-]. constructor; eauto.
Qed.

#[universes(polymorphic)]
Lemma list_all_Forall {A} (P : A → Prop) (l : list A) :
  list_all A P l → Forall P l.
Proof. induction 1; by constructor. Qed.

#[universes(polymorphic)]
Lemma option_all_Some {A} (P : A → Prop) (o : option A) :
  option_all A P o → ∀ x, o = Some x → P x.
Proof. destruct 1; naive_solver. Qed.

#[universes(polymorphic)]
Lemma option_list_all_Forall {A} (P : A → Prop) (o : option (list A)) :
  option_all (list A) (list_all A P) o → Forall P (default [] o).
Proof. destruct 1 as [l Hl|]; [by apply list_all_Forall | constructor]. Qed.

(** ** Sorting the members *)

Lemma insertByLine_Permutation {A} (x : N * A) (l : list (N * A)) :
  insertByLine x l ≡ₚ x :: l.
Proof.
  induction l as [|y l IH]; simpl; [done|].
  destruct (x.1 <=? y.1)%N; [done|]. rewrite IH. apply Permutation_swap.
Qed.

Lemma sortByLine_Permutation {A} (l : list (N * A)) : sortByLine l ≡ₚ l.
Proof.
  induction l as [|x l IH]; simpl; [done|].
  rewrite insertByLine_Permutation. by rewrite IH.
Qed.

(** ** The type migration returns well-formed types *)

Lemma forallb_Forall {A} (f : A → bool) (l : list A) :
  forallb f l = true ↔ Forall (λ x, f x = true) l.
Proof.
  induction l as [|x l IH]; simpl.
  - split; [constructor | done].
  - rewrite andb_true_iff, Forall_cons, IH. done.
Qed.

Lemma good_kind (ts : TSType) :
  ts ≠ TSUndefinedKeyword → TSType_type ts ∈ targetTypeKinds.
Proof.
  intros H. destruct ts; try done;
    match goal with
    | |- ?x ∈ ?l => apply (bool_decide_unpack (x ∈ l)); vm_compute; exact I
    end.
Qed.

Lemma restIsLast_app (l rest : list TSParameter) :
  Forall isIdentifierParameter l → restIsLast rest = true →
  restIsLast (l ++ rest) = true.
Proof.
  induction 1 as [|p l Hp _ IH]; intros Hrest; simpl; [done|].
  destruct p; [by apply IH | done].
Qed.

Lemma pushMigratedMember_good (parts : list IntersectionPart)
    (m : MigratedMember) :
  Forall goodPart parts → goodMember m →
  Forall goodPart (pushMigratedMember parts m).
Proof.
  intros Hparts Hm. destruct m as [ts|e]; simpl.
  - apply Forall_app. split; [done|]. apply Forall_singleton. exact Hm.
  - assert (goodPart (literal [e])) as He by (by apply Forall_singleton).
    destruct (last parts) as [[members|ts]|] eqn:Hlast.
    + apply Forall_insert; [done|]. simpl.
      apply last_Some_elem_of in Hlast.
      rewrite Forall_forall in Hparts. specialize (Hparts _ Hlast).
      simpl in Hparts. apply Forall_app. split; [done|].
      by apply Forall_singleton.
    + apply Forall_app. split; [done|]. by apply Forall_singleton.
    + apply Forall_app. split; [done|]. by apply Forall_singleton.
Qed.

Lemma typeOfIntersectionPart_good (p : IntersectionPart) :
  goodPart p → good (typeOfIntersectionPart p).
Proof.
  destruct p as [members|ts]; simpl.
  - intros Hm.
    assert (good (TSTypeLiteral members)) as Hlit.
    { split; [|done]. simpl. by apply forallb_Forall. }
    destruct members as [|e l]; [done|].
    destruct e as [| |parameters v ro]; try by destruct l.
    destruct parameters as [|[n o [k|]|] ps]; try by destruct l.
    destruct l; [|done].
    destruct (negb (isStringOrNumberKeyword k)); [|done].
    apply Forall_cons in Hm as [Hm _]. simpl in Hm.
    destruct o, ps; try done.
    apply andb_true_iff in Hm as [Hk Hv].
    split; [|done]. simpl. by rewrite Hk, Hv.
  - intros [Hwf [ts' ->]]. by split.
Qed.

Lemma typeOfIntersectionParts_good (parts : list IntersectionPart) :
  Forall goodPart parts → good (typeOfIntersectionParts parts).
Proof.
  intros Hparts. unfold typeOfIntersectionParts.
  destruct parts as [|p parts]; [by split|].
  assert (Forall good (typeOfIntersectionPart <$> p :: parts)) as Hgood.
  { apply Forall_fmap. eapply Forall_impl; [exact Hparts|].
    apply typeOfIntersectionPart_good. }
  assert (good (TSIntersectionType (typeOfIntersectionPart <$> p :: parts)))
    as Hinter.
  { split; [|done]. cbn [wellFormed]. apply forallb_Forall.
    eapply Forall_impl; [exact Hgood|]. by intros ? [? _]. }
  destruct (typeOfIntersectionPart <$> p :: parts) as [|t [|t' l]] eqn:E;
    try done.
  by apply Forall_cons in Hgood as [? _].
Qed.

Lemma migrateGenericTypeAnnotation_good (id : TSEntityName)
    (params : option (list TSType)) :
  (∀ ps, params = Some ps →
         ps ≠ [] ∧ Forall (λ ts, wellFormed ts = true) ps) →
  good (migrateGenericTypeAnnotation id params).
Proof.
  intros Hparams.
  assert (wellFormed (TSTypeReference id params) = true) as Href.
  { destruct params as [ps|]; [|done]. destruct (Hparams ps eq_refl) as [? ?].
    simpl. rewrite bool_decide_false by done. by apply forallb_Forall. }
  assert (∀ id', wellFormed (TSTypeReference id' params) = true) as Hany
    by (by destruct params).
  assert (∀ i n, hasParams params n = true → (i < n)%nat →
                 wellFormed (paramAt params i) = true) as Hat.
  { intros i n Hn Hi. destruct params as [ps|]; [|done].
    destruct (Hparams ps eq_refl) as [_ Hall]. simpl in *.
    apply Nat.eqb_eq in Hn. rewrite Forall_forall in Hall. apply Hall.
    apply list_elem_of_In, nth_In. lia. }
  unfold migrateGenericTypeAnnotation.
  repeat match goal with
         | |- good (if ?a && ?b then _ else _) =>
             destruct a; simpl andb; [destruct b eqn:?|]
         | |- good (if ?b then _ else _) => destruct b eqn:?
         end;
    split; try done; simpl; rewrite ?Hany, ?andb_true_r; try done;
    try (by erewrite !Hat by (eassumption || lia)).
Qed.

Section MigrationProperties.
Variable filePath : string.

Let E := UnsupportedConstruct.

(** The case [ObjectTypeAnnotation], with the members in one list. *)
Lemma migrateType_object (properties : list ObjectTypeMember)
    (indexers callProperties internalSlots : option (list ObjectTypeMember))
    (exact : bool) :
  migrateType filePath
    (ObjectTypeAnnotation properties indexers callProperties internalSlots
       exact) =
  bind
    (foldM (λ intersectionTypes flowMember,
             bind flowMember.2
               (λ m, ret (pushMigratedMember intersectionTypes m)))
           (sortByLine
              ((λ flowMember,
                 (line (start (memberLoc flowMember)),
                  migrateFlowMember filePath flowMember)) <$>
               flowMembersOf properties indexers callProperties
                 internalSlots))
           [])
    (λ intersectionTypes, ret (typeOfIntersectionParts intersectionTypes)).
Proof.
  unfold flowMembersOf. rewrite !fmap_app.
  destruct indexers, callProperties, internalSlots; reflexivity.
Qed.

Lemma migrateType_post_all :
  (∀ flowType, post (migrateType filePath flowType) good E) ∧
  (∀ p, post (migrateTypeParameter filePath p)
          (λ p', wellFormedTypeParameter p' = true) E) ∧
  (∀ p, (∀ i, post (migrateFunctionTypeParam filePath i p)
                (λ p', wellFormedParameter p' = true ∧
                       isIdentifierParameter p') E) ∧
        post (migrateRest filePath p)
          (λ p', wellFormedParameter p' = true) E) ∧
  (∀ m, post (migrateObjectMember filePath m)
          (λ e, wellFormedElement e = true) E ∧
        post (migrateFlowMember filePath m) goodMember E).
Proof.
  apply FlowType_mutind.
  - (* any *) by apply post_ret.
  - (* array *) intros e IH. simpl.
    eapply post_bind; [exact IH|]. intros ts [Hts _]. by apply post_ret.
  - by apply post_ret.
  - intros b. by apply post_ret.
  - by apply post_ret.
  - by apply post_ret.
  - (* function *)
    intros tps Htps params Hparams rest Hrest ret' Hret. simpl.
    eapply post_bind.
    { apply post_optM. intros l ->. apply post_mapM_Forall.
      apply (option_list_all_Forall _ _ Htps). }
    intros tps' Htps'.
    eapply post_bind.
    { apply (post_mapiM _ _ _
               (λ p', wellFormedParameter p' = true ∧
                      isIdentifierParameter p')).
      apply list_all_Forall in Hparams.
      eapply Forall_impl; [exact Hparams|]. by intros p [Hp _]. }
    intros params' Hparams'.
    eapply (post_bind _ _
              (λ l, Forall (λ p', wellFormedParameter p' = true) l ∧
                    restIsLast l = true)).
    { destruct rest as [r|].
      - eapply post_bind.
        + apply (option_all_Some _ _ Hrest r eq_refl).
        + intros p' Hp'. apply post_ret. split; [by constructor|].
          simpl. by destruct p'.
      - by apply post_ret. }
    intros restParams [Hrest1 Hrest2].
    eapply post_bind; [exact Hret|]. intros ts [Hts _].
    apply post_ret. split; [|done]. cbn [wellFormed].
    rewrite Hts, andb_true_r.
    apply andb_true_iff. split; [apply andb_true_iff; split|].
    + destruct tps' as [l|]; [|done]. apply forallb_Forall.
      by apply (Htps' l).
    + apply forallb_Forall, Forall_app. split; [|done].
      eapply Forall_impl; [exact Hparams'|]. by intros ? [? _].
    + apply restIsLast_app; [|done].
      eapply Forall_impl; [exact Hparams'|]. by intros ? [_ ?].
  - (* generic *)
    intros id tps Htps. simpl.
    eapply (post_bind _ _
              (λ params, ∀ ps, params = Some ps →
                 ps ≠ [] ∧ Forall (λ ts, wellFormed ts = true) ps)).
    { pose proof (option_list_all_Forall _ _ Htps) as Hl.
      destruct tps as [[|p ps]|]; try by apply post_ret.
      eapply post_bind.
      - exact (post_mapM (migrateType filePath) (p :: ps) good E Hl).
      - intros ps' [Hps' Hlen]. apply post_ret. intros ? [= <-]. split.
        + by intros ->.
        + eapply Forall_impl; [exact Hps'|]. by intros ? [? _]. }
    intros params Hparams. apply post_ret.
    by apply migrateGenericTypeAnnotation_good.
  - (* interface *) intros body _. apply post_throw. constructor.
  - (* intersection *)
    intros types Htypes. simpl. apply list_all_Forall in Htypes.
    eapply post_bind.
    { apply (post_mapM_Forall _ _ (λ ts, wellFormed ts = true)).
      eapply Forall_impl; [exact Htypes|]. intros T HT.
      eapply post_bind; [exact HT|]. intros ts [Hts _]. apply post_ret.
      by destruct ts. }
    intros types' Htypes'. apply post_ret. split; [|done].
    cbn [wellFormed]. by apply forallb_Forall.
  - by apply post_ret.
  - by apply post_ret.
  - (* nullable *)
    intros T IH. simpl. eapply post_bind; [exact IH|]. intros ts [Hts _].
    apply post_ret. split; [|done]. simpl. by rewrite Hts.
  - intros v. by apply post_ret.
  - by apply post_ret.
  - (* object *)
    intros properties Hprops indexers Hidx callProperties Hcall
      internalSlots Hslots exact.
    rewrite migrateType_object.
    eapply post_bind; [|intros parts Hparts; apply post_ret;
                        by apply typeOfIntersectionParts_good].
    apply (post_foldM _ _ _ (Forall goodPart)); [constructor|].
    rewrite sortByLine_Permutation. apply Forall_fmap.
    assert (Forall (λ m, post (migrateFlowMember filePath m) goodMember E)
              (flowMembersOf properties indexers callProperties
                 internalSlots)) as Hall.
    { apply list_all_Forall in Hprops.
      apply option_list_all_Forall in Hidx, Hcall, Hslots.
      unfold flowMembersOf. rewrite !Forall_app.
      split_and!; (eapply Forall_impl; [eassumption|]); by intros ? [_ ?]. }
    eapply Forall_impl; [exact Hall|]. intros m Hm parts Hparts. simpl.
    eapply post_bind; [exact Hm|]. intros m' Hm'. apply post_ret.
    by apply pushMigratedMember_good.
  - intros v. by apply post_ret.
  - by apply post_ret.
  - by apply post_ret.
  - (* tuple *)
    intros types Htypes. simpl. apply list_all_Forall in Htypes.
    eapply post_bind; [apply (post_mapM_Forall _ _ good); exact Htypes|].
    intros types' Htypes'. apply post_ret. split; [|done].
    cbn [wellFormed]. apply forallb_Forall.
    eapply Forall_impl; [exact Htypes'|]. by intros ? [? _].
  - (* typeof *)
    intros T IH. simpl. eapply post_bind; [exact IH|]. intros ts _.
    destruct ts as [| | | | | | | | | | | |name [ps|]| | | | | | | | |];
      try (apply post_throw; constructor).
    by apply post_ret.
  - (* union *)
    intros types Htypes. simpl. apply list_all_Forall in Htypes.
    eapply post_bind.
    { apply (post_mapM_Forall _ _ (λ ts, wellFormed ts = true)).
      eapply Forall_impl; [exact Htypes|]. intros T HT.
      eapply post_bind; [exact HT|]. intros ts [Hts _]. apply post_ret.
      by destruct ts. }
    intros types' Htypes'. apply post_ret. split; [|done].
    cbn [wellFormed]. by apply forallb_Forall.
  - by apply post_ret.
  - (* other *) intros type. apply post_throw. constructor.
  - (* type parameter *)
    intros name bound Hbound default Hdefault variance loc. simpl.
    eapply post_bind; [apply post_when; by intros s|]. intros _ _.
    eapply post_bind.
    { apply post_optM. intros T ->.
      apply (option_all_Some _ _ Hbound T eq_refl). }
    intros c Hc. eapply post_bind.
    { apply post_optM. intros T ->.
      apply (option_all_Some _ _ Hdefault T eq_refl). }
    intros d Hd. apply post_ret. simpl.
    destruct c as [c|], d as [d|]; simpl;
      rewrite ?(proj1 (Hc _ eq_refl)), ?(proj1 (Hd _ eq_refl)); done.
  - (* function type parameter *)
    intros name optional T IH. split.
    + intros i. simpl. eapply post_bind; [exact IH|]. intros ts [Hts _].
      by apply post_ret.
    + simpl. eapply post_bind; [exact IH|]. intros ts [Hts _].
      by apply post_ret.
  - (* property *)
    intros key value IH variance kind method optional proto static loc.
    assert (post (migrateObjectMember filePath
                    (ObjectTypeProperty key value variance kind method
                       optional proto static loc))
              (λ e, wellFormedElement e = true) E) as Hmember.
    { simpl.
      eapply post_bind; [apply post_when; by intros s|]. intros _ _.
      eapply post_bind; [apply post_when; by intros s|]. intros _ _.
      destruct kind; [|apply post_throw; constructor].
      destruct proto; [apply post_throw; constructor|].
      destruct static; [apply post_throw; constructor|].
      eapply post_bind; [exact IH|]. intros ts [Hts _].
      destruct method; simpl; [|by apply post_ret].
      destruct ts; try (apply post_throw; constructor).
      by apply post_ret. }
    split; [exact Hmember|].
    unfold migrateFlowMember. eapply post_bind; [exact Hmember|].
    intros e He. by apply post_ret.
  - (* spread *)
    intros argument IH loc. split.
    + apply post_throw. constructor.
    + simpl. eapply post_bind; [exact IH|]. intros ts [Hts _].
      apply post_ret. split; [done | by eexists].
  - (* indexer *)
    intros id key IHkey value IHvalue variance static loc.
    assert (post (migrateObjectMember filePath
                    (ObjectTypeIndexer id key value variance static loc))
              (λ e, wellFormedElement e = true) E) as Hmember.
    { simpl.
      eapply post_bind; [apply post_when; by intros s|]. intros _ _.
      destruct static; [apply post_throw; constructor|].
      eapply post_bind; [exact IHkey|]. intros tsKey [Hkey _].
      eapply post_bind; [exact IHvalue|]. intros tsValue [Hvalue _].
      apply post_ret. simpl. by rewrite Hkey, Hvalue. }
    split; [exact Hmember|].
    unfold migrateFlowMember. eapply post_bind; [exact Hmember|].
    intros e He. by apply post_ret.
  - (* call property *)
    intros value _ static loc.
    split; [apply post_throw; constructor|].
    unfold migrateFlowMember.
    eapply (post_bind _ _ (λ _, False)); [|by intros].
    apply post_throw. constructor.
  - (* internal slot *)
    intros id value _ optional static method loc.
    split; [apply post_throw; constructor|].
    unfold migrateFlowMember.
    eapply (post_bind _ _ (λ _, False)); [|by intros].
    apply post_throw. constructor.
  - (* other member *)
    intros type loc.
    split; [apply post_throw; constructor|].
    unfold migrateFlowMember.
    eapply (post_bind _ _ (λ _, False)); [|by intros].
    apply post_throw. constructor.
Qed.

Lemma post_run {A} (m : M MigrationReporter A) (Q : A → Prop)
    (E' : Error → Prop) (r r' : MigrationReporter) (a : A) :
  post m Q E' → m r = (Ok a, r') → Q a.
Proof. intros Hm Hr. specialize (Hm r). by rewrite Hr in Hm. Qed.


(** *** Unions *)

Lemma mapM_Ok_total {A B} (f : A → M MigrationReporter B) (l : list A)
    (r : MigrationReporter) :
  (∀ x, x ∈ l → ∀ r1, ∃ y r2, f x r1 = (Ok y, r2)) →
  ∃ ys r', mapM f l r = (Ok ys, r').
Proof.
  revert r. induction l as [|x l IH]; intros r H; simpl.
  - by eexists _, _.
  - destruct (H x (list_elem_of_here _ _) r) as (y & r1 & Hx).
    destruct (IH r1) as (ys & r2 & Hl).
    { intros x' Hx'. apply H. by right. }
    exists (y :: ys), r2. unfold bind. by rewrite Hx, Hl.
Qed.

(** C10. A union type migrates to a union type that holds one migrated
    member for each member of the origin, in the order of the origin, a
    function type going between parentheses.  The result is returned as
    soon as every member migrates, and it is never one of its members:
    a union with a member that migrates to [any] stays a union. *)
Theorem migrateType_union (types : list FlowType) (r : MigrationReporter) :
  (∀ ts r', migrateType filePath (UnionTypeAnnotation types) r = (Ok ts, r') →
     ∃ members,
       ts = TSUnionType members ∧
       Forall2 (λ flowMemberType tsMemberType,
                  ∃ r1 r2 t,
                    migrateType filePath flowMemberType r1 = (Ok t, r2) ∧
                    tsMemberType = parenthesizeFunctionType t)
         types members) ∧
  ((∀ flowMemberType, flowMemberType ∈ types →
      ∀ r1, ∃ t r2, migrateType filePath flowMemberType r1 = (Ok t, r2)) →
   ∃ members r',
     migrateType filePath (UnionTypeAnnotation types) r =
     (Ok (TSUnionType members), r')) ∧
  (∀ ts r', migrateType filePath (UnionTypeAnnotation types) r = (Ok ts, r') →
     ts ≠ TSAnyKeyword).
Proof.
  assert (∀ ts r',
    migrateType filePath (UnionTypeAnnotation types) r = (Ok ts, r') →
    ∃ members,
      ts = TSUnionType members ∧
      Forall2 (λ flowMemberType tsMemberType,
                 ∃ r1 r2 t,
                   migrateType filePath flowMemberType r1 = (Ok t, r2) ∧
                   tsMemberType = parenthesizeFunctionType t)
        types members) as Hshape.
  { intros ts r'. simpl. unfold bind at 1.
    destruct (mapM _ types r) as [[members|e] r1] eqn:Hmembers; [|done].
    intros [= <- _]. exists members. split; [done|].
    apply mapM_Forall2 in Hmembers.
    eapply Forall2_impl; [exact Hmembers|].
    intros T m (r2 & r3 & Hm). unfold bind in Hm.
    destruct (migrateType filePath T r2) as [[t|e] r4] eqn:HT; [|done].
    injection Hm as <- _. by exists r2, r4, t. }
  split_and!.
  - exact Hshape.
  - intros Hall. simpl.
    destruct (mapM_Ok_total
                (λ flowMemberType,
                   bind (migrateType filePath flowMemberType)
                     (λ tsMemberType,
                        ret (parenthesizeFunctionType tsMemberType)))
                types r) as (members & r' & Hmembers).
    { intros T HT r1. destruct (Hall T HT r1) as (t & r2 & Ht).
      exists (parenthesizeFunctionType t), r2. unfold bind. by rewrite Ht. }
    exists members, r'. unfold bind at 1. by rewrite Hmembers.
  - intros ts r' H. by destruct (Hshape ts r' H) as (members & -> & _).
Qed.

(** *** Indexers *)

Lemma typeOfIntersectionParts_not_keyword (parts : list IntersectionPart) :
  Forall goodPart parts →
  isStringOrNumberKeyword (typeOfIntersectionParts parts) = false.
Proof.
  intros Hparts. unfold typeOfIntersectionParts.
  destruct parts as [|p parts]; [done|].
  assert (isStringOrNumberKeyword (typeOfIntersectionPart p) = false) as Hp.
  { apply Forall_cons in Hparts as [Hp _].
    destruct p as [members|ts]; simpl.
    - destruct members as [|e l]; [done|].
      destruct e as [| |parameters v ro]; try by destruct l.
      destruct parameters as [|[n o [k|]|] ps]; try by destruct l.
      destruct l; [|done]. by destruct (negb (isStringOrNumberKeyword k)).
    - by destruct Hp as [_ [ts' ->]]. }
  rewrite fmap_cons. by destruct (typeOfIntersectionPart <$> parts).
Qed.

Lemma migrateGenericTypeAnnotation_not_keyword (id : TSEntityName)
    (params : option (list TSType)) :
  isStringOrNumberKeyword (migrateGenericTypeAnnotation id params) = false.
Proof.
  unfold migrateGenericTypeAnnotation.
  repeat match goal with
         | |- context [if ?b then _ else _] => destruct b
         end; done.
Qed.

Lemma migrateType_object_parts (properties : list ObjectTypeMember)
    (indexers callProperties internalSlots : option (list ObjectTypeMember)) :
  post
    (foldM (λ intersectionTypes flowMember,
             bind flowMember.2
               (λ m, ret (pushMigratedMember intersectionTypes m)))
           (sortByLine
              ((λ flowMember,
                 (line (start (memberLoc flowMember)),
                  migrateFlowMember filePath flowMember)) <$>
               flowMembersOf properties indexers callProperties
                 internalSlots))
           [])
    (Forall goodPart) E.
Proof.
  destruct migrateType_post_all as (_ & _ & _ & HM).
  apply (post_foldM _ _ _ (Forall goodPart)); [constructor|].
  rewrite sortByLine_Permutation. apply Forall_fmap, Forall_forall.
  intros m _ parts Hparts. simpl.
  eapply post_bind; [apply HM|]. intros m' Hm'. apply post_ret.
  by apply pushMigratedMember_good.
Qed.

(** Only the Flow types [string] and [number] migrate to the keywords
    [string] and [number]. *)
Lemma migrateType_keyword (flowType : FlowType) (r r' : MigrationReporter)
    (ts : TSType) :
  migrateType filePath flowType r = (Ok ts, r') →
  isStringOrNumberKeyword ts = true →
  flowType = StringTypeAnnotation ∨ flowType = NumberTypeAnnotation.
Proof.
  intros H Hk.
  destruct flowType; try (by auto);
    try (injection H as <- _; done).
  - apply bind_Ok_inv in H as (? & ? & _ & [= <- _]). done.
  - simpl in H.
    repeat apply bind_Ok_inv in H as (? & ? & _ & H).
    injection H as <- _. done.
  - simpl in H. apply bind_Ok_inv in H as (? & ? & _ & [= <- _]).
    by rewrite migrateGenericTypeAnnotation_not_keyword in Hk.
  - simpl in H. apply bind_Ok_inv in H as (? & ? & _ & [= <- _]). done.
  - simpl in H. apply bind_Ok_inv in H as (? & ? & _ & [= <- _]). done.
  - rewrite migrateType_object in H.
    apply bind_Ok_inv in H as (parts & ? & Hparts & [= <- _]).
    apply (post_run _ _ _ _ _ _ (migrateType_object_parts _ _ _ _)) in Hparts.
    by rewrite typeOfIntersectionParts_not_keyword in Hk.
  - simpl in H. apply bind_Ok_inv in H as (? & ? & _ & [= <- _]). done.
  - simpl in H. apply bind_Ok_inv in H as (tsType & ? & _ & H).
    destruct tsType as [| | | | | | | | | | | |name [ps|]| | | | | | | | |];
      try done.
    injection H as <- _. done.
  - simpl in H. apply bind_Ok_inv in H as (? & ? & _ & [= <- _]). done.
Qed.

End MigrationProperties.

(** *** Totality *)

Lemma mapiM_Forall2 {S A B} (f : nat → A → M S B) (l : list A) (i : nat)
    (s s' : S) (ys : list B) :
  mapiM f i l s = (Ok ys, s') →
  Forall2 (λ x y, ∃ i s1 s2, f i x s1 = (Ok y, s2)) l ys.
Proof.
  revert i s ys. induction l as [|x l IH]; intros i s ys; simpl.
  - intros [= <- _]. constructor.
  - intros H. apply bind_Ok_inv in H as (y & s1 & Hx & H).
    apply bind_Ok_inv in H as (ys' & s2 & Hl & [= <- <-]).
    constructor; [by exists i, s, s1 | by eapply IH].
Qed.

(** A function type keeps the optional marks of its parameters. *)
Lemma migrateType_function_optionals (filePath : string)
    (typeParameters : option (list TypeParameter))
    (params : list FunctionTypeParam) (rest : option FunctionTypeParam)
    (returnType : FlowType) (r r' : MigrationReporter) (ts : TSType) :
  migrateType filePath
    (FunctionTypeAnnotation typeParameters params rest returnType) r =
    (Ok ts, r') →
  ∃ typeParams parameters typeAnnotation,
    ts = TSFunctionType typeParams parameters typeAnnotation ∧
    parameterOptional <$> take (length params) parameters =
    flowParamOptional <$> params.
Proof.
  intros H. simpl in H.
  apply bind_Ok_inv in H as (typeParams & r1 & _ & H).
  apply bind_Ok_inv in H as (params' & r2 & Hparams & H).
  apply bind_Ok_inv in H as (restParams & r3 & _ & H).
  apply bind_Ok_inv in H as (ret' & r4 & _ & [= <- _]).
  exists typeParams, (params' ++ restParams), ret'. split; [done|].
  apply mapiM_Forall2 in Hparams.
  rewrite (Forall2_length _ _ _ Hparams), take_app_length.
  induction Hparams as [|p p' l l' (i & s1 & s2 & Hp) _ IH]; [done|].
  rewrite !fmap_cons, IH. f_equal.
  destruct p as [name optional typeAnnotation]. simpl in Hp.
  by apply bind_Ok_inv in Hp as (? & ? & _ & [= <- _]).
Qed.

(** What TypeScript accepts is well formed. *)
Lemma structurallyValid_wellFormed :
  ∀ ts, structurallyValid ts = true → wellFormed ts = true.
Proof.
  fix IH 1. intros ts.
  assert (∀ l, forallb structurallyValid l = true →
               forallb wellFormed l = true) as Hlist.
  { induction l as [|x l IHl]; [done|]. simpl.
    intros [Hx Hl]%andb_prop. by rewrite (IH _ Hx), IHl. }
  assert (∀ o : option TSType,
            match o with Some ts => structurallyValid ts | None => true end
              = true →
            match o with Some ts => wellFormed ts | None => true end = true)
    as Hoption.
  { intros [ts'|]; [apply IH | done]. }
  assert (∀ l, forallb structurallyValidTypeParameter l = true →
               forallb wellFormedTypeParameter l = true) as Htps.
  { induction l as [|[c d n] l IHl]; [done|]. simpl.
    intros [[Hc Hd]%andb_prop Hl]%andb_prop.
    by rewrite (Hoption _ Hc), (Hoption _ Hd), IHl. }
  assert (∀ o : option (list TSTypeParameter),
            match o with
            | Some l => forallb structurallyValidTypeParameter l
            | None => true
            end = true →
            match o with
            | Some l => forallb wellFormedTypeParameter l
            | None => true
            end = true) as Hotps.
  { intros [l|]; [apply Htps | done]. }
  assert (∀ l, forallb structurallyValidParameter l = true →
               forallb wellFormedParameter l = true) as Hparams.
  { induction l as [|p l IHl]; [done|]. simpl.
    intros [Hp Hl]%andb_prop. rewrite IHl by done.
    destruct p as [? ? [ts'|]|? ts']; simpl in *; try done;
      by rewrite (IH _ Hp). }
  assert (∀ l, forallb structurallyValidElement l = true →
               forallb wellFormedElement l = true) as Helems.
  { induction l as [|e l IHl]; [done|]. simpl.
    intros [He Hl]%andb_prop. rewrite IHl by done.
    destruct e as [? ts' ? ? ?|? tps ps ts' ? ?|ps ts' ?]; simpl in *.
    - by rewrite (IH _ He).
    - apply andb_prop in He as [[[[Htp Hps]%andb_prop Hrest]%andb_prop _]
                                  %andb_prop Hts].
      by rewrite (Hotps _ Htp), (Hparams _ Hps), Hrest, (IH _ Hts).
    - destruct ps as [|[? [?|] [key|]|? ?] [|? ?]]; try done.
      apply andb_prop in He as [Hk Hv].
      rewrite (IH _ Hv), andb_true_r.
      by destruct key. }
  destruct ts; simpl; try done.
  - apply IH.
  - destruct typeParameters as [params|]; [|done].
    intros [Hne Hl]%andb_prop. by rewrite Hne, (Hlist _ Hl).
  - intros [[[[Htp Hps]%andb_prop Hrest]%andb_prop _]%andb_prop Hts]
             %andb_prop.
    by rewrite (Hotps _ Htp), (Hparams _ Hps), Hrest, (IH _ Hts).
  - intros [Hop Hts]%andb_prop. by rewrite Hop, (IH _ Hts).
  - intros [H1 H2]%andb_prop. by rewrite (IH _ H1), (IH _ H2).
  - intros [_ Hl]%andb_prop. by apply Hlist.
  - intros [_ Hl]%andb_prop. by apply Hlist.
  - apply IH.
  - apply Helems.
  - apply Hlist.
Qed.

(** C9, as amended. The type migration is total over the origin type
    nodes: for every node it returns a type of one of the target kinds or
    it throws one of the errors for an unsupported construct, and a node
    of a kind that has no case throws; the same holds for the members of
    an object type.  A returned type is well formed: type arguments, when
    given, are not empty, every parameter is annotated, a rest element
    comes last, an index signature has one parameter, an annotated
    identifier, and a type operator is [keyof].  It is not always a type
    that TypeScript accepts: TypeScript accepts no more than the
    well-formed types, and a function type keeps the optional marks of
    its parameters, also those of an optional parameter before a required
    one. *)
Theorem migrateType_total (filePath : string) :
  (∀ flowType r, ∃ r',
     (∃ ts, migrateType filePath flowType r = (Ok ts, r') ∧
            TSType_type ts ∈ targetTypeKinds ∧ wellFormed ts = true) ∨
     (∃ e, migrateType filePath flowType r = (Throw e, r') ∧
           UnsupportedConstruct e)) ∧
  (∀ flowMember r, ∃ r',
     (∃ tsMember, migrateObjectMember filePath flowMember r =
                  (Ok tsMember, r') ∧
                  wellFormedElement tsMember = true) ∨
     (∃ e, migrateObjectMember filePath flowMember r = (Throw e, r') ∧
           UnsupportedConstruct e)) ∧
  (∀ type r,
     migrateType filePath (OtherFlowType type) r =
     (Throw (MkError ("Unexpected AST node: " +:+ JSON_stringify type)), r)) ∧
  (∀ type loc r,
     migrateObjectMember filePath (OtherObjectTypeMember type loc) r =
     (Throw (MkError ("Unrecognized AST node: " +:+ JSON_stringify type)),
      r)) ∧
  (∀ ts, structurallyValid ts = true → wellFormed ts = true) ∧
  (∀ typeParameters params rest returnType r r' ts,
     migrateType filePath
       (FunctionTypeAnnotation typeParameters params rest returnType) r =
       (Ok ts, r') →
     ∃ typeParams parameters typeAnnotation,
       ts = TSFunctionType typeParams parameters typeAnnotation ∧
       parameterOptional <$> take (length params) parameters =
       flowParamOptional <$> params).
Proof.
  destruct (migrateType_post_all filePath) as (HT & _ & _ & HM).
  split_and!; [| |done|done| |].
  - intros flowType r. specialize (HT flowType r).
    destruct (migrateType filePath flowType r) as [[ts|e] r'];
      exists r'; [left|right]; eexists; split; try done.
    destruct HT as [Hwf Hkind]. split; [by apply good_kind | done].
  - intros flowMember r. destruct (HM flowMember) as [HM' _].
    specialize (HM' r).
    destruct (migrateObjectMember filePath flowMember r) as [[ts|e] r'];
      exists r'; [left|right]; eexists; by split.
  - apply structurallyValid_wellFormed.
  - intros. by eapply migrateType_function_optionals.
Qed.

(** Three types that migrate to well-formed types that TypeScript does not
    accept: the function type [(a?: number, b: string) => void] keeps [a]
    optional before [b]; the object type
    [{foo: number, [k: UserId]: string}] keeps an index signature keyed by
    [UserId]; a union without members stays one. *)
Lemma migrateType_invalid_tree_counterexample :
  let here (l : N) : SourceLocation :=
    {| start := {| line := l; column := 2 |};
       end_ := {| line := l; column := 20 |} |} in
  let UserId := GenericTypeAnnotation (FIdentifier "UserId") None in
  let function :=
    FunctionTypeAnnotation None
      [MkFunctionTypeParam (Some "a") (Some true) NumberTypeAnnotation;
       MkFunctionTypeParam (Some "b") (Some false) StringTypeAnnotation]
      None VoidTypeAnnotation in
  let object :=
    ObjectTypeAnnotation
      [ObjectTypeProperty (KeyIdentifier "foo") NumberTypeAnnotation None
         (Some init) false false false false (here 2%N)]
      (Some [ObjectTypeIndexer (Some "k") UserId StringTypeAnnotation None
               false (here 3%N)])
      None None false in
  let tsFunction :=
    TSFunctionType None
      [TSIdentifier "a" (Some true) (Some TSNumberKeyword);
       TSIdentifier "b" (Some false) (Some TSStringKeyword)]
      TSVoidKeyword in
  let tsObject :=
    TSTypeLiteral
      [TSPropertySignature (KeyIdentifier "foo") TSNumberKeyword false false
         None;
       TSIndexSignature
         [TSIdentifier "k" None
            (Some (TSTypeReference (TSIdentifierName "UserId") None))]
         TSStringKeyword None] in
  (migrateType "a.js" function newMigrationReporter =
     (Ok tsFunction, newMigrationReporter) ∧
   wellFormed tsFunction = true ∧ structurallyValid tsFunction = false) ∧
  (migrateType "a.js" object newMigrationReporter =
     (Ok tsObject, newMigrationReporter) ∧
   wellFormed tsObject = true ∧ structurallyValid tsObject = false) ∧
  (migrateType "a.js" (UnionTypeAnnotation []) newMigrationReporter =
     (Ok (TSUnionType []), newMigrationReporter) ∧
   wellFormed (TSUnionType []) = true ∧
   structurallyValid (TSUnionType []) = false).
Proof. intros here UserId function object tsFunction tsObject. by split_and!. Qed.

(** *** The pieces of an object type *)

Lemma insertByLine_fmap {A B} (f : A → B) (x : N * A) (l : list (N * A)) :
  insertByLine (x.1, f x.2) ((λ p, (p.1, f p.2)) <$> l) =
  (λ p, (p.1, f p.2)) <$> insertByLine x l.
Proof.
  induction l as [|y l IH]; [done|].
  cbn [fmap list_fmap insertByLine fst snd].
  destruct (x.1 <=? y.1)%N; [done|].
  cbn [fmap list_fmap]. f_equal. apply IH.
Qed.

Lemma sortByLine_fmap {A B} (f : A → B) (l : list (N * A)) :
  sortByLine ((λ p, (p.1, f p.2)) <$> l) =
  (λ p, (p.1, f p.2)) <$> sortByLine l.
Proof.
  induction l as [|x l IH]; [done|].
  unfold sortByLine in *. cbn [fmap list_fmap foldr]. rewrite IH.
  apply (insertByLine_fmap f x).
Qed.

(** The loop over the members migrates them one after the other and
    pushes what they migrate to. *)
Lemma foldM_pushMigratedMember {A} (g : A → M MigrationReporter MigratedMember)
    (l : list (N * A)) (acc parts : list IntersectionPart)
    (r r' : MigrationReporter) :
  foldM (λ intersectionTypes flowMember,
           bind flowMember.2
             (λ m, ret (pushMigratedMember intersectionTypes m)))
        ((λ p, (p.1, g p.2)) <$> l) acc r = (Ok parts, r') →
  ∃ migrated,
    Forall2 (λ x m, ∃ r1 r2, g x r1 = (Ok m, r2)) l.*2 migrated ∧
    parts = foldl pushMigratedMember acc migrated.
Proof.
  revert acc r. induction l as [|x l IH]; intros acc r; simpl.
  - intros [= <- _]. exists []. by split; [constructor|].
  - intros H. apply bind_Ok_inv in H as (acc' & r1 & Hx & Hl).
    apply bind_Ok_inv in Hx as (m & r2 & Hm & [= <- <-]).
    destruct (IH _ _ Hl) as (migrated & Hall & ->).
    exists (m :: migrated). split; [|done].
    constructor; [by exists r, r2 | done].
Qed.

Lemma pushMigratedMember_literal (parts : list IntersectionPart)
    (members own : list TSTypeElement) :
  foldl pushMigratedMember (parts ++ [literal members]) (OwnMember <$> own) =
  parts ++ [literal (members ++ own)].
Proof.
  revert members. induction own as [|e own IH]; intros members; simpl.
  - by rewrite app_nil_r.
  - rewrite last_snoc, length_app. simpl.
    replace (pred (length parts + 1)) with (length parts + 0)%nat by lia.
    rewrite insert_app_r. simpl. rewrite IH.
    by rewrite <- (assoc_L (++)).
Qed.

Lemma piecesOf_own (own : list TSTypeElement) :
  piecesOf (OwnMember <$> own) = literalOf own.
Proof.
  unfold piecesOf. destruct own as [|e own]; [done|].
  cbn [fmap list_fmap foldl pushMigratedMember last].
  apply (pushMigratedMember_literal [] [e] own).
Qed.

Lemma piecesOf_spread (migrated : list MigratedMember) (tsArgument : TSType)
    (own : list TSTypeElement) :
  piecesOf (migrated ++ SpreadArgument tsArgument :: (OwnMember <$> own)) =
  piecesOf migrated ++ reference tsArgument :: literalOf own.
Proof.
  unfold piecesOf. rewrite foldl_app.
  cbn [foldl pushMigratedMember].
  set (parts := foldl pushMigratedMember [] migrated).
  destruct own as [|e own]; [done|].
  cbn [fmap list_fmap foldl pushMigratedMember].
  rewrite last_snoc.
  rewrite (pushMigratedMember_literal (parts ++ [reference tsArgument])
             [e] own).
  by rewrite <- (assoc_L (++)).
Qed.

(** An object type migrates to the type of the pieces of its migrated
    members. *)
Lemma migrateType_object_pieces (filePath : string)
    (properties : list ObjectTypeMember)
    (indexers callProperties internalSlots : option (list ObjectTypeMember))
    (exact : bool) (r r' : MigrationReporter) (ts : TSType) :
  migrateType filePath
    (ObjectTypeAnnotation properties indexers callProperties internalSlots
       exact) r = (Ok ts, r') →
  ∃ migrated,
    Forall2 (λ flowMember m,
               ∃ r1 r2, migrateFlowMember filePath flowMember r1 = (Ok m, r2))
      (sortedFlowMembers properties indexers callProperties internalSlots)
      migrated ∧
    ts = typeOfIntersectionParts (piecesOf migrated).
Proof.
  rewrite migrateType_object. intros H.
  apply bind_Ok_inv in H as (parts & r1 & Hparts & [= <- _]).
  assert ((λ flowMember,
             (line (start (memberLoc flowMember)),
              migrateFlowMember filePath flowMember)) <$>
          flowMembersOf properties indexers callProperties internalSlots =
          (λ p : N * ObjectTypeMember,
             (p.1, migrateFlowMember filePath p.2)) <$>
          ((λ flowMember,
              (line (start (memberLoc flowMember)), flowMember)) <$>
           flowMembersOf properties indexers callProperties internalSlots))
    as Heq.
  { by rewrite <- list_fmap_compose. }
  rewrite Heq, sortByLine_fmap in Hparts.
  apply foldM_pushMigratedMember in Hparts as (migrated & Hall & ->).
  by exists migrated.
Qed.

(** Members that are not spreads migrate to members of one literal. *)
Lemma migrateFlowMember_own (filePath : string)
    (flowMembers : list ObjectTypeMember) (migrated : list MigratedMember) :
  Forall (λ flowMember, isSpreadProperty flowMember = false) flowMembers →
  Forall2 (λ flowMember m,
             ∃ r1 r2, migrateFlowMember filePath flowMember r1 = (Ok m, r2))
    flowMembers migrated →
  ∃ members,
    migrated = OwnMember <$> members ∧
    Forall2 (λ flowMember tsMember,
               ∃ r1 r2, migrateObjectMember filePath flowMember r1 =
                        (Ok tsMember, r2))
      flowMembers members.
Proof.
  intros Hspread Hall.
  induction Hall as [|flowMember m l l' (r1 & r2 & Hm) _ IH].
  - exists []. by split; [|constructor].
  - apply Forall_cons in Hspread as [Hx Hspread].
    destruct (IH Hspread) as (members & -> & Hmembers).
    assert (∃ tsMember, m = OwnMember tsMember ∧
                        migrateObjectMember filePath flowMember r1 =
                        (Ok tsMember, r2)) as (tsMember & -> & Hown).
    { unfold migrateFlowMember in Hm.
      destruct flowMember; try done;
        apply bind_Ok_inv in Hm as (tsMember & ? & Hown & [= <- <-]);
        by eexists. }
    exists (tsMember :: members). split; [done|].
    constructor; [by exists r1, r2 | done].
Qed.

Lemma sortedFlowMembers_Permutation (properties : list ObjectTypeMember)
    (indexers callProperties internalSlots : option (list ObjectTypeMember)) :
  sortedFlowMembers properties indexers callProperties internalSlots ≡ₚ
  flowMembersOf properties indexers callProperties internalSlots.
Proof.
  unfold sortedFlowMembers. rewrite sortByLine_Permutation.
  rewrite <- list_fmap_compose. by rewrite list_fmap_id.
Qed.

(** C8, as amended. An indexer whose key is not [string] or [number]
    becomes [h.ObjectMap<K, V>] exactly when it is the only member of its
    piece of the object type.  The pieces are the runs of members, sorted
    by line, that the spreads cut the object type into: an object type
    migrates to the type of the pieces of its migrated members; a spread
    ends a piece and the members after it make the next; a piece whose
    only member is an index signature keyed by something else than
    [string] or [number] becomes [h.ObjectMap] of the key and value types,
    and any other piece is an object literal type with its members as they
    are.  An indexer migrates to an index signature keyed by its migrated
    key type, which is [string] or [number] only for those keys.  So an
    object type whose only member is such an indexer migrates to
    [h.ObjectMap<K, V>], and an object type without spreads that has an
    indexer beside other members migrates to an object literal type that
    holds the index signature. *)
Theorem sole_indexer_becomes_ObjectMap (filePath : string) :
  (∀ (id : option string) (key value : FlowType)
     (variance : option VarianceKind) (loc : SourceLocation)
     (callProperties internalSlots : option (list ObjectTypeMember))
     (exact : bool) (r r1 r2 : MigrationReporter) (tsKey tsValue : TSType),
     default [] callProperties = [] → default [] internalSlots = [] →
     key ≠ StringTypeAnnotation → key ≠ NumberTypeAnnotation →
     migrateType filePath key
       (when (isMinusVariance variance)
          (objectPropertyWithMinusVariance filePath loc) r).2 =
       (Ok tsKey, r1) →
     migrateType filePath value r1 = (Ok tsValue, r2) →
     migrateType filePath
       (ObjectTypeAnnotation []
          (Some [ObjectTypeIndexer id key value variance false loc])
          callProperties internalSlots exact) r =
     (Ok (ObjectMap tsKey tsValue), r2)) ∧
  (∀ (properties : list ObjectTypeMember)
     (indexers callProperties internalSlots : option (list ObjectTypeMember))
     (exact : bool) (r r' : MigrationReporter) (ts : TSType),
     migrateType filePath
       (ObjectTypeAnnotation properties indexers callProperties
          internalSlots exact) r = (Ok ts, r') →
     ∃ migrated,
       Forall2 (λ flowMember m,
                  ∃ r1 r2,
                    migrateFlowMember filePath flowMember r1 = (Ok m, r2))
         (sortedFlowMembers properties indexers callProperties
            internalSlots)
         migrated ∧
       ts = typeOfIntersectionParts (piecesOf migrated)) ∧
  (∀ (migrated : list MigratedMember) (tsArgument : TSType)
     (own : list TSTypeElement),
     piecesOf (OwnMember <$> own) = literalOf own ∧
     piecesOf (migrated ++ SpreadArgument tsArgument :: (OwnMember <$> own)) =
     piecesOf migrated ++ reference tsArgument :: literalOf own) ∧
  (∀ members : list TSTypeElement,
     (∀ name optional indexType rest valueType readonly,
        members =
          [TSIndexSignature
             (TSIdentifier name optional (Some indexType) :: rest)
             valueType readonly] →
        isStringOrNumberKeyword indexType = false →
        typeOfIntersectionPart (literal members) =
        ObjectMap indexType valueType) ∧
     ((∀ name optional indexType rest valueType readonly,
         members =
           [TSIndexSignature
              (TSIdentifier name optional (Some indexType) :: rest)
              valueType readonly] →
         isStringOrNumberKeyword indexType = true) →
      typeOfIntersectionPart (literal members) = TSTypeLiteral members)) ∧
  (∀ (id : option string) (key value : FlowType)
     (variance : option VarianceKind) (static : bool) (loc : SourceLocation)
     (r r' : MigrationReporter) (tsMember : TSTypeElement),
     migrateObjectMember filePath
       (ObjectTypeIndexer id key value variance static loc) r =
       (Ok tsMember, r') →
     ∃ tsKey tsValue r1 r2,
       migrateType filePath key r1 = (Ok tsKey, r2) ∧
       migrateType filePath value r2 = (Ok tsValue, r') ∧
       tsMember =
         TSIndexSignature [TSIdentifier (default "key" id) None (Some tsKey)]
           tsValue (readonlyOfVariance variance) ∧
       (isStringOrNumberKeyword tsKey = true ↔
        key = StringTypeAnnotation ∨ key = NumberTypeAnnotation)) ∧
  (∀ (properties : list ObjectTypeMember)
     (indexers callProperties internalSlots : option (list ObjectTypeMember))
     (exact : bool) (r r' : MigrationReporter) (ts : TSType),
     Forall (λ flowMember, isSpreadProperty flowMember = false)
       (flowMembersOf properties indexers callProperties internalSlots) →
     length (flowMembersOf properties indexers callProperties
               internalSlots) ≠ 1%nat →
     migrateType filePath
       (ObjectTypeAnnotation properties indexers callProperties
          internalSlots exact) r = (Ok ts, r') →
     ∃ members,
       ts = TSTypeLiteral members ∧
       Forall2 (λ flowMember tsMember,
                  ∃ r1 r2,
                    migrateObjectMember filePath flowMember r1 =
                    (Ok tsMember, r2))
         (sortedFlowMembers properties indexers callProperties
            internalSlots)
         members).
Proof.
  split_and!.
  - intros id key value variance loc callProperties internalSlots exact
      r r1 r2 tsKey tsValue Hcall Hslots Hstring Hnumber Hkey Hvalue.
    rewrite migrateType_object. unfold flowMembersOf.
    rewrite Hcall, Hslots. simpl. unfold bind.
    destruct (when (isMinusVariance variance)
                (objectPropertyWithMinusVariance filePath loc) r)
      as [[[]|e] r0] eqn:Hwhen.
    2: { by destruct (isMinusVariance variance). }
    simpl in Hkey. rewrite Hkey, Hvalue. unfold ret. simpl.
    destruct (isStringOrNumberKeyword tsKey) eqn:Hk; [|done].
    destruct (migrateType_keyword _ _ _ _ _ Hkey Hk); done.
  - intros. by eapply migrateType_object_pieces.
  - intros migrated tsArgument own.
    split; [apply piecesOf_own | apply piecesOf_spread].
  - intros members. split.
    + intros name optional indexType rest valueType readonly -> Hk.
      simpl. by rewrite Hk.
    + intros Hkey. simpl.
      destruct members as [|e members]; [done|].
      destruct e as [| |parameters valueType ro]; try by destruct members.
      destruct parameters as [|[name optional [indexType|]|] ps];
        try by destruct members.
      destruct members; [|done].
      by rewrite (Hkey _ _ _ _ _ _ eq_refl).
  - intros id key value variance static loc r r' tsMember H.
    simpl in H. apply bind_Ok_inv in H as ([] & r1 & _ & H).
    destruct static; [done|].
    apply bind_Ok_inv in H as (tsKey & r2 & Hkey & H).
    apply bind_Ok_inv in H as (tsValue & r3 & Hvalue & [= <- <-]).
    exists tsKey, tsValue, r1, r2. split_and!; [done..|].
    split.
    + by apply (migrateType_keyword _ _ _ _ _ Hkey).
    + intros [-> | ->]; by injection Hkey as <- _.
  - intros properties indexers callProperties internalSlots exact r r' ts
      Hspread Hlen H.
    apply migrateType_object_pieces in H as (migrated & Hall & ->).
    assert (Forall (λ flowMember, isSpreadProperty flowMember = false)
              (sortedFlowMembers properties indexers callProperties
                 internalSlots)) as Hsorted.
    { by rewrite sortedFlowMembers_Permutation. }
    destruct (migrateFlowMember_own _ _ _ Hsorted Hall)
      as (members & -> & Hmembers).
    exists members. split; [|done].
    rewrite piecesOf_own.
    assert (length members ≠ 1%nat) as Hlen'.
    { rewrite <- (Forall2_length _ _ _ Hmembers).
      by rewrite sortedFlowMembers_Permutation. }
    destruct members as [|e [|e' members]]; [done | done |].
    unfold literalOf, typeOfIntersectionParts. cbn [fmap list_fmap].
    unfold typeOfIntersectionPart.
    by destruct e as [| |[|[? ? [?|]|] ?] ? ?].
Qed.

(** The object type [{[k: UserId]: string}]. *)
Lemma sole_indexer_becomes_ObjectMap_witness :
  let here : SourceLocation :=
    {| start := {| line := 1; column := 9 |};
       end_ := {| line := 1; column := 28 |} |} in
  let UserId := GenericTypeAnnotation (FIdentifier "UserId") None in
  migrateType "a.js"
    (ObjectTypeAnnotation []
       (Some [ObjectTypeIndexer (Some "k") UserId StringTypeAnnotation None
                false here])
       None None false) newMigrationReporter =
  (Ok (TSTypeReference (TSQualifiedName (TSIdentifierName "h") "ObjectMap")
         (Some [TSTypeReference (TSIdentifierName "UserId") None;
                TSStringKeyword])),
   newMigrationReporter).
Proof.
  intros here UserId.
  destruct (sole_indexer_becomes_ObjectMap "a.js") as [H _].
  apply (H (Some "k") UserId StringTypeAnnotation None here None None false
           newMigrationReporter newMigrationReporter newMigrationReporter);
    try reflexivity; discriminate.
Defined.

(** The object type [{foo: number, ...T, [k: UserId]: string}]: the spread
    cuts it into three pieces, and the indexer, alone in the last one,
    becomes [h.ObjectMap<UserId, string>]. *)
Lemma indexer_after_spread_example :
  let here (c : N) : SourceLocation :=
    {| start := {| line := 1; column := c |};
       end_ := {| line := 1; column := c + 10 |} |} in
  let UserId := GenericTypeAnnotation (FIdentifier "UserId") None in
  let T := GenericTypeAnnotation (FIdentifier "T") None in
  migrateType "a.js"
    (ObjectTypeAnnotation
       [ObjectTypeProperty (KeyIdentifier "foo") NumberTypeAnnotation None
          (Some init) false false false false (here 1%N);
        ObjectTypeSpreadProperty T (here 14%N)]
       (Some [ObjectTypeIndexer (Some "k") UserId StringTypeAnnotation None
                false (here 20%N)])
       None None false) newMigrationReporter =
  (Ok (TSIntersectionType
         [TSTypeLiteral
            [TSPropertySignature (KeyIdentifier "foo") TSNumberKeyword false
               false None];
          TSParenthesizedType (TSTypeReference (TSIdentifierName "T") None);
          ObjectMap (TSTypeReference (TSIdentifierName "UserId") None)
            TSStringKeyword]),
   newMigrationReporter).
Proof. reflexivity. Qed.

(** A union with a member [any], a primitive and a function type. *)
Lemma migrateType_union_witness :
  let types :=
    [AnyTypeAnnotation; StringTypeAnnotation;
     FunctionTypeAnnotation None [] None VoidTypeAnnotation] in
  migrateType "a.js" (UnionTypeAnnotation types) newMigrationReporter =
  (Ok (TSUnionType
         [TSAnyKeyword; TSStringKeyword;
          TSParenthesizedType (TSFunctionType None [] TSVoidKeyword)]),
   newMigrationReporter) ∧
  TSUnionType
    [TSAnyKeyword; TSStringKeyword;
     TSParenthesizedType (TSFunctionType None [] TSVoidKeyword)] ≠
  TSAnyKeyword.
Proof.
  intros types. split; [reflexivity|].
  destruct (migrateType_union "a.js" types newMigrationReporter)
    as (_ & _ & H).
  eapply H. reflexivity.
Defined.


(** The object type [{foo: number, [k: UserId]: string}]: the indexer stays
    an index signature keyed by [UserId]. *)
Lemma indexer_beside_property_counterexample :
  let here (l : N) : SourceLocation :=
    {| start := {| line := l; column := 2 |};
       end_ := {| line := l; column := 20 |} |} in
  let UserId := GenericTypeAnnotation (FIdentifier "UserId") None in
  let object :=
    ObjectTypeAnnotation
      [ObjectTypeProperty (KeyIdentifier "foo") NumberTypeAnnotation None
         (Some init) false false false false (here 2%N)]
      (Some [ObjectTypeIndexer (Some "k") UserId StringTypeAnnotation None
               false (here 3%N)])
      None None false in
  let migrated :=
    TSTypeLiteral
      [TSPropertySignature (KeyIdentifier "foo") TSNumberKeyword false false
         None;
       TSIndexSignature
         [TSIdentifier "k" None
            (Some (TSTypeReference (TSIdentifierName "UserId") None))]
         TSStringKeyword None] in
  migrateType "a.js" object newMigrationReporter =
    (Ok migrated, newMigrationReporter) ∧
  hasUnsupportedIndexSignature migrated = true ∧
  ∀ typeName typeParameters,
    migrated ≠ TSTypeReference typeName typeParameters.
Proof. intros here UserId object migrated. by split_and!. Qed.

(** ** Casts *)

Section CastProperties.
Variable filePath : string.

(** C1, as amended. A cast is resolved by exactly one of four direct
    strategies or by the safe cast.  A cast of a cast to [any] becomes an
    [as] cast of the inner expression to the outer type, except for the
    value of an object property inside [createReactClass()], where the
    inner [as any] is kept between parentheses.  Otherwise a cast to
    [any] becomes [x as any]; a string or number literal cast to its own
    literal type becomes [expr as const]; a cast of a complex literal
    becomes an [as] cast; every other cast becomes a call of [u.cast]
    with the migrated type as its type argument.  Nothing is stated of a
    cast whose expression is a cast to [Object] or [Function]. *)
Theorem TypeCastExpression_resolution (parentPath : option NodePath)
    (hasBindingU : bool) (expression : Expression) (T : FlowType) :
  let run :=
    TypeCastExpression_visitor filePath parentPath hasBindingU expression T in
  let asCast (e : Expression) : M TraversalState Expression :=
    bind (liftReporter (migrateType filePath T))
      (λ ts, ret (TSAsExpression e ts)) in
  (∀ inner, expression = TypeCastExpression inner AnyTypeAnnotation →
     isCreateReactClassProperty parentPath
       (TypeCastExpression expression T) = false →
     run = asCast inner) ∧
  (∀ inner, expression = TypeCastExpression inner AnyTypeAnnotation →
     isCreateReactClassProperty parentPath
       (TypeCastExpression expression T) = true →
     run = asCast (ParenthesizedExpression
                     (TSAsExpression inner TSAnyKeyword))) ∧
  (isNestedUnsoundCast expression = false → T = AnyTypeAnnotation →
   ∀ st, run st = (Ok (TSAsExpression expression TSAnyKeyword), st)) ∧
  (isNestedUnsoundCast expression = false → T ≠ AnyTypeAnnotation →
   isSelfLiteralCast expression T = true →
   run = ret (TSAsExpression expression
                (TSTypeReference (TSIdentifierName "const") None))) ∧
  (isNestedUnsoundCast expression = false → T ≠ AnyTypeAnnotation →
   isSelfLiteralCast expression T = false →
   isComplexLiteral expression = true →
   run = asCast expression) ∧
  (isNestedUnsoundCast expression = false → T ≠ AnyTypeAnnotation →
   isSelfLiteralCast expression T = false →
   isComplexLiteral expression = false →
   run =
   bind (importUtils hasBindingU)
     (λ u, bind (liftReporter (migrateType filePath T))
             (λ ts, ret (CallExpression
                           (MemberExpression u (Identifier "cast"))
                           [expression] (Some [ts]))))).
Proof.
  intros run asCast.
  assert (∀ T', T' ≠ AnyTypeAnnotation → isAnyTypeAnnotation T' = false)
    as Hany by (by intros []).
  assert (isNestedUnsoundCast expression = false →
          run =
          if isAnyTypeAnnotation T then asCast expression
          else if isSelfLiteralCast expression T then
            ret (TSAsExpression expression
                   (TSTypeReference (TSIdentifierName "const") None))
          else if isComplexLiteral expression then asCast expression
          else
            bind (importUtils hasBindingU)
              (λ u, bind (liftReporter (migrateType filePath T))
                      (λ ts, ret (CallExpression
                                    (MemberExpression u (Identifier "cast"))
                                    [expression] (Some [ts]))))) as Hrest.
  { intros Hnested. subst run. unfold TypeCastExpression_visitor.
    destruct expression; try reflexivity.
    simpl in Hnested. apply orb_false_iff in Hnested as [Hinner Hgeneric].
    assert (isUnsoundInnerAnnotation typeAnnotation = false) as ->.
    { destruct typeAnnotation as
        [| | | | | | |[name|] [l|]| | | | | | | | | | | | | | | |];
        try done. }
    reflexivity. }
  assert (∀ inner, expression = TypeCastExpression inner AnyTypeAnnotation →
          run =
          if isCreateReactClassProperty parentPath
               (TypeCastExpression expression T)
          then asCast (ParenthesizedExpression
                         (TSAsExpression inner TSAnyKeyword))
          else asCast inner) as Hcast.
  { intros inner ->. subst run asCast.
    unfold TypeCastExpression_visitor, isCreateReactClassProperty.
    cbv zeta. cbn [isUnsoundInnerAnnotation].
    match goal with |- (if ?b then _ else _) = _ => destruct b end;
      reflexivity. }
  split_and!.
  - intros inner Hinner Hctx. by rewrite (Hcast inner Hinner), Hctx.
  - intros inner Hinner Hctx. by rewrite (Hcast inner Hinner), Hctx.
  - intros Hnested -> [r u]. by rewrite Hrest.
  - intros Hnested HT Hself. by rewrite Hrest, Hany, Hself.
  - intros Hnested HT Hself Hlit. by rewrite Hrest, Hany, Hself, Hlit.
  - intros Hnested HT Hself Hlit. by rewrite Hrest, Hany, Hself, Hlit.
Qed.
End CastProperties.

(** The four casts [((x: any): Foo)], [(x: any)], [('ok': 'ok')] and
    [(someFunctionCall(): Foo)]. *)
Lemma TypeCastExpression_resolution_witness :
  let Foo := GenericTypeAnnotation (FIdentifier "Foo") None in
  let tsFoo := TSTypeReference (TSIdentifierName "Foo") None in
  let st := {| reporter := newMigrationReporter; shouldImportUtils := false |} in
  let x := Identifier "x" in
  let call := CallExpression (Identifier "someFunctionCall") [] None in
  TypeCastExpression_visitor "a.js" None false
    (TypeCastExpression x AnyTypeAnnotation) Foo st =
    (Ok (TSAsExpression x tsFoo), st) ∧
  TypeCastExpression_visitor "a.js" None false x AnyTypeAnnotation st =
    (Ok (TSAsExpression x TSAnyKeyword), st) ∧
  TypeCastExpression_visitor "a.js" None false (StringLiteral "ok")
    (StringLiteralTypeAnnotation "ok") st =
    (Ok (TSAsExpression (StringLiteral "ok")
           (TSTypeReference (TSIdentifierName "const") None)), st) ∧
  TypeCastExpression_visitor "a.js" None false call Foo st =
    (Ok (CallExpression
           (MemberExpression (Identifier "u") (Identifier "cast"))
           [call] (Some [tsFoo])),
     {| reporter := newMigrationReporter; shouldImportUtils := true |}).
Proof.
  intros Foo tsFoo st x call. split_and!.
  - pose proof (TypeCastExpression_resolution "a.js" None false
                  (TypeCastExpression x AnyTypeAnnotation) Foo) as H.
    cbv zeta in H. destruct H as (H & _).
    rewrite (H x); reflexivity.
  - pose proof (TypeCastExpression_resolution "a.js" None false x
                  AnyTypeAnnotation) as H.
    cbv zeta in H. destruct H as (_ & _ & H & _).
    apply H; reflexivity.
  - pose proof (TypeCastExpression_resolution "a.js" None false
                  (StringLiteral "ok") (StringLiteralTypeAnnotation "ok")) as H.
    cbv zeta in H. destruct H as (_ & _ & _ & H & _).
    rewrite H; [reflexivity | reflexivity | discriminate | reflexivity].
  - pose proof (TypeCastExpression_resolution "a.js" None false call Foo)
      as H.
    cbv zeta in H. destruct H as (_ & _ & _ & _ & _ & H).
    rewrite H; [reflexivity | reflexivity | discriminate | reflexivity
               | reflexivity].
Defined.

(** The cast [((x: any): Foo)] as the value of a property of the object
    given to [createReactClass()]: the inner cast is kept. *)
Lemma cast_in_createReactClass_counterexample :
  let Foo := GenericTypeAnnotation (FIdentifier "Foo") None in
  let tsFoo := TSTypeReference (TSIdentifierName "Foo") None in
  let st := {| reporter := newMigrationReporter; shouldImportUtils := false |} in
  let x := Identifier "x" in
  let parentPath :=
    Some (MkNodePath (OtherNode "ObjectProperty")
      (Some (MkNodePath (ExpressionNode (ObjectExpression []))
        (Some (MkNodePath
                 (ExpressionNode
                    (CallExpression (Identifier "createReactClass")
                       [ObjectExpression []] None))
                 None))))) in
  TypeCastExpression_visitor "a.js" parentPath false
    (TypeCastExpression x AnyTypeAnnotation) Foo st =
    (Ok (TSAsExpression
           (ParenthesizedExpression (TSAsExpression x TSAnyKeyword)) tsFoo),
     st) ∧
  TSAsExpression (ParenthesizedExpression (TSAsExpression x TSAnyKeyword))
    tsFoo ≠ TSAsExpression x tsFoo.
Proof. intros Foo tsFoo st x parentPath. by split. Qed.

(** The cast [((x: Object): Foo)], which the comment in the visitor lists
    with [((x: any): Foo)]: the test for [Object] and [Function] asks for
    type parameters, so the cast goes to [u.cast]. *)
Lemma cast_of_Object_cast_example :
  let Foo := GenericTypeAnnotation (FIdentifier "Foo") None in
  let tsFoo := TSTypeReference (TSIdentifierName "Foo") None in
  let st := {| reporter := newMigrationReporter; shouldImportUtils := false |} in
  let inner :=
    TypeCastExpression (Identifier "x")
      (GenericTypeAnnotation (FIdentifier "Object") None) in
  TypeCastExpression_visitor "a.js" None false inner Foo st =
    (Ok (CallExpression
           (MemberExpression (Identifier "u") (Identifier "cast"))
           [inner] (Some [tsFoo])),
     {| reporter := newMigrationReporter; shouldImportUtils := true |}).
Proof. reflexivity. Qed.

(** ** Optional parameters *)

Lemma exitParams_exitFrom (reversed sofar : list Param) (optional : bool) :
  exitParams optional reversed sofar =
  (foldl (λ acc param,
            let '(optional', param') := exitParam acc.1 param in
            (optional', param' :: acc.2))
         (optional, sofar) reversed).2.
Proof.
  revert optional sofar. induction reversed as [|param l IH];
    intros optional sofar; simpl; [done|].
  destruct (exitParam optional param) as [optional' param']. apply IH.
Qed.

(** The loop, which goes through the reversed list, read from the left. *)
Lemma FunctionDeclaration_exit_exitFrom (params : list Param) :
  FunctionDeclaration_exit params = (exitFrom params).2.
Proof.
  unfold FunctionDeclaration_exit. rewrite exitParams_exitFrom.
  f_equal. rewrite <- (rev_involutive params) at 2.
  generalize (rev params). intros l.
  induction l as [|param l IH] using rev_ind; [done|].
  rewrite foldl_app, rev_app_distr. simpl. rewrite <- IH.
  by destruct (foldl _ _ l).
Qed.

Lemma exitFrom_flag (params : list Param) :
  (exitFrom params).1 = forallb paramIsOptional params.
Proof.
  induction params as [|param l IH]; simpl; [done|].
  destruct (exitFrom l) as [optional sofar]. simpl in IH. subst optional.
  unfold exitParam.
  destruct (paramIsOptional param); simpl; [|done].
  by destruct (forallb paramIsOptional l).
Qed.

Lemma exitFrom_length (params : list Param) :
  length (exitFrom params).2 = length params.
Proof.
  induction params as [|param l IH]; simpl; [done|].
  destruct (exitFrom l) as [optional sofar].
  destruct (exitParam optional param). simpl in *. by rewrite IH.
Qed.

Lemma makeRequired_setOptional (o : option bool) (node : LVal) :
  makeRequired (setOptional o node) = makeRequired node.
Proof. by destruct node as [? ? ? [[]|] ?]. Qed.

Lemma makeRequired_unmarked (node : LVal) :
  isOptional (makeRequired node) = false.
Proof. by destruct node as [? ? ? [[]|] ?]. Qed.

Lemma requireParam_unmarked (param : Param) :
  isMarkedOptional (requireParam param) = false.
Proof.
  destruct param; simpl; rewrite makeRequired_unmarked; apply andb_false_r.
Qed.

(** An optional parameter in front of a parameter that is not optional is
    made required. *)
Lemma exitParam_demotes (param : Param) :
  paramIsOptional param = true →
  exitParam false param = (false, requireParam param).
Proof.
  intros H. unfold exitParam. rewrite H. simpl.
  destruct param as [node|left_ right_ a]; [done|].
  destruct (isIdentifier left_ && isOptional left_); [|done].
  simpl. by rewrite makeRequired_setOptional.
Qed.

Lemma exitParam_required (optional : bool) (param : Param) :
  paramIsOptional param = false → exitParam optional param = (false, param).
Proof.
  intros H. unfold exitParam. rewrite H. simpl. by destruct param.
Qed.

(** While every parameter to the right is optional, an optional parameter
    stays optional. *)
Lemma exitParam_keeps (param : Param) :
  paramIsOptional param = true →
  ∃ param', exitParam true param = (true, param') ∧
            paramIsOptional param' = true.
Proof.
  intros H. unfold exitParam. rewrite H. simpl.
  destruct param as [node|left_ right_ a]; [by eexists|].
  destruct (isIdentifier left_ && isOptional left_); by eexists.
Qed.

Lemma exitFrom_required_suffix (pre rest : list Param) :
  Forall (λ p, paramIsOptional p = true) pre →
  forallb paramIsOptional rest = false →
  exitFrom (pre ++ rest) = (false, (requireParam <$> pre) ++ (exitFrom rest).2).
Proof.
  intros Hpre Hrest. induction Hpre as [|p pre Hp _ IH]; simpl.
  - rewrite <- Hrest, <- exitFrom_flag. by destruct (exitFrom rest).
  - rewrite IH. by rewrite exitParam_demotes.
Qed.

Lemma exitFrom_all_required (params : list Param) :
  Forall (λ p, paramIsOptional p = false) params →
  (exitFrom params).2 = params.
Proof.
  induction 1 as [|p l Hp _ IH]; simpl; [done|].
  destruct (exitFrom l) as [optional sofar]. simpl in IH. subst sofar.
  by rewrite exitParam_required.
Qed.

Lemma exitFrom_all_optional (params : list Param) :
  forallb paramIsOptional params = true →
  Forall (λ p, paramIsOptional p = true) (exitFrom params).2.
Proof.
  induction params as [|p l IH]; simpl; [constructor|].
  intros [Hp Hl]%andb_true_iff.
  pose proof (exitFrom_flag l) as Hflag. rewrite Hl in Hflag.
  destruct (exitFrom l) as [optional sofar]. simpl in *. subst optional.
  destruct (exitParam_keeps p Hp) as (p' & -> & Hp').
  constructor; auto.
Qed.

Lemma exitFrom_marked (param : Param) (params : list Param) :
  ∀ param' sofar, (exitFrom (param :: params)).2 = param' :: sofar →
  isMarkedOptional param' = true →
  forallb paramIsOptional params = true.
Proof.
  intros param' sofar. simpl.
  pose proof (exitFrom_flag params) as Hflag.
  destruct (exitFrom params) as [optional sofar']. simpl in Hflag.
  subst optional.
  destruct (forallb paramIsOptional params); [done|].
  destruct (paramIsOptional param) eqn:Hp.
  - rewrite exitParam_demotes by done. intros [= <- _].
    by rewrite requireParam_unmarked.
  - rewrite exitParam_required by done. intros [= <- _].
    destruct param; simpl in *; congruence.
Qed.

(** C3, as amended. When the parameters that carry an absence marker are
    followed by parameters that do not, none of them is left optional: each
    loses its mark and, where it has a type, gets [undefined] joined to it,
    and the parameters that follow are untouched.  In every rewritten list
    no parameter marked optional stands before a parameter that is neither
    optional nor has a default. *)
Theorem FunctionDeclaration_exit_optional :
  (∀ pre rest : list Param,
     Forall (λ p, paramIsOptional p = true) pre → rest ≠ [] →
     Forall (λ p, paramIsOptional p = false) rest →
     FunctionDeclaration_exit (pre ++ rest) = (requireParam <$> pre) ++ rest ∧
     Forall (λ p, isMarkedOptional p = false)
       (FunctionDeclaration_exit (pre ++ rest))) ∧
  (∀ (params : list Param) (i j : nat) (p q : Param),
     (i < j)%nat →
     FunctionDeclaration_exit params !! i = Some p →
     FunctionDeclaration_exit params !! j = Some q →
     isMarkedOptional p = true → paramIsOptional q = true).
Proof.
  split.
  - intros pre rest Hpre Hne Hrest.
    assert (forallb paramIsOptional rest = false) as Hflag.
    { destruct rest as [|p rest]; [done|].
      apply Forall_cons in Hrest as [Hp _]. simpl. by rewrite Hp. }
    assert (FunctionDeclaration_exit (pre ++ rest) =
            (requireParam <$> pre) ++ rest) as Heq.
    { rewrite FunctionDeclaration_exit_exitFrom.
      rewrite exitFrom_required_suffix by done. simpl.
      by rewrite exitFrom_all_required. }
    split; [exact Heq|]. rewrite Heq. apply Forall_app. split.
    + apply Forall_fmap, Forall_forall. intros p _.
      apply requireParam_unmarked.
    + eapply Forall_impl; [exact Hrest|]. intros p Hp.
      destruct p; simpl in *; [exact Hp | done].
  - intros params i j p q Hij. rewrite !FunctionDeclaration_exit_exitFrom.
    revert i j Hij. induction params as [|param l IH]; intros i j Hij Hi Hj Hp.
    { simpl in Hi. by rewrite lookup_nil in Hi. }
    destruct j as [|j]; [lia|].
    destruct (exitFrom (param :: l)).2 as [|param' sofar] eqn:Hout;
      [by rewrite lookup_nil in Hi|].
    assert (sofar = (exitFrom l).2) as ->.
    { simpl in Hout. destruct (exitFrom l) as [o d].
      destruct (exitParam o param). by injection Hout as _ <-. }
    destruct i as [|i].
    + injection Hi as ->.
      pose proof (exitFrom_marked _ _ _ _ Hout Hp) as Hall.
      apply exitFrom_all_optional in Hall.
      rewrite Forall_forall in Hall. apply Hall.
      by eapply list_elem_of_lookup_2.
    + apply (IH i j); [lia | done | done | done].
Qed.

(** The lists [function f(x?: T, y: U)] and
    [function f(a: A, x?: T, y?: U)]. *)
Lemma FunctionDeclaration_exit_optional_witness :
  let here : SourceLocation :=
    {| start := {| line := 1; column := 11 |};
       end_ := {| line := 1; column := 12 |} |} in
  let ref (name : string) := TSTypeReference (TSIdentifierName name) None in
  let param (name : string) (optional : option bool) (type : string) :=
    Pattern {| node_type := "Identifier"; node_name := name;
               node_optional := optional;
               node_typeAnnotation := Some (TSTypeAnnotation (ref type));
               node_loc := here |} in
  let x := param "x" (Some true) "T" in
  let y := param "y" None "U" in
  FunctionDeclaration_exit ([x] ++ [y]) = (requireParam <$> [x]) ++ [y] ∧
  paramIsOptional (param "y" (Some true) "U") = true.
Proof.
  intros here ref param x y.
  destruct FunctionDeclaration_exit_optional as [Hprefix Horder].
  split.
  - apply Hprefix; [by repeat constructor | done | by repeat constructor].
  - apply (Horder [param "a" None "A"; x; param "y" (Some true) "U"]
             1%nat 2%nat x); [lia | reflexivity | reflexivity | reflexivity].
Defined.

(** The list [function f(x?: T, y: U)]: [x] is optional before [y], which
    is not, and does not stay marked optional. *)
Lemma optional_before_required_counterexample :
  let here : SourceLocation :=
    {| start := {| line := 1; column := 11 |};
       end_ := {| line := 1; column := 12 |} |} in
  let ref (name : string) := TSTypeReference (TSIdentifierName name) None in
  let param (optional : option bool) (type : TSType) (name : string) :=
    Pattern {| node_type := "Identifier"; node_name := name;
               node_optional := optional;
               node_typeAnnotation := Some (TSTypeAnnotation type);
               node_loc := here |} in
  let x := param (Some true) (ref "T") "x" in
  let y := param None (ref "U") "y" in
  paramIsOptional x = true ∧ paramIsOptional y = false ∧
  FunctionDeclaration_exit [x; y] =
    [param None (TSUnionType [ref "T"; TSUndefinedKeyword]) "x"; y] ∧
  ∀ p, FunctionDeclaration_exit [x; y] !! 0%nat = Some p →
       isMarkedOptional p = false.
Proof.
  intros here ref param x y. split_and!; try reflexivity.
  intros p [= <-]. reflexivity.
Qed.

(** ** The primary process *)

Lemma batchCount_0 : batchCount 0 = 0%nat.
Proof. reflexivity. Qed.

Lemma batchCount_pop (n : nat) :
  (0 < n)%nat → batchCount n = Datatypes.S (batchCount (n - BATCH `min` n)).
Proof.
  intros Hn. unfold batchCount, BATCH.
  destruct (decide (n ≤ 50)%nat) as [Hle|Hgt].
  - rewrite Nat.min_r, Nat.sub_diag by done.
    change ((0 + (50 - 1)) `div` 50)%nat with 0%nat.
    symmetry. apply (Nat.div_unique _ _ _ (n - 1)%nat); lia.
  - rewrite Nat.min_l by lia.
    replace (n + (50 - 1))%nat with ((n - 50 + (50 - 1)) + 1 * 50)%nat by lia.
    rewrite Nat.div_add by done. lia.
Qed.

Lemma popBatch_remaining (paths : list string) :
  match popBatch paths with
  | (None, _) => paths = []
  | (Some batch, remaining) =>
      paths ≠ [] ∧
      length remaining = (length paths - BATCH `min` length paths)%nat ∧
      length batch = (BATCH `min` length paths)%nat ∧
      paths = remaining ++ rev batch
  end.
Proof.
  destruct paths as [|f paths]; [done|]. unfold popBatch.
  split_and!; [done| | |].
  - rewrite length_take. lia.
  - rewrite length_rev, length_drop. lia.
  - by rewrite rev_involutive, take_drop.
Qed.

(** As many workers are spawned as there are execution units, or batches if
    there are fewer. *)
Lemma spawnWorkers_length (n : nat) (paths : list string)
    (spawned : list WorkerSession) :
  length (spawnWorkers n paths spawned).2 =
  (length spawned + n `min` batchCount (length paths))%nat.
Proof.
  revert paths spawned. induction n as [|n IH]; intros paths spawned; simpl.
  - lia.
  - pose proof (popBatch_remaining paths) as Hpop.
    destruct (popBatch paths) as [[batch|] remaining].
    + destruct Hpop as (Hne & Hlen & _).
      rewrite IH, length_app, Hlen. cbn [length].
      rewrite (batchCount_pop (length paths))
        by (destruct paths; [done | simpl; lia]).
      lia.
    + subst paths. cbn [snd length]. rewrite batchCount_0. lia.
Qed.

Lemma runPrimaryAsync_workers (CPUS : nat) (shuffled : list string) :
  length (workers (runPrimaryAsync CPUS shuffled)) =
  (CPUS `min` batchCount (length shuffled))%nat ∧
  workerCount (runPrimaryAsync CPUS shuffled) = CPUS ∧
  reports (runPrimaryAsync CPUS shuffled) = [] ∧
  finished (runPrimaryAsync CPUS shuffled) = None ∧
  Forall (λ w, isTerminated w = false)
    (workers (runPrimaryAsync CPUS shuffled)).
Proof.
  unfold runPrimaryAsync.
  pose proof (spawnWorkers_length CPUS shuffled []) as Hlen.
  assert (∀ n paths spawned,
            Forall (λ w, isTerminated w = false) spawned →
            Forall (λ w, isTerminated w = false)
              (spawnWorkers n paths spawned).2) as Hfresh.
  { induction n as [|n IH]; intros paths spawned Hs; simpl; [done|].
    destruct (popBatch paths) as [[batch|] remaining]; [|done].
    apply IH, Forall_app. split; [done|]. by repeat constructor. }
  specialize (Hfresh CPUS shuffled [] (Forall_nil_2 _)).
  destruct (spawnWorkers CPUS shuffled []) as [remaining spawned].
  simpl in *. by split_and!.
Qed.

Lemma countTerminated_insert (ws : list WorkerSession) (i : nat)
    (w w' : WorkerSession) :
  ws !! i = Some w →
  (countTerminated (<[i := w']> ws) + (if isTerminated w then 1 else 0) =
   countTerminated ws + (if isTerminated w' then 1 else 0))%nat.
Proof.
  revert i. induction ws as [|w0 ws IH]; intros i Hi; [done|].
  destruct i as [|i]; simpl in *.
  - injection Hi as ->. destruct (isTerminated w), (isTerminated w'); lia.
  - specialize (IH i Hi). lia.
Qed.

Lemma countTerminated_le (ws : list WorkerSession) :
  (countTerminated ws ≤ length ws)%nat.
Proof.
  induction ws as [|w ws IH]; simpl; [done|]. destruct (isTerminated w); lia.
Qed.

Lemma countTerminated_all (ws : list WorkerSession) :
  Forall (λ w, status w = Terminated) ws → countTerminated ws = length ws.
Proof.
  induction 1 as [|w ws Hw _ IH]; simpl; [done|].
  unfold isTerminated. by rewrite Hw, IH.
Qed.

Lemma countTerminated_fresh (ws : list WorkerSession) :
  Forall (λ w, isTerminated w = false) ws → countTerminated ws = 0%nat.
Proof. induction 1 as [|w ws Hw _ IH]; simpl; [done|]. by rewrite Hw. Qed.

(** What a step keeps: the number of workers, [workerCount], and one report
    for each worker that was killed.  A step either leaves the reports as
    they are or adds one, and only then may [finish()] run. *)
Lemma step_invariant (p p' : Primary) :
  step p p' →
  length (reports p) = countTerminated (workers p) →
  workerCount p' = workerCount p ∧
  length (workers p') = length (workers p) ∧
  length (reports p') = countTerminated (workers p') ∧
  ((reports p' = reports p ∧ finished p' = finished p) ∨
   (length (reports p') = Datatypes.S (length (reports p)) ∧
    (length (reports p') ≤ length (workers p))%nat ∧
    finished p' =
    if decide (length (reports p') = workerCount p)
    then Some (mergeReports (reports p')) else finished p)).
Proof.
  intros Hstep Hinv. destruct Hstep as [p i w batch Hi Hw|p i w data Hi Hw].
  - unfold onMessage, sendBatch.
    destruct (popBatch (flowFilePaths p)) as [[nextBatch|] remaining]; simpl;
      (split_and!; [done | by rewrite length_insert | | by left]).
    + pose proof (countTerminated_insert (workers p) i w
                    {| status := AwaitingBatchResult nextBatch;
                       timeoutArmed := true |} Hi) as H.
      unfold isTerminated in H at 1 2. rewrite Hw in H. simpl in H. lia.
    + pose proof (countTerminated_insert (workers p) i w
                    {| status := AwaitingReport; timeoutArmed := false |} Hi)
        as H.
      unfold isTerminated in H at 1 2. rewrite Hw in H. simpl in H. lia.
  - pose proof (countTerminated_insert (workers p) i w
                  {| status := Terminated; timeoutArmed := false |} Hi) as H.
    unfold isTerminated in H at 1 2. rewrite Hw in H. simpl in H.
    pose proof (countTerminated_le
                  (<[i := {| status := Terminated; timeoutArmed := false |}]>
                     (workers p))) as Hle.
    rewrite length_insert in Hle.
    simpl. rewrite length_app. simpl.
    split_and!; [done | by rewrite length_insert | lia |].
    right. split_and!; [lia | lia | done].
Qed.

Lemma reachable_invariant (p0 p : Primary) :
  reachable p0 p →
  length (reports p0) = countTerminated (workers p0) →
  workerCount p = workerCount p0 ∧
  length (workers p) = length (workers p0) ∧
  length (reports p) = countTerminated (workers p).
Proof.
  induction 1 as [p|p p' p'' Hstep _ IH]; intros Hinv; [done|].
  destruct (step_invariant _ _ Hstep Hinv) as (Hc & Hw & Hr & _).
  destruct (IH Hr) as (? & ? & ?). split_and!; congruence.
Qed.

(** When fewer workers are spawned than [workerCount], [finish()] never
    runs. *)
Lemma reachable_unfinished (p0 p : Primary) :
  reachable p0 p →
  length (reports p0) = countTerminated (workers p0) →
  (length (workers p0) < workerCount p0)%nat → finished p0 = None →
  finished p = None.
Proof.
  induction 1 as [p|p p' p'' Hstep _ IH]; intros Hinv Hfew Hnone; [done|].
  destruct (step_invariant _ _ Hstep Hinv) as (Hc & Hw & Hr & Hf).
  apply IH; [done | congruence |].
  destruct Hf as [[_ ->]|(_ & Hle & ->)]; [done|].
  rewrite decide_False; [done | lia].
Qed.

(** When as many workers are spawned as [workerCount], [finish()] has run
    with all the reports once they all arrived, and not before. *)
Lemma reachable_finished (p0 p : Primary) :
  reachable p0 p →
  length (reports p0) = countTerminated (workers p0) →
  length (workers p0) = workerCount p0 →
  (finished p0 =
   if decide (length (reports p0) = workerCount p0)
   then Some (mergeReports (reports p0)) else None) →
  finished p =
  if decide (length (reports p) = workerCount p)
  then Some (mergeReports (reports p)) else None.
Proof.
  induction 1 as [p|p p' p'' Hstep _ IH]; intros Hinv Hall Hfin; [done|].
  destruct (step_invariant _ _ Hstep Hinv) as (Hc & Hw & Hr & Hf).
  apply IH; [done | congruence |].
  rewrite Hc. destruct Hf as [[-> ->]|(Hlen & Hle & ->)]; [done|].
  destruct (decide (length (reports p') = workerCount p)); [done|].
  rewrite Hfin. rewrite decide_False; [done | lia].
Qed.

(** C4. With fewer batches than execution units, fewer workers are spawned
    than [workerCount], the number the listener compares the number of
    reports with: whatever the workers answer and in whatever order,
    [finish()] has not run, also once every spawned worker has delivered
    its report. *)
Theorem finish_never_runs_with_few_batches (CPUS : nat)
    (shuffled : list string) (p : Primary) :
  (batchCount (length shuffled) < CPUS)%nat →
  reachable (runPrimaryAsync CPUS shuffled) p →
  length (workers p) = batchCount (length shuffled) ∧
  length (reports p) = countTerminated (workers p) ∧
  finished p = None.
Proof.
  intros Hfew Hreach.
  destruct (runPrimaryAsync_workers CPUS shuffled)
    as (Hlen & Hcount & Hreports & Hfinished & Hfresh).
  assert (length (reports (runPrimaryAsync CPUS shuffled)) =
          countTerminated (workers (runPrimaryAsync CPUS shuffled))) as Hinv.
  { by rewrite Hreports, countTerminated_fresh. }
  destruct (reachable_invariant _ _ Hreach Hinv) as (_ & Hw & Hr).
  split_and!; [lia | done |].
  apply (reachable_unfinished _ _ Hreach Hinv); [lia | done].
Qed.

(** With at least as many batches as execution units, [finish()] has run on
    the reports of all the workers once they have all reported. *)
Lemma finish_runs_with_enough_batches (CPUS : nat) (shuffled : list string)
    (p : Primary) :
  (0 < CPUS)%nat → (CPUS ≤ batchCount (length shuffled))%nat →
  reachable (runPrimaryAsync CPUS shuffled) p →
  allReported p →
  length (reports p) = CPUS ∧ finished p = Some (mergeReports (reports p)).
Proof.
  intros Hpos Henough Hreach Hall.
  destruct (runPrimaryAsync_workers CPUS shuffled)
    as (Hlen & Hcount & Hreports & Hfinished & Hfresh).
  assert (length (reports (runPrimaryAsync CPUS shuffled)) =
          countTerminated (workers (runPrimaryAsync CPUS shuffled))) as Hinv.
  { by rewrite Hreports, countTerminated_fresh. }
  destruct (reachable_invariant _ _ Hreach Hinv) as (Hc & Hw & Hr).
  assert (length (reports p) = CPUS) as Hn.
  { rewrite Hr, countTerminated_all by done. lia. }
  split; [done|].
  rewrite (reachable_finished _ _ Hreach Hinv).
  - rewrite decide_True; [done | congruence].
  - lia.
  - rewrite Hfinished, Hreports, Hcount. simpl.
    rewrite decide_False; [done | lia].
Qed.

(** Four execution units and three files, which make one batch: the only
    worker asks for more, is asked for its report, and reports. *)
Lemma finish_never_runs_with_few_batches_witness :
  let shuffled := ["a.js"; "b.js"; "c.js"] in
  let data := generateReport newMigrationReporter in
  let p :=
    onMessage 0 (report data)
      (onMessage 0 next (runPrimaryAsync 4 shuffled)) in
  reachable (runPrimaryAsync 4 shuffled) p ∧
  allReported p ∧ reports p = [data] ∧ finished p = None.
Proof.
  intros shuffled data p.
  assert (reachable (runPrimaryAsync 4 shuffled) p) as Hreach.
  { eapply rtc_l.
    { by eapply (step_next _ 0%nat _ ["c.js"; "b.js"; "a.js"]). }
    eapply rtc_l; [|apply rtc_refl].
    by eapply (step_report _ 0%nat). }
  split_and!; [exact Hreach | by repeat constructor | reflexivity |].
  apply (finish_never_runs_with_few_batches 4 shuffled p);
    [vm_compute; lia | exact Hreach].
Defined.

(** ** A failed query to Flow *)

Lemma Promise_all_rejected {A} (promises : list (result A)) :
  Exists (λ o, isRejected o = true) promises →
  ∃ e, Promise_all promises = Throw e.
Proof.
  induction promises as [|[a|e] l IH]; intros H.
  - by apply Exists_nil in H.
  - apply Exists_cons in H as [H|H]; [done|].
    destruct (IH H) as [e He]. exists e. simpl. by rewrite He.
  - by exists e.
Qed.

Section OracleFailure.
Variable parseTypeAlias : string → result FlowType.
Variable executeFlowTypeAtPos : string → SourceLocation → result string.
Variable recast_parse : string → result File.
Variable recast_print : File → string.
Variable filePath : string.

Lemma TypeAnnotation_visitor_loc (grandParentType : string)
    (parent parent' : LVal) (T : FlowType) (r r' : MigrationReporter) :
  TypeAnnotation_visitor filePath grandParentType parent T r =
    (Ok parent', r') →
  node_loc parent' = node_loc parent.
Proof.
  unfold TypeAnnotation_visitor.
  destruct (isIdentifier parent &&
            negb (String.eqb grandParentType "VariableDeclarator"));
    destruct T; cbn -[migrateType];
    repeat match goal with
           | |- context [if ?b then _ else _] => destruct b
           end;
    unfold bind; intros H;
    match type of H with
    | context [migrateType ?f ?a ?s] =>
        destruct (migrateType f a s) as [[?|?] ?]
    end; try done; by injection H as <- _.
Qed.

Lemma visitParam_inferredAt (functionType : string) (param param' : Param)
    (r r' : MigrationReporter) :
  visitParam filePath functionType param r = (Ok param', r') →
  inferredAt param' = inferredAt param.
Proof.
  unfold visitParam. destruct param as [node|left_ right_ a].
  - destruct (node_typeAnnotation node) as [[T|ts]|]; try by intros [= <- _].
    intros H. apply bind_Ok_inv in H as (node' & r1 & Hnode & [= <- _]).
    simpl. f_equal. by eapply TypeAnnotation_visitor_loc.
  - match goal with
    | |- context [node_typeAnnotation ?l] =>
        destruct (node_typeAnnotation l) as [[T|ts]|]
    end; try by intros [= <- _].
    intros H. by apply bind_Ok_inv in H as (node' & r1 & Hnode & [= <- _]).
Qed.

Lemma makeRequired_loc (node : LVal) :
  node_loc (makeRequired node) = node_loc node.
Proof. by destruct node as [? ? ? [[]|] ?]. Qed.

Lemma exitParam_inferredAt (optional : bool) (param : Param) :
  inferredAt (exitParam optional param).2 = inferredAt param.
Proof.
  unfold exitParam. destruct param as [node|left_ right_ a]; simpl.
  - destruct (negb (isIdentifier node && isOptional node)); [done|].
    destruct (negb optional); simpl; [|done]. by rewrite makeRequired_loc.
  - destruct (negb optional); simpl; [|by destruct (_ && _)].
    by destruct (_ && _).
Qed.

Lemma exitParams_inferredAt (reversed sofar : list Param) (optional : bool) :
  inferredAt <$> exitParams optional reversed sofar =
  (inferredAt <$> rev reversed) ++ (inferredAt <$> sofar).
Proof.
  revert optional sofar. induction reversed as [|param l IH];
    intros optional sofar; simpl; [done|].
  pose proof (exitParam_inferredAt optional param) as Hp.
  destruct (exitParam optional param) as [optional' param']. simpl in Hp.
  rewrite IH, fmap_app, fmap_cons, Hp. simpl.
  by rewrite <- app_assoc.
Qed.

Lemma FunctionDeclaration_exit_inferredAt (params : list Param) :
  inferredAt <$> FunctionDeclaration_exit params = inferredAt <$> params.
Proof.
  unfold FunctionDeclaration_exit.
  rewrite exitParams_inferredAt, rev_involutive. simpl.
  by rewrite app_nil_r.
Qed.

Lemma mapM_visitParam_inferredAt (functionType : string)
    (params params' : list Param) (r r' : MigrationReporter) :
  mapM (visitParam filePath functionType) params r = (Ok params', r') →
  inferredAt <$> params' = inferredAt <$> params.
Proof.
  intros H%mapM_Forall2.
  induction H as [|p p' l l' (r1 & r2 & Hp) _ IH]; [done|].
  rewrite !fmap_cons, IH. f_equal. by eapply visitParam_inferredAt.
Qed.

Lemma annotateWithAny_inferredAt (params : list Param) :
  inferredAt <$> (annotateWithAny <$> params) = inferredAt <$> params.
Proof.
  rewrite <- list_fmap_compose. apply list_fmap_ext. intros _ p _. simpl.
  destruct p as [node|left_ right_ [a|]]; simpl; try done.
  by destruct (node_typeAnnotation node).
Qed.

(** The traversal keeps the place of every parameter, and the queries it
    starts are those for the unannotated identifiers. *)
Lemma visitDeclaration_queried (d d' : Declaration) (params : list Param)
    (started : list bool) (r r' : MigrationReporter) :
  queriedParams d = Some params →
  visitDeclaration filePath d r = (Ok (d', started), r') →
  started = needsInference <$> params ∧
  inferredAt <$> paramsOf d' = inferredAt <$> params.
Proof.
  intros Hq Hv. destruct d; try done; unfold queriedParams in Hq.
  - injection Hq as ->. simpl in Hv. unfold bind in Hv.
    destruct (mapM _ _ r) as [[params2|e] r1] eqn:Hm; [|done].
    injection Hv as <- <- _. split; [done|]. simpl.
    rewrite FunctionDeclaration_exit_inferredAt.
    rewrite (mapM_visitParam_inferredAt _ _ _ _ _ Hm).
    destruct (isTestFile filePath); [apply annotateWithAny_inferredAt|done].
  - injection Hq as ->. simpl in Hv. unfold bind in Hv.
    destruct (mapM _ _ r) as [[params2|e] r1] eqn:Hm; [|done].
    injection Hv as <- <- _. split; [done|]. simpl.
    by rewrite (mapM_visitParam_inferredAt _ _ _ _ _ Hm).
  - unfold visitDeclaration in Hv.
    destruct (isInsideCreateReactClass _) eqn:Hin; [|done].
    injection Hq as ->. unfold bind in Hv.
    destruct (mapM _ _ r) as [[params2|e] r1] eqn:Hm; [|done].
    injection Hv as <- <- _. split; [done|]. simpl.
    by rewrite (mapM_visitParam_inferredAt _ _ _ _ _ Hm).
Qed.

(** A query that fails rejects the promise of its parameter. *)
Lemma settleParams_rejected (started : list bool) (params : list Param)
    (r : MigrationReporter) (i : nat) (location : SourceLocation)
    (e : Error) :
  started !! i = Some true →
  (inferredAt <$> params) !! i = Some (Some location) →
  executeFlowTypeAtPos filePath location = Throw e →
  Exists (λ o, isRejected o = true)
    (settleParams parseTypeAlias executeFlowTypeAtPos filePath started
       params r).1.2.
Proof.
  intros Hs Hp He. revert started params r Hs Hp.
  induction i as [|i IH]; intros [|b started] [|param params] r Hs Hp;
    try done; simpl in *.
  - injection Hs as ->. destruct param as [node|? ? ?]; [|done].
    injection Hp as <-.
    unfold inferAnnotation, flowTypeAtPos. rewrite He.
    destruct (settleParams _ _ _ started params r) as [[rest outcomes] r2].
    simpl. by left.
  - specialize (IH started params).
    destruct b, param as [node|? ? ?].
    + destruct (inferAnnotation _ _ _ node r) as [[node' outcome] r1].
      specialize (IH r1 Hs Hp).
      destruct (settleParams _ _ _ started params r1)
        as [[rest outcomes] r2].
      simpl in *. by right.
    + specialize (IH r Hs Hp).
      by destruct (settleParams _ _ _ started params r)
        as [[rest outcomes] r2].
    + specialize (IH r Hs Hp).
      by destruct (settleParams _ _ _ started params r)
        as [[rest outcomes] r2].
    + specialize (IH r Hs Hp).
      by destruct (settleParams _ _ _ started params r)
        as [[rest outcomes] r2].
Qed.

Lemma settleDeclarations_rejected
    (visited : list (Declaration * list bool)) (r : MigrationReporter) :
  Exists (λ v, ∀ r1,
            Exists (λ o, isRejected o = true)
              (settleParams parseTypeAlias executeFlowTypeAtPos filePath
                 v.2 (paramsOf v.1) r1).1.2) visited →
  Exists (λ o, isRejected o = true)
    (settleDeclarations parseTypeAlias executeFlowTypeAtPos filePath
       visited r).1.2.
Proof.
  revert r. induction visited as [|[d started] visited IH]; intros r H.
  - by apply Exists_nil in H.
  - simpl. apply Exists_cons in H.
    pose proof (λ H, Promise_all_rejected
                       (settleParams parseTypeAlias executeFlowTypeAtPos
                          filePath started (paramsOf d) r).1.2 H) as Hall.
    destruct (settleParams _ _ _ started (paramsOf d) r)
      as [[params' outcomes] r1] eqn:Hsettle.
    specialize (IH r1).
    destruct (settleDeclarations _ _ _ visited r1)
      as [[file' promises] r2].
    simpl in *. destruct H as [H|H].
    + left. specialize (H r). rewrite Hsettle in H.
      by destruct (Hall H) as [e ->].
    + right. by apply IH.
Qed.

(** A query to Flow that fails rejects the promise of the migration: the
    error is printed and nothing is written for the file; the batch goes
    on with the files that follow.  After an answer that gives no type the
    function started for the parameter leaves the parameter as it is. *)
Lemma failed_query_is_fatal :
  (∀ (w : World) (fileText : string) (file : File) (d : Declaration)
     (params : list Param) (node : LVal) (e : Error),
     disk w !! filePath = Some fileText →
     recast_parse fileText = Ok file →
     d ∈ file → queriedParams d = Some params →
     Pattern node ∈ params →
     isIdentifier node = true → node_typeAnnotation node = None →
     executeFlowTypeAtPos filePath (node_loc node) = Throw e →
     ∃ e' r',
       processFile parseTypeAlias executeFlowTypeAtPos recast_parse
         recast_print w filePath = logError e' r' w) ∧
  (∀ (before after : list string) (w : World),
     processBatchAsync parseTypeAlias executeFlowTypeAtPos recast_parse
       recast_print (before ++ filePath :: after) w =
     processBatchAsync parseTypeAlias executeFlowTypeAtPos recast_parse
       recast_print after
       (processFile parseTypeAlias executeFlowTypeAtPos recast_parse
          recast_print
          (processBatchAsync parseTypeAlias executeFlowTypeAtPos
             recast_parse recast_print before w)
          filePath)) ∧
  (∀ (node : LVal) (r : MigrationReporter) (stdout : string),
     executeFlowTypeAtPos filePath (node_loc node) = Ok stdout →
     sanitize stdout = "(unknown)" ∨
     (100 ≤ String.length (sanitize stdout))%nat →
     inferAnnotation parseTypeAlias executeFlowTypeAtPos filePath node r =
     (node, Ok tt, r)).
Proof.
  split_and!.
  - intros w fileText file d params node e Hdisk Hparse Hd Hq Hnode
      Hident Hnone He.
    unfold processFile, readFile. rewrite Hdisk, Hparse.
    unfold migrateToTypeScript.
    destruct (mapM (visitDeclaration filePath) file (world_reporter w))
      as [[visited|e1] r1] eqn:Hvisit; [|by exists e1, r1].
    assert (Exists (λ o, isRejected o = true)
              (settleDeclarations parseTypeAlias executeFlowTypeAtPos
                 filePath visited r1).1.2) as Hrejected.
    { apply settleDeclarations_rejected.
      apply mapM_Forall2 in Hvisit.
      apply list_elem_of_lookup in Hd as [k Hk].
      destruct (Forall2_lookup_l _ _ _ _ _ Hvisit Hk)
        as ([d' started] & Hk' & ra & rb & Hv).
      apply Exists_exists. exists (d', started).
      split; [by eapply list_elem_of_lookup_2|].
      intros r2. simpl.
      destruct (visitDeclaration_queried _ _ _ _ _ _ Hq Hv) as [-> Hat].
      apply list_elem_of_lookup in Hnode as [i Hi].
      apply (settleParams_rejected _ _ _ i (node_loc node) e);
        [| |done].
      - rewrite list_lookup_fmap, Hi. simpl.
        by rewrite Hident, Hnone.
      - rewrite Hat, list_lookup_fmap, Hi. done. }
    destruct (settleDeclarations _ _ _ visited r1)
      as [[file' promises] r2].
    simpl in Hrejected.
    destruct (Promise_all_rejected _ Hrejected) as [e' ->].
    by exists e', r2.
  - intros before after w. unfold processBatchAsync.
    by rewrite foldl_app.
  - intros node r stdout Hexec Hanswer.
    unfold inferAnnotation, flowTypeAtPos, processFlowTypeAtPosStdout.
    rewrite Hexec. destruct Hanswer as [-> | Hlong]; [done|].
    destruct (String.eqb (sanitize stdout) "(unknown)"); [done|].
    by apply Nat.leb_le in Hlong as ->.
Qed.
End OracleFailure.

(** *** Answers that give no type *)

Lemma Promise_all_fulfilled {A} (promises : list (result A)) :
  Forall (λ o, isRejected o = false) promises →
  ∃ l, Promise_all promises = Ok l.
Proof.
  induction promises as [|[a|e] rest IH]; intros H.
  - by exists [].
  - apply Forall_cons in H as [_ H]. destruct (IH H) as [l Hl].
    exists (a :: l). simpl. by rewrite Hl.
  - by apply Forall_cons in H as [? _].
Qed.

Lemma withParams_paramsOf (d : Declaration) : withParams d (paramsOf d) = d.
Proof. by destruct d. Qed.

Section UnusableAnswers.
Variable parseTypeAlias : string → result FlowType.
Variable executeFlowTypeAtPos : string → SourceLocation → result string.
Variable filePath : string.

Hypothesis unusable :
  ∀ location, ∃ stdout,
    executeFlowTypeAtPos filePath location = Ok stdout ∧
    isUnusableAnswer stdout.

Lemma flowTypeAtPos_unusable (location : SourceLocation) :
  flowTypeAtPos parseTypeAlias executeFlowTypeAtPos filePath location =
  Ok None.
Proof.
  destruct (unusable location) as (stdout & Hexec & Hanswer).
  unfold flowTypeAtPos, processFlowTypeAtPosStdout. rewrite Hexec.
  destruct Hanswer as [-> | Hlong]; [done|].
  destruct (String.eqb (sanitize stdout) "(unknown)"); [done|].
  by apply Nat.leb_le in Hlong as ->.
Qed.

Lemma settleParams_unusable (started : list bool) (params : list Param)
    (r : MigrationReporter) :
  ∃ outcomes,
    settleParams parseTypeAlias executeFlowTypeAtPos filePath started
      params r = (params, outcomes, r) ∧
    Forall (λ o, isRejected o = false) outcomes.
Proof.
  revert params. induction started as [|b started IH]; intros params.
  - exists []. by destruct params.
  - destruct params as [|param params]; [exists []; by destruct b|].
    destruct (IH params) as (outcomes & Hrest & Hall).
    destruct b, param as [node|left_ right_ a]; simpl;
      try (exists outcomes; by rewrite Hrest).
    unfold inferAnnotation. rewrite flowTypeAtPos_unusable, Hrest.
    exists (Ok tt :: outcomes). split; [done | by constructor].
Qed.

Lemma settleDeclarations_unusable (visited : list (Declaration * list bool))
    (r : MigrationReporter) :
  ∃ promises,
    settleDeclarations parseTypeAlias executeFlowTypeAtPos filePath visited
      r = (visited.*1, promises, r) ∧
    Forall (λ o, isRejected o = false) promises.
Proof.
  induction visited as [|[d started] visited IH]; [by exists []|].
  destruct IH as (promises & Hrest & Hall).
  destruct (settleParams_unusable started (paramsOf d) r)
    as (outcomes & Hparams & Houtcomes).
  destruct (Promise_all_fulfilled _ Houtcomes) as [l Hl].
  exists (Ok l :: promises). split; [|by constructor].
  simpl. rewrite Hparams, Hrest, Hl. by rewrite withParams_paramsOf.
Qed.

(** When no answer gives a type, the migration of the file is its
    traversal. *)
Lemma migrateToTypeScript_unusable (file : File) (r : MigrationReporter) :
  migrateToTypeScript parseTypeAlias executeFlowTypeAtPos filePath file r =
  match mapM (visitDeclaration filePath) file r with
  | (Ok visited, r1) => (Ok visited.*1, r1)
  | (Throw e, r1) => (Throw e, r1)
  end.
Proof.
  unfold migrateToTypeScript.
  destruct (mapM (visitDeclaration filePath) file r) as [[visited|e] r1];
    [|done].
  destruct (settleDeclarations_unusable visited r1)
    as (promises & -> & Hall).
  by destruct (Promise_all_fulfilled _ Hall) as [l ->].
Qed.
End UnusableAnswers.

(** *** What the traversal leaves on an unannotated identifier *)

Lemma exitFrom_lookup (params : list Param) (i : nat) (param : Param) :
  params !! i = Some param →
  ∃ optional, (exitFrom params).2 !! i = Some (exitParam optional param).2.
Proof.
  revert i. induction params as [|p params IH]; intros i Hi; [done|].
  simpl. destruct (exitFrom params) as [optional done_] eqn:Hrest.
  destruct (exitParam optional p) as [optional' p'] eqn:Hp.
  destruct i as [|i]; simpl in *.
  - injection Hi as ->. exists optional. by rewrite Hp.
  - by apply IH.
Qed.

Lemma visitParam_unannotated (filePath functionType : string) (node : LVal)
    (r : MigrationReporter) :
  node_typeAnnotation node = None ∨
  (∃ ts, node_typeAnnotation node = Some (TSTypeAnnotation ts)) →
  visitParam filePath functionType (Pattern node) r = (Ok (Pattern node), r).
Proof.
  intros [H | [ts H]]; unfold visitParam; by rewrite H.
Qed.

Lemma mapM_visitParam_lookup (filePath functionType : string)
    (params params' : list Param) (r r' : MigrationReporter) (i : nat)
    (node : LVal) :
  mapM (visitParam filePath functionType) params r = (Ok params', r') →
  params !! i = Some (Pattern node) →
  node_typeAnnotation node = None ∨
  (∃ ts, node_typeAnnotation node = Some (TSTypeAnnotation ts)) →
  params' !! i = Some (Pattern node).
Proof.
  intros H%mapM_Forall2 Hi Hnode.
  destruct (Forall2_lookup_l _ _ _ _ _ H Hi) as (p' & Hi' & r1 & r2 & Hp).
  rewrite visitParam_unannotated in Hp by done. by injection Hp as <- _.
Qed.

Lemma visitDeclaration_unannotated (filePath : string) (d d' : Declaration)
    (params : list Param) (started : list bool) (r r' : MigrationReporter)
    (i : nat) (node : LVal) :
  queriedParams d = Some params →
  visitDeclaration filePath d r = (Ok (d', started), r') →
  params !! i = Some (Pattern node) →
  isIdentifier node = true → node_typeAnnotation node = None →
  started !! i = Some true ∧
  ∃ node',
    paramsOf d' !! i = Some (Pattern node') ∧
    node_loc node' = node_loc node ∧
    node_typeAnnotation node' ∈ leftByTheTraversal filePath d.
Proof.
  intros Hq Hv Hi Hident Hnone.
  assert ((needsInference <$> params) !! i = Some true) as Hstarted.
  { rewrite list_lookup_fmap, Hi. simpl. by rewrite Hident, Hnone. }
  destruct d; try done; unfold queriedParams in Hq.
  - injection Hq as ->. simpl in Hv. unfold bind in Hv.
    destruct (mapM _ _ r) as [[params2|e] r1] eqn:Hm; [|done].
    injection Hv as <- <- _. split; [done|].
    cbn [paramsOf leftByTheTraversal].
    rewrite FunctionDeclaration_exit_exitFrom.
    destruct (isTestFile filePath).
    + assert (params2 !! i =
              Some (Pattern (setTypeAnnotation
                               (Some (TSTypeAnnotation TSAnyKeyword)) node)))
        as Hi2.
      { eapply mapM_visitParam_lookup; [exact Hm | | right; by eexists].
        rewrite list_lookup_fmap, Hi. simpl. by rewrite Hnone. }
      destruct (exitFrom_lookup _ _ _ Hi2) as [optional ->].
      unfold exitParam. cbn [paramIsOptional].
      destruct (negb (isIdentifier _ && isOptional _)); cbn [snd].
      { eexists. split_and!; [done | done |]. simpl. by left. }
      destruct (negb optional); cbn [snd].
      * eexists. split_and!; [done | done |]. simpl. right. by left.
      * eexists. split_and!; [done | done |]. simpl. by left.
    + assert (params2 !! i = Some (Pattern node)) as Hi2.
      { eapply mapM_visitParam_lookup; [exact Hm | done | by left]. }
      destruct (exitFrom_lookup _ _ _ Hi2) as [optional ->].
      unfold exitParam. cbn [paramIsOptional].
      destruct (negb (isIdentifier _ && isOptional _)); cbn [snd].
      { eexists. split_and!; [done | done |]. rewrite Hnone. by left. }
      destruct (negb optional); cbn [snd].
      * eexists. split_and!; [done | apply makeRequired_loc |].
        apply list_elem_of_singleton. unfold makeRequired.
        cbn [setOptional node_typeAnnotation]. by rewrite Hnone.
      * eexists. split_and!; [done | done |]. rewrite Hnone. by left.
  - injection Hq as ->. simpl in Hv. unfold bind in Hv.
    destruct (mapM _ _ r) as [[params2|e] r1] eqn:Hm; [|done].
    injection Hv as <- <- _. split; [done|].
    exists node. split_and!; [|done|rewrite Hnone; by left].
    eapply mapM_visitParam_lookup; [exact Hm | done | by left].
  - unfold visitDeclaration in Hv.
    destruct (isInsideCreateReactClass _) eqn:Hin; [|done].
    injection Hq as ->. unfold bind in Hv.
    destruct (mapM _ _ r) as [[params2|e] r1] eqn:Hm; [|done].
    injection Hv as <- <- _. split; [done|].
    exists node. split_and!; [|done|rewrite Hnone; by left].
    eapply mapM_visitParam_lookup; [exact Hm | done | by left].
Qed.




(** ** More on the primary process *)

Lemma insert_Permutation_delete {T} (l : list T) (i : nat) (x y : T) :
  l !! i = Some y → <[i:=x]> l ≡ₚ x :: delete i l.
Proof.
  intros Hi. rewrite insert_take_drop by (by eapply lookup_lt_Some).
  rewrite delete_take_drop. by rewrite <- Permutation_middle.
Qed.

Lemma swap_Permutation {T} (a : list T) (i j : nat) : swap a i j ≡ₚ a.
Proof.
  unfold swap. destruct (a !! i) as [x|] eqn:Hi; [|done].
  destruct (a !! j) as [y|] eqn:Hj; [|done].
  destruct (decide (i = j)) as [->|Hne].
  - assert (x = y) as -> by congruence.
    rewrite list_insert_insert_eq, list_insert_id; done.
  - assert (<[i:=y]> a !! j = Some y) as Hj'
      by (by rewrite list_lookup_insert_ne).
    etrans; [exact (insert_Permutation_delete _ j x y Hj')|].
    etrans; [|symmetry; exact (delete_Permutation a i x Hi)].
    constructor. apply (Permutation_cons_inv (a := y)).
    etrans; [symmetry; exact (delete_Permutation _ j y Hj')|].
    exact (insert_Permutation_delete a i y x Hi).
Qed.

Lemma shuffleFrom_Permutation {T} (random : nat → nat) (i : nat)
    (a : list T) :
  shuffleFrom random i a ≡ₚ a.
Proof.
  revert a. induction i as [|i IH]; intros a; simpl; [done|].
  by rewrite IH, swap_Permutation.
Qed.

Lemma swap_lookup {T} (a : list T) (i j : nat) (x y : T) :
  a !! i = Some x → a !! j = Some y →
  swap a i j !! i = Some y ∧ swap a i j !! j = Some x ∧
  ∀ k, k ≠ i → k ≠ j → swap a i j !! k = a !! k.
Proof.
  intros Hi Hj. unfold swap. rewrite Hi, Hj.
  pose proof (lookup_lt_Some _ _ _ Hi). pose proof (lookup_lt_Some _ _ _ Hj).
  split_and!.
  - destruct (decide (i = j)) as [->|Hne].
    + rewrite list_lookup_insert_eq by (by rewrite length_insert). congruence.
    + rewrite list_lookup_insert_ne by done. by rewrite list_lookup_insert_eq.
  - by rewrite list_lookup_insert_eq by (by rewrite length_insert).
  - intros k Hki Hkj. by rewrite !list_lookup_insert_ne.
Qed.

(** X1. [shuffle] rearranges: the result holds the elements of the array, each
    as many times, whatever is drawn.  The turn of index [i] puts the
    element drawn among the first [i + 1] in place [i], and the turns that
    follow leave it there. *)
Theorem shuffle_rearranges {T} (random : nat → nat) (a : list T) :
  (∀ i, random i ≤ i)%nat →
  shuffle random a ≡ₚ a ∧
  length (shuffle random a) = length a ∧
  ∀ x, a !! (length a - 1)%nat = Some x →
       shuffle random a !! (length a - 1)%nat =
       if decide (length a = 1)%nat then Some x
       else a !! random (length a - 1)%nat.
Proof.
  intros Hrandom.
  assert (shuffle random a ≡ₚ a) as Hperm
    by apply shuffleFrom_Permutation.
  split_and!; [done | by rewrite Hperm |].
  assert (∀ i (b : list T) k, (i < k)%nat →
            shuffleFrom random i b !! k = b !! k) as Hkeep.
  { induction i as [|i IH]; intros b k Hk; simpl; [done|].
    rewrite IH by lia.
    destruct (b !! Datatypes.S i) as [x|] eqn:Hi;
      [|unfold swap; by rewrite Hi].
    destruct (lookup_lt_is_Some_2 b (random (Datatypes.S i))) as [y Hj].
    { pose proof (lookup_lt_Some _ _ _ Hi). specialize (Hrandom (Datatypes.S i)). lia. }
    destruct (swap_lookup b _ _ x y Hi Hj) as (_ & _ & Hother).
    apply Hother; [lia|]. specialize (Hrandom (Datatypes.S i)). lia. }
  intros x Hlast. unfold shuffle.
  destruct (length a - 1)%nat as [|n] eqn:Hn.
  - simpl. rewrite Hlast. case_decide; [done|].
    destruct a as [|? [|? ?]]; simpl in *; try done; lia.
  - simpl. rewrite Hkeep by lia.
    destruct (lookup_lt_is_Some_2 a (random (Datatypes.S n))) as [y Hj].
    { specialize (Hrandom (Datatypes.S n)). lia. }
    destruct (swap_lookup a _ _ x y Hlast Hj) as (-> & _ & _).
    rewrite decide_False by lia. done.
Qed.

(** Three files and the draws [1], in the turn of index [2], and [0]. *)
Lemma shuffle_rearranges_witness :
  let random := λ i : nat, (i - 1)%nat in
  (∀ i, random i ≤ i)%nat ∧
  shuffle random ["a.js"; "b.js"; "c.js"] = ["c.js"; "a.js"; "b.js"] ∧
  shuffle random ["a.js"; "b.js"; "c.js"] ≡ₚ ["a.js"; "b.js"; "c.js"].
Proof.
  intros random.
  assert (∀ i, random i ≤ i)%nat as Hrandom by (intros i; unfold random; lia).
  split_and!; [exact Hrandom | reflexivity |].
  apply (shuffle_rearranges random ["a.js"; "b.js"; "c.js"] Hrandom).
Defined.

Lemma heldFiles_app (ws1 ws2 : list WorkerSession) :
  heldFiles (ws1 ++ ws2) = heldFiles ws1 ++ heldFiles ws2.
Proof. unfold heldFiles. by rewrite fmap_app, concat_app. Qed.

Lemma heldFiles_lookup (ws : list WorkerSession) (i : nat)
    (w : WorkerSession) :
  ws !! i = Some w → heldFiles ws ≡ₚ heldBatch w ++ heldFiles (delete i ws).
Proof.
  intros Hi. rewrite <- (take_drop_middle ws i w Hi) at 1.
  rewrite delete_take_drop, !heldFiles_app.
  change (heldFiles (w :: drop (Datatypes.S i) ws))
    with (heldBatch w ++ heldFiles (drop (Datatypes.S i) ws)).
  by rewrite Permutation_app_swap_app.
Qed.

Lemma heldFiles_insert (ws : list WorkerSession) (i : nat)
    (w w' : WorkerSession) :
  ws !! i = Some w →
  heldFiles (<[i:=w']> ws) ≡ₚ heldBatch w' ++ heldFiles (delete i ws).
Proof.
  intros Hi. rewrite insert_take_drop by (by eapply lookup_lt_Some).
  rewrite delete_take_drop, !heldFiles_app.
  change (heldFiles (w' :: drop (Datatypes.S i) ws))
    with (heldBatch w' ++ heldFiles (drop (Datatypes.S i) ws)).
  by rewrite Permutation_app_swap_app.
Qed.

Lemma popBatch_Some (paths batch remaining : list string) :
  popBatch paths = (Some batch, remaining) →
  paths = remaining ++ rev batch ∧ (0 < length batch ≤ BATCH)%nat.
Proof.
  intros Hpop. pose proof (popBatch_remaining paths) as H.
  rewrite Hpop in H. destruct H as (Hne & _ & Hlen & Heq).
  split; [done|]. rewrite Hlen. unfold BATCH.
  destruct paths; [done|]. cbn [length]. lia.
Qed.

(** The loop that spawns the workers loses no file: every file is still
    to be handed out or in the first batch of a worker. *)
Lemma spawnWorkers_files (n : nat) (paths : list string)
    (spawned : list WorkerSession) :
  (spawnWorkers n paths spawned).1 ++ heldFiles (spawnWorkers n paths spawned).2
    ≡ₚ paths ++ heldFiles spawned ∧
  (Forall sessionInvariant spawned →
   Forall sessionInvariant (spawnWorkers n paths spawned).2).
Proof.
  revert paths spawned. induction n as [|n IH]; intros paths spawned; simpl.
  { done. }
  destruct (popBatch paths) as [[batch|] remaining] eqn:Hpop; [|done].
  apply popBatch_Some in Hpop as [-> Hlen].
  destruct (IH remaining
              (spawned ++ [{| status := AwaitingBatchResult batch;
                              timeoutArmed := true |}])) as [Hfiles Hinv].
  split.
  - rewrite Hfiles, heldFiles_app. unfold heldFiles at 2. simpl.
    rewrite app_nil_r, <- (Permutation_rev batch).
    rewrite <- !(assoc_L (++)). f_equiv. apply Permutation_app_comm.
  - intros Hs. apply Hinv, Forall_app. split; [done|].
    apply Forall_singleton. by split.
Qed.

(** A message from a worker never adds a file: the files still to be
    handed out and those with the workers after the message are among
    those before it. *)
Lemma step_files (p p' : Primary) :
  step p p' →
  flowFilePathsCopy p' = flowFilePathsCopy p ∧
  flowFilePaths p' ++ heldFiles (workers p') ⊆+
    flowFilePaths p ++ heldFiles (workers p) ∧
  (Forall sessionInvariant (workers p) →
   Forall sessionInvariant (workers p')).
Proof.
  intros Hstep. destruct Hstep as [p i w batch Hi Hw|p i w data Hi Hw].
  - unfold onMessage, sendBatch.
    destruct (popBatch (flowFilePaths p)) as [[nextBatch|] remaining] eqn:Hpop;
      simpl.
    + apply popBatch_Some in Hpop as [Hpaths Hlen]. split_and!; [done| |].
      * rewrite Hpaths, (heldFiles_insert _ _ _ _ Hi),
          (heldFiles_lookup _ _ _ Hi).
        unfold heldBatch at 1. simpl.
        rewrite <- (Permutation_rev nextBatch), <- !(assoc_L (++)).
        apply submseteq_skips_l, submseteq_skips_l, submseteq_inserts_l.
        done.
      * intros Hs. apply Forall_insert; [done|]. by split.
    + split_and!; [done| |].
      * rewrite (heldFiles_insert _ _ _ _ Hi), (heldFiles_lookup _ _ _ Hi).
        apply submseteq_skips_l. unfold heldBatch at 1. simpl.
        by apply submseteq_inserts_l.
      * intros Hs. by apply Forall_insert.
  - simpl. split_and!; [done| |].
    + rewrite (heldFiles_insert _ _ _ _ Hi), (heldFiles_lookup _ _ _ Hi).
      apply submseteq_skips_l. unfold heldBatch at 1. simpl.
      by apply submseteq_inserts_l.
    + intros Hs. by apply Forall_insert.
Qed.

Lemma reachable_files (p0 p : Primary) :
  reachable p0 p →
  flowFilePathsCopy p = flowFilePathsCopy p0 ∧
  flowFilePaths p ++ heldFiles (workers p) ⊆+
    flowFilePaths p0 ++ heldFiles (workers p0) ∧
  (Forall sessionInvariant (workers p0) →
   Forall sessionInvariant (workers p)).
Proof.
  induction 1 as [p|p p' p'' Hstep _ IH]; [done|].
  destruct (step_files _ _ Hstep) as (Hc & Hf & Hs).
  destruct IH as (Hc' & Hf' & Hs').
  split_and!; [congruence | by etrans | auto].
Qed.

Lemma runPrimaryAsync_files (CPUS : nat) (shuffled : list string) :
  flowFilePathsCopy (runPrimaryAsync CPUS shuffled) = shuffled ∧
  flowFilePaths (runPrimaryAsync CPUS shuffled) ++
    heldFiles (workers (runPrimaryAsync CPUS shuffled)) ≡ₚ shuffled ∧
  Forall sessionInvariant (workers (runPrimaryAsync CPUS shuffled)).
Proof.
  unfold runPrimaryAsync.
  destruct (spawnWorkers_files CPUS shuffled []) as [Hfiles Hinv].
  destruct (spawnWorkers CPUS shuffled []) as [remaining spawned].
  simpl in *. rewrite app_nil_r in Hfiles. split_and!; [done | done |].
  by apply Hinv.
Qed.



(** X3. As many workers are spawned as there are execution units, or batches
    if there are fewer, and none is added later.  At any time a worker
    that holds a batch holds between one and fifty files and the timer
    that warns about it is armed; the timer of a worker that was asked for
    its report, or was killed, is cleared. *)
Theorem worker_sessions (CPUS : nat) (shuffled : list string)
    (p : Primary) :
  reachable (runPrimaryAsync CPUS shuffled) p →
  length (workers p) = (CPUS `min` batchCount (length shuffled))%nat ∧
  Forall sessionInvariant (workers p).
Proof.
  intros Hreach.
  destruct (runPrimaryAsync_workers CPUS shuffled)
    as (Hlen & _ & Hreports & _ & Hfresh).
  assert (length (reports (runPrimaryAsync CPUS shuffled)) =
          countTerminated (workers (runPrimaryAsync CPUS shuffled))) as Hinv.
  { by rewrite Hreports, countTerminated_fresh. }
  destruct (reachable_invariant _ _ Hreach Hinv) as (_ & Hw & _).
  split; [congruence|].
  destruct (runPrimaryAsync_files CPUS shuffled) as (_ & _ & Hs0).
  destruct (reachable_files _ _ Hreach) as (_ & _ & Hs). auto.
Qed.

(** Two execution units and 120 files, after the first worker has asked
    for more twice. *)
Lemma worker_sessions_witness :
  let shuffled := pretty <$> seq 0 120 in
  let p := onMessage 0 next (onMessage 0 next (runPrimaryAsync 2 shuffled)) in
  reachable (runPrimaryAsync 2 shuffled) p ∧
  length (workers p) = 2%nat ∧
  Forall sessionInvariant (workers p).
Proof.
  intros shuffled p.
  assert (reachable (runPrimaryAsync 2 shuffled) p) as Hreach.
  { eapply rtc_l.
    { eapply (step_next _ 0%nat); reflexivity. }
    eapply rtc_l; [|apply rtc_refl].
    eapply (step_next _ 0%nat); reflexivity. }
  split; [exact Hreach|].
  apply (worker_sessions 2 shuffled p Hreach).
Defined.

Lemma countTerminated_full (ws : list WorkerSession) :
  countTerminated ws = length ws → Forall (λ w, status w = Terminated) ws.
Proof.
  induction ws as [|w ws IH]; intros Hlen; [done|].
  pose proof (countTerminated_le ws) as Hle. simpl in Hlen.
  unfold isTerminated in Hlen.
  destruct (status w) eqn:Hw; simpl in Hlen; try lia.
  constructor; [done|]. apply IH. lia.
Qed.

(** X4. With at least as many batches as execution units, [finish()] runs
    when the last report arrives and not before: the reports are merged,
    in the order they arrived, exactly when there are as many as execution
    units, which is when every worker has been killed. *)
Theorem finish_runs_with_the_last_report (CPUS : nat)
    (shuffled : list string) (p : Primary) :
  (0 < CPUS)%nat → (CPUS ≤ batchCount (length shuffled))%nat →
  reachable (runPrimaryAsync CPUS shuffled) p →
  finished p =
    (if decide (length (reports p) = CPUS)
     then Some (mergeReports (reports p)) else None) ∧
  (allReported p ↔ length (reports p) = CPUS).
Proof.
  intros Hpos Henough Hreach.
  destruct (runPrimaryAsync_workers CPUS shuffled)
    as (Hlen & Hcount & Hreports & Hfinished & Hfresh).
  assert (length (reports (runPrimaryAsync CPUS shuffled)) =
          countTerminated (workers (runPrimaryAsync CPUS shuffled))) as Hinv.
  { by rewrite Hreports, countTerminated_fresh. }
  destruct (reachable_invariant _ _ Hreach Hinv) as (Hc & Hw & Hr).
  split.
  - rewrite (reachable_finished _ _ Hreach Hinv).
    + by rewrite Hc, Hcount.
    + lia.
    + rewrite Hfinished, Hreports, Hcount. simpl.
      rewrite decide_False; [done | lia].
  - split.
    + intros Hall. rewrite Hr, countTerminated_all by done. lia.
    + intros Hn. apply countTerminated_full. lia.
Qed.

(** One execution unit and 60 files: the worker asks for more, again, and
    delivers its report. *)
Lemma finish_runs_with_the_last_report_witness :
  let shuffled := pretty <$> seq 0 60 in
  let data := generateReport newMigrationReporter in
  let p :=
    onMessage 0 (report data)
      (onMessage 0 next (onMessage 0 next (runPrimaryAsync 1 shuffled))) in
  reachable (runPrimaryAsync 1 shuffled) p ∧
  finished p = Some (mergeReports [data]) ∧
  allReported p.
Proof.
  intros shuffled data p.
  assert (reachable (runPrimaryAsync 1 shuffled) p) as Hreach.
  { eapply rtc_l.
    { eapply (step_next _ 0%nat); reflexivity. }
    eapply rtc_l.
    { eapply (step_next _ 0%nat); reflexivity. }
    eapply rtc_l; [|apply rtc_refl].
    eapply (step_report _ 0%nat); reflexivity. }
  assert (0 < 1)%nat as Hpos by lia.
  assert (1 ≤ batchCount (length shuffled))%nat as Henough
    by (vm_compute; lia).
  destruct (finish_runs_with_the_last_report 1 shuffled p Hpos Henough Hreach)
    as [Hfinished Hall].
  split_and!; [exact Hreach | exact Hfinished | by apply Hall].
Defined.

(** ** The primary process of the ES-modules migration *)

Lemma popBatch_rev (l : list string) :
  l ≠ [] → popBatch (rev l) = (Some (take BATCH l), rev (drop BATCH l)).
Proof.
  intros Hne. unfold popBatch.
  destruct (rev l) as [|f fs] eqn:Hrev.
  { apply (f_equal length) in Hrev. rewrite length_rev in Hrev.
    by destruct l. }
  rewrite <- Hrev. clear f fs Hrev. rewrite length_rev.
  assert (length l - (length l - BATCH `min` length l) = BATCH `min` length l)%nat
    as Hk by lia.
  f_equal.
  - f_equal. rewrite skipn_rev, rev_involutive, Hk.
    destruct (decide (BATCH ≤ length l)%nat).
    + by rewrite Nat.min_l.
    + rewrite Nat.min_r by lia. by rewrite !take_ge by lia.
  - rewrite firstn_rev, Hk. f_equal.
    destruct (decide (BATCH ≤ length l)%nat).
    + by rewrite Nat.min_l.
    + rewrite Nat.min_r by lia. by rewrite !drop_ge by lia.
Qed.

(** X5. Because the list of files is reversed before the first batch is
    popped, the batches follow the listing: each batch is the next fifty
    files that are not in an ignored directory (or those that are left),
    in the order of the listing, and what remains is again a reversed
    list. *)
Theorem Modules_batches_follow_the_listing (IGNORED_DIRS : list string)
    (allJsFilePaths : list string) :
  let kept := rev (Modules_jsFilePaths IGNORED_DIRS allJsFilePaths) in
  (∀ filePath, filePath ∈ kept ↔
     filePath ∈ allJsFilePaths ∧
     ∀ ignoredDir, ignoredDir ∈ IGNORED_DIRS →
       startsWith filePath (ignoredDir +:+ "/") = false) ∧
  kept `sublist_of` allJsFilePaths ∧
  (kept ≠ [] →
   popBatch (Modules_jsFilePaths IGNORED_DIRS allJsFilePaths) =
   (Some (take BATCH kept), rev (drop BATCH kept))) ∧
  (∀ rest : list string, rest ≠ [] →
     popBatch (rev rest) = (Some (take BATCH rest), rev (drop BATCH rest))) ∧
  (kept = [] →
   popBatch (Modules_jsFilePaths IGNORED_DIRS allJsFilePaths) = (None, [])).
Proof.
  intros kept.
  assert (Modules_jsFilePaths IGNORED_DIRS allJsFilePaths = rev kept) as ->.
  { subst kept. by rewrite rev_involutive. }
  subst kept. unfold Modules_jsFilePaths.
  rewrite rev_involutive. split_and!.
  - intros filePath. rewrite list_elem_of_filter, forallb_forall.
    split.
    + intros [Hall Hin]. split; [done|].
      intros ignoredDir Hdir. apply negb_true_iff, Hall.
      by apply list_elem_of_In.
    + intros [Hin Hall]. split; [|done].
      intros ignoredDir Hdir. apply negb_true_iff, Hall.
      by apply list_elem_of_In.
  - apply sublist_filter.
  - apply popBatch_rev.
  - apply popBatch_rev.
  - by intros ->.
Qed.

(** Three files, one of them in an ignored directory. *)
Lemma Modules_batches_follow_the_listing_witness :
  let all := ["a.js"; "vendor/b.js"; "c.js"] in
  rev (Modules_jsFilePaths ["vendor"] all) = ["a.js"; "c.js"] ∧
  popBatch (Modules_jsFilePaths ["vendor"] all) = (Some ["a.js"; "c.js"], []).
Proof.
  intros all. split; [reflexivity|].
  destruct (Modules_batches_follow_the_listing ["vendor"] all)
    as (_ & _ & H & _).
  by apply H.
Defined.

(** ** Finding the files *)

Lemma append_empty_r (a : string) : a +:+ EmptyString = a.
Proof.
  induction a as [|c a IH]; [done|]. by rewrite append_cons, IH.
Qed.

Lemma append_assoc (a b c : string) : (a +:+ b) +:+ c = a +:+ b +:+ c.
Proof.
  induction a as [|ch a IH]; [by rewrite !append_nil|].
  by rewrite !append_cons, IH.
Qed.

Lemma splitLines_nonempty (s : string) : splitLines s ≠ [].
Proof.
  destruct s as [|c s]; simpl; [done|].
  destruct (Ascii.eqb c newline); [done|]. by destruct (splitLines s).
Qed.

Lemma splitLines_no_line_feed (s : string) :
  hasLineFeed s = false → splitLines s = [s].
Proof.
  induction s as [|c s IH]; simpl; [done|].
  destruct (Ascii.eqb c newline); [done|]. simpl. by intros ->%IH.
Qed.

Lemma splitLines_line_feed (s : string) :
  hasLineFeed s = true → ∃ l0 l1 rest, splitLines s = l0 :: l1 :: rest.
Proof.
  induction s as [|c s IH]; simpl; [done|].
  destruct (Ascii.eqb c newline); simpl.
  - intros _. pose proof (splitLines_nonempty s).
    destruct (splitLines s) as [|l1 rest]; [done|]. by exists EmptyString, l1, rest.
  - intros (l0 & l1 & rest & ->)%IH. by exists (String c l0), l1, rest.
Qed.

(** The pieces of a text made of two parts: the last piece of the first
    part and the first piece of the second are one piece. *)
Lemma splitLines_app (a c : string) (l0 : string) (rest : list string) :
  splitLines c = l0 :: rest →
  splitLines (a +:+ c) =
  removelast (splitLines a) ++
  (default EmptyString (last (splitLines a)) +:+ l0) :: rest.
Proof.
  intros Hc. induction a as [|ch a IH].
  - by rewrite append_nil.
  - rewrite append_cons. simpl. rewrite IH.
    pose proof (splitLines_nonempty a) as Hne.
    destruct (Ascii.eqb ch newline).
    + destruct (splitLines a) as [|p ps]; [done|]. done.
    + destruct (splitLines a) as [|p [|p' ps]]; [done| |].
      * simpl. by rewrite append_cons.
      * done.
Qed.

Section FindJsFilesProperties.
Variable path_join : string → string → string.
Variable rootDirectory : string.

(** The paths of the lines that name a JavaScript file. *)
Let jsFiles (lines : list string) : list string :=
  path_join rootDirectory <$>
    filter (λ line, endsWith line ".js" = true) lines.

Lemma jsFiles_app (l1 l2 : list string) :
  jsFiles (l1 ++ l2) = jsFiles l1 ++ jsFiles l2.
Proof. unfold jsFiles. by rewrite filter_app, fmap_app. Qed.

Lemma jsFiles_singleton (line : string) :
  jsFiles [line] =
  if endsWith line ".js" then [path_join rootDirectory line] else [].
Proof.
  unfold jsFiles. rewrite filter_cons, filter_nil.
  destruct (endsWith line ".js") eqn:Hjs.
  - by rewrite decide_True.
  - by rewrite decide_False.
Qed.

Lemma addChunkLines_rest (st : FindState) (lines : list string) :
  addChunkLines path_join rootDirectory false st lines =
  {| chunkLineBuffer := chunkLineBuffer st;
     filePaths := filePaths st ++ jsFiles (removelast lines) |}.
Proof.
  revert st. induction lines as [|line [|line' lines] IH]; intros st.
  - simpl. rewrite app_nil_r. by destruct st.
  - simpl. rewrite app_nil_r. by destruct st.
  - change (addChunkLines path_join rootDirectory false st
              (line :: line' :: lines))
      with (addChunkLines path_join rootDirectory false
              (addChunkLine path_join rootDirectory false st line)
              (line' :: lines)).
    rewrite IH. unfold addChunkLine. cbn [chunkLineBuffer filePaths].
    change (removelast (line :: line' :: lines))
      with (line :: removelast (line' :: lines)).
    change (line :: removelast (line' :: lines))
      with ([line] ++ removelast (line' :: lines)).
    rewrite jsFiles_app, jsFiles_singleton.
    destruct (endsWith line ".js") eqn:Hjs.
    + by rewrite <- (assoc_L (++)).
    + done.
Qed.

Lemma onData_line_feed (st : FindState) (chunk : string)
    (l0 l1 : string) (rest : list string) :
  splitLines chunk = l0 :: l1 :: rest →
  onData path_join rootDirectory st chunk =
  {| chunkLineBuffer := default EmptyString (last (l1 :: rest));
     filePaths :=
       filePaths st ++
       jsFiles ((chunkLineBuffer st +:+ l0) :: removelast (l1 :: rest)) |}.
Proof.
  intros Hlines. unfold onData. rewrite Hlines.
  change (addChunkLines path_join rootDirectory true st (l0 :: l1 :: rest))
    with (addChunkLines path_join rootDirectory false
            (addChunkLine path_join rootDirectory true st l0) (l1 :: rest)).
  rewrite addChunkLines_rest. unfold addChunkLine.
  cbn [chunkLineBuffer filePaths]. f_equal.
  change ((chunkLineBuffer st +:+ l0) :: removelast (l1 :: rest))
    with ([chunkLineBuffer st +:+ l0] ++ removelast (l1 :: rest)).
  rewrite jsFiles_app, jsFiles_singleton.
  destruct (endsWith (chunkLineBuffer st +:+ l0) ".js") eqn:Hjs.
  - by rewrite <- (assoc_L (++)).
  - done.
Qed.

Lemma last_removelast_cons {A} (x y : A) (l : list A) :
  last (x :: y :: l) = last (y :: l) ∧
  removelast (x :: y :: l) = x :: removelast (y :: l).
Proof. done. Qed.

(** Chunks that hold a line feed each leave the state that the whole
    text leaves. *)
Lemma foldl_onData (chunks : list string) (sofar : string) :
  Forall (λ chunk, hasLineFeed chunk = true) chunks →
  foldl (onData path_join rootDirectory)
    {| chunkLineBuffer := default EmptyString (last (splitLines sofar));
       filePaths := jsFiles (removelast (splitLines sofar)) |} chunks =
  let whole := sofar +:+ foldr String.append EmptyString chunks in
  {| chunkLineBuffer := default EmptyString (last (splitLines whole));
     filePaths := jsFiles (removelast (splitLines whole)) |}.
Proof.
  revert sofar. induction chunks as [|chunk chunks IH]; intros sofar Hall.
  - simpl. by rewrite append_empty_r.
  - apply Forall_cons in Hall as [Hchunk Hall]. cbn [foldl foldr].
    destruct (splitLines_line_feed chunk Hchunk) as (l0 & l1 & rest & Hlines).
    rewrite (onData_line_feed _ _ _ _ _ Hlines).
    cbn [chunkLineBuffer filePaths].
    pose proof (splitLines_app sofar chunk _ _ Hlines) as Happ.
    specialize (IH (sofar +:+ chunk) Hall). cbv zeta in IH.
    rewrite Happ in IH.
    assert (∀ (pre : list string) (x : string),
              last (pre ++ x :: l1 :: rest) = last (l1 :: rest) ∧
              removelast (pre ++ x :: l1 :: rest) =
              pre ++ x :: removelast (l1 :: rest)) as Hlast.
    { intros pre x. split.
      - rewrite last_app.
        change (last (x :: l1 :: rest)) with (last (l1 :: rest)).
        by destruct (last (l1 :: rest)) eqn:Hl;
          [|apply last_None in Hl].
      - by rewrite removelast_app. }
    destruct (Hlast (removelast (splitLines sofar))
                (default EmptyString (last (splitLines sofar)) +:+ l0))
      as [Hl Hr].
    rewrite Hl, Hr, jsFiles_app in IH. rewrite IH. cbv zeta.
    by rewrite append_assoc.
Qed.

(** X6. The files found do not depend on how the listing is cut into chunks,
    as long as every chunk holds a line feed: the promise is fulfilled
    with the paths of the lines that end in [.js], in the order of the
    listing, when the listing ends with a line feed, and rejected
    otherwise.  A chunk without a line feed replaces the partial line
    that was buffered instead of extending it. *)
Theorem findJsFilesAsync_chunks (chunks : list string) :
  let whole := foldr String.append EmptyString chunks in
  let lines := splitLines whole in
  (Forall (λ chunk, hasLineFeed chunk = true) chunks →
   findJsFilesAsync path_join rootDirectory chunks =
   if String.eqb (default EmptyString (last lines)) EmptyString
   then Ok (path_join rootDirectory <$>
              filter (λ line, endsWith line ".js" = true) (removelast lines))
   else Throw (MkError ("Expected stdout to end with a new line, not: " +:+
                        dquote +:+ default EmptyString (last lines) +:+
                        dquote))) ∧
  (∀ (st : FindState) (chunk : string),
     hasLineFeed chunk = false →
     onData path_join rootDirectory st chunk =
     {| chunkLineBuffer := chunk; filePaths := filePaths st |}).
Proof.
  intros whole lines. split.
  - intros Hall. unfold findJsFilesAsync.
    pose proof (foldl_onData chunks EmptyString Hall) as H.
    cbv zeta in H. rewrite append_nil in H.
    change (foldl (onData path_join rootDirectory)
              {| chunkLineBuffer := EmptyString; filePaths := [] |} chunks)
      with (foldl (onData path_join rootDirectory)
              {| chunkLineBuffer :=
                   default EmptyString (last (splitLines EmptyString));
                 filePaths :=
                   jsFiles (removelast (splitLines EmptyString)) |} chunks).
    rewrite H. unfold onEnd. cbn [chunkLineBuffer filePaths]. done.
  - intros st chunk Hchunk. unfold onData.
    by rewrite (splitLines_no_line_feed _ Hchunk).
Qed.
End FindJsFilesProperties.

(** The listing of three files, one of them no JavaScript file, cut into
    two chunks in the middle of a line. *)
Lemma findJsFilesAsync_chunks_witness :
  let join := λ root path : string, root +:+ "/" +:+ path in
  let line_feed := String newline EmptyString in
  let chunks :=
    ["a.js" +:+ line_feed +:+ "READ";
     "ME.md" +:+ line_feed +:+ "b.js" +:+ line_feed] in
  Forall (λ chunk, hasLineFeed chunk = true) chunks ∧
  findJsFilesAsync join "/repo" chunks = Ok ["/repo/a.js"; "/repo/b.js"].
Proof.
  intros join line_feed chunks.
  assert (Forall (λ chunk, hasLineFeed chunk = true) chunks) as Hall
    by (by repeat constructor).
  split; [exact Hall|].
  destruct (findJsFilesAsync_chunks join "/repo" chunks) as [H _].
  exact (H Hall).
Defined.

(** ** Side effects before imports *)

Lemma findImportAfterSideEffects_Some (importZone : bool)
    (body : list Statement) (l : SourceLocation) :
  findImportAfterSideEffects importZone body = Some l →
  ∃ j s2, body !! j = Some s2 ∧ isValueImport s2 = true ∧
          statementLoc s2 = Some l ∧
          (importZone = false ∨
           ∃ i s1, (i < j)%nat ∧ body !! i = Some s1 ∧
                   statementHasSideEffects s1 = true).
Proof.
  revert importZone. induction body as [|statement rest IH];
    intros importZone; simpl; [done|].
  destruct (isValueImport statement && negb importZone) eqn:Htest.
  - destruct (statementLoc statement) as [l'|] eqn:Hloc.
    + intros [= ->]. apply andb_true_iff in Htest as [Himport Hzone].
      exists 0%nat, statement. split_and!; [done..|].
      left. by destruct importZone.
    + intros H. apply IH in H as (j & s2 & Hj & Himport & Hloc2 & Hbefore).
      exists (Datatypes.S j), s2. split_and!; [done..|].
      destruct (statementHasSideEffects statement) eqn:Heffects.
      * right. exists 0%nat, statement. split_and!; [lia | done..].
      * destruct Hbefore as [->|(i & s1 & Hi & Hs1 & He)]; [by left|].
        right. exists (Datatypes.S i), s1. split_and!; [lia | done..].
  - intros H. apply IH in H as (j & s2 & Hj & Himport & Hloc2 & Hbefore).
    exists (Datatypes.S j), s2. split_and!; [done..|].
    destruct (statementHasSideEffects statement) eqn:Heffects.
    + right. exists 0%nat, statement. split_and!; [lia | done..].
    + destruct Hbefore as [->|(i & s1 & Hi & Hs1 & He)]; [by left|].
      right. exists (Datatypes.S i), s1. split_and!; [lia | done..].
Qed.

Lemma findImportAfterSideEffects_None (importZone : bool)
    (body : list Statement) :
  findImportAfterSideEffects importZone body = None →
  ∀ j s2, body !! j = Some s2 → isValueImport s2 = true →
          is_Some (statementLoc s2) →
          importZone = true ∧
          ∀ i s1, (i < j)%nat → body !! i = Some s1 →
                  statementHasSideEffects s1 = false.
Proof.
  revert importZone. induction body as [|statement rest IH];
    intros importZone; simpl; [done|].
  destruct (if isValueImport statement && negb importZone
            then statementLoc statement else None) as [l|] eqn:Hfirst;
    [done|].
  intros Hnone j s2 Hj Himport [l Hloc].
  specialize (IH _ Hnone).
  destruct j as [|j].
  - injection Hj as ->. rewrite Himport, Hloc in Hfirst.
    destruct importZone; [|done]. split; [done|]. intros i s1 Hi. lia.
  - destruct (IH j s2 Hj Himport (ex_intro _ l Hloc)) as [Hzone Hbefore].
    destruct (statementHasSideEffects statement) eqn:Heffects; [done|].
    split; [done|]. intros [|i] s1 Hi Hs1.
    + by injection Hs1 as <-.
    + apply (Hbefore i); [lia | done].
Qed.

(** X7. A program is reported exactly when one of its value imports that has
    a location comes after a statement with side effects, and then once,
    whatever the number of such imports: the finding is the location of
    such an import.  Nothing else of the reporter changes. *)
Theorem import_after_side_effects_is_reported_once (filePath : string)
    (body : list Statement) (this : Modules.MigrationReporter) :
  match findImportAfterSideEffects true body with
  | Some l =>
      doesProgramHaveSideEffectsBeforeImports filePath body this =
        Modules_importAfterSideEffects filePath l this ∧
      ∃ i j s1 s2,
        (i < j)%nat ∧ body !! i = Some s1 ∧
        statementHasSideEffects s1 = true ∧
        body !! j = Some s2 ∧ isValueImport s2 = true ∧
        statementLoc s2 = Some l
  | None =>
      doesProgramHaveSideEffectsBeforeImports filePath body this = this ∧
      ∀ i j s1 s2,
        (i < j)%nat → body !! i = Some s1 →
        statementHasSideEffects s1 = true →
        body !! j = Some s2 → isValueImport s2 = true →
        statementLoc s2 = None
  end.
Proof.
  unfold doesProgramHaveSideEffectsBeforeImports.
  destruct (findImportAfterSideEffects true body) as [l|] eqn:Hfind.
  - split; [done|].
    apply findImportAfterSideEffects_Some in Hfind
      as (j & s2 & Hj & Himport & Hloc & [?|(i & s1 & Hi & Hs1 & He)]);
      [done|].
    by exists i, j, s1, s2.
  - split; [done|]. intros i j s1 s2 Hij Hi He Hj Himport.
    destruct (statementLoc s2) as [l|] eqn:Hloc; [|done].
    destruct (findImportAfterSideEffects_None _ _ Hfind j s2 Hj Himport
                (ex_intro _ l Hloc)) as [_ Hbefore].
    by rewrite (Hbefore i s1 Hij Hi) in He.
Qed.

(** ** The counters of the ES-modules reporter *)

Lemma Map_get_elem (m : Modules.JsMap) (k : string) (v : N) :
  NoDup m.*1 → (k, v) ∈ m ↔ Modules.Map_get m k = Some v.
Proof.
  induction m as [|[k' v'] m IH]; simpl.
  - intros _. split; [by intros ?%elem_of_nil | done].
  - rewrite NoDup_cons. intros [Hnotin Hm]. rewrite elem_of_cons.
    case_decide as Hk.
    + subst k'. split.
      * intros [[= ->]|Hin]; [done|].
        destruct Hnotin. apply list_elem_of_fmap. by exists (k, v).
      * intros [= ->]. by left.
    + rewrite <- (IH Hm). split; [|by right].
      intros [[= -> ->]|Hin]; done.
Qed.

Lemma entriesToCounts_elem (m : Modules.JsMap) (c : Modules.DestructedCount) :
  c ∈ Modules.entriesToCounts m ↔ (Modules.modulePath c, Modules.count c) ∈ m.
Proof.
  unfold Modules.entriesToCounts. rewrite list_elem_of_fmap. split.
  - intros ([k v] & -> & Hin). done.
  - intros Hin. exists (Modules.modulePath c, Modules.count c).
    split; [by destruct c | done].
Qed.

Lemma entriesToCounts_paths (m : Modules.JsMap) :
  Modules.modulePath <$> Modules.entriesToCounts m = m.*1.
Proof.
  unfold Modules.entriesToCounts. rewrite <- list_fmap_compose.
  by apply list_fmap_ext.
Qed.

Lemma filter_absent (k : string) (calls : list string) :
  k ∉ calls → filter (λ m, m = k) calls = [].
Proof.
  induction calls as [|m calls IH]; [done|].
  rewrite not_elem_of_cons. intros [Hne Hin].
  rewrite filter_cons, decide_False by done. auto.
Qed.

(** The total of the counts of as many counts of one as there are calls. *)
Lemma keyTotal_calls (k : string) (calls : list string) :
  Modules.keyTotal k
    ((λ m, {| Modules.modulePath := m; Modules.count := 1 |}) <$> calls) =
  if decide (k ∈ calls) then Some (occurrences k calls) else None.
Proof.
  unfold occurrences. induction calls as [|m calls IH]; [done|].
  rewrite fmap_cons. cbn [Modules.keyTotal foldr]. fold (Modules.keyTotal k).
  cbn [Modules.modulePath Modules.count]. rewrite filter_cons.
  unfold Modules.keyTotal in IH |- *. rewrite IH.
  destruct (decide (m = k)) as [->|Hne].
  - rewrite (decide_True (P := k ∈ k :: calls)) by left. cbn [length].
    f_equal. rewrite Nat2N.inj_succ.
    destruct (decide (k ∈ calls)) as [Hin|Hin]; cbn [default from_option id].
    + lia.
    + rewrite (filter_absent _ _ Hin). simpl. lia.
  - destruct (decide (k ∈ calls)) as [Hin|Hin].
    + by rewrite (decide_True (P := k ∈ m :: calls)) by (by right).
    + rewrite (decide_False (P := k ∈ m :: calls)); [done|].
      rewrite elem_of_cons. naive_solver.
Qed.

Lemma requireWasDestructed_foldl (calls : list string)
    (this : Modules.MigrationReporter) :
  Modules._requireWasDestructed
    (foldl (λ this modulePath, Modules.requireWasDestructed modulePath this)
       this calls) =
  foldl Modules.countStep (Modules._requireWasDestructed this)
    ((λ m, {| Modules.modulePath := m; Modules.count := 1 |}) <$> calls).
Proof.
  revert this. induction calls as [|m calls IH]; intros this; [done|].
  cbn [foldl fmap list_fmap]. by rewrite IH.
Qed.

(** X8. [generateReport] lists every module whose require was destructed
    once, with the number of calls of [requireWasDestructed] for it, and
    no other module. *)
Theorem requireWasDestructed_counts_the_calls (calls : list string) :
  let this :=
    foldl (λ this modulePath, Modules.requireWasDestructed modulePath this)
      Modules_newMigrationReporter calls in
  let counts :=
    Modules.MigrationReport.requireWasDestructed
      (Modules.generateReport this) in
  NoDup (Modules.modulePath <$> counts) ∧
  ∀ c, c ∈ counts ↔
       Modules.modulePath c ∈ calls ∧
       Modules.count c = occurrences (Modules.modulePath c) calls.
Proof.
  intros this counts. subst this counts.
  cbn [Modules.generateReport Modules.MigrationReport.requireWasDestructed].
  rewrite requireWasDestructed_foldl.
  cbn [Modules_newMigrationReporter Modules._requireWasDestructed].
  assert (NoDup (foldl Modules.countStep []
                   ((λ m, {| Modules.modulePath := m; Modules.count := 1 |})
                      <$> calls)).*1) as Hnodup.
  { apply countStep_foldl_NoDup. constructor. }
  split; [by rewrite entriesToCounts_paths|].
  intros c. rewrite entriesToCounts_elem, (Map_get_elem _ _ _ Hnodup).
  rewrite countStep_foldl_get, keyTotal_calls. simpl.
  case_decide as Hin; simpl.
  - split; [intros [= <-]; split; [done | lia] | intros [_ ->]; f_equal; lia].
  - split; [done | by intros [? _]].
Qed.

Lemma Set_add_foldl_sublist (l : list string) (s : Modules.JsSet) :
  ∃ added, foldl Modules.Set_add s l = s ++ added ∧ added `sublist_of` l.
Proof.
  revert s. induction l as [|x l IH]; intros s; simpl.
  - exists []. by rewrite app_nil_r.
  - unfold Modules.Set_add at 2. case_decide.
    + destruct (IH s) as (added & -> & Hsub). exists added.
      split; [done | by apply sublist_cons].
    + destruct (IH (s ++ [x])) as (added & -> & Hsub). exists (x :: added).
      split; [by rewrite <- (assoc_L (++)) | by apply sublist_skip].
Qed.

Lemma Set_add_foldl_NoDup (l : list string) (s : Modules.JsSet) :
  NoDup s → NoDup (foldl Modules.Set_add s l).
Proof.
  revert s. induction l as [|x l IH]; intros s Hs; simpl; [done|].
  apply IH. unfold Modules.Set_add. case_decide; [done|].
  apply NoDup_app. split_and!; [done| |apply NoDup_singleton].
  by intros y Hy ->%list_elem_of_singleton.
Qed.

Lemma unableToLoadExternalModule_foldl (calls : list string)
    (this : Modules.MigrationReporter) :
  Modules._unableToLoadExternalModule
    (foldl (λ this modulePath,
              Modules.unableToLoadExternalModule modulePath this)
       this calls) =
  foldl Modules.Set_add (Modules._unableToLoadExternalModule this) calls.
Proof.
  revert this. induction calls as [|m calls IH]; intros this; [done|].
  cbn [foldl]. by rewrite IH.
Qed.

Lemma Set_add_foldl_elem_of (l : list string) (x : string) :
  x ∈ foldl Modules.Set_add [] l ↔ x ∈ l.
Proof.
  rewrite <- (elem_of_list_to_set (C := gset string) x
                (foldl Modules.Set_add [] l)).
  fold (Modules.modulesAsSet (foldl Modules.Set_add [] l)).
  rewrite Set_add_foldl_set. unfold Modules.modulesAsSet. set_solver.
Qed.

(** Every element of a list has a first place in it. *)
Lemma first_occurrence {A} `{EqDecision A} (l : list A) (x : A) :
  x ∈ l → ∃ k, l !! k = Some x ∧ x ∉ take k l.
Proof.
  induction l as [|y l IH]; intros Hx; [by apply elem_of_nil in Hx|].
  destruct (decide (y = x)) as [->|Hne].
  - exists 0%nat. split; [done|]. simpl. apply not_elem_of_nil.
  - apply elem_of_cons in Hx as [->|Hx]; [done|].
    destruct (IH Hx) as (k & Hk & Hnot). exists (S k). split; [done|].
    simpl. rewrite not_elem_of_cons. by split.
Qed.

(** The set keeps the order of the first insertions. *)
Lemma Set_add_foldl_order (calls : list string) (i j : nat) (a b : string) :
  (i < j)%nat →
  foldl Modules.Set_add [] calls !! i = Some a →
  foldl Modules.Set_add [] calls !! j = Some b →
  ∃ k, calls !! k = Some a ∧ (a ∉ take k calls) ∧ b ∉ take (S k) calls.
Proof.
  revert i j a b. induction calls as [|m calls IH] using rev_ind;
    intros i j a b Hij Ha Hb; [done|].
  rewrite foldl_app in Ha, Hb. cbn [foldl] in Ha, Hb.
  assert (∀ k, calls !! k = Some a → a ∉ take k calls →
               b ∉ take (S k) calls →
               ∃ k, (calls ++ [m]) !! k = Some a ∧
                    (a ∉ take k (calls ++ [m])) ∧
                    b ∉ take (S k) (calls ++ [m])) as Hlift.
  { intros k Hk Hnota Hnotb. exists k.
    pose proof (lookup_lt_Some _ _ _ Hk) as Hlt.
    rewrite lookup_app_l by done.
    rewrite !take_app_le by lia. done. }
  pose proof (Set_add_foldl_elem_of calls) as Helem.
  set (listed := foldl Modules.Set_add [] calls) in *.
  revert Ha Hb. unfold Modules.Set_add, Modules.JsSet in *.
  case_decide as Hin; intros Ha Hb.
  - destruct (IH i j a b Hij Ha Hb) as (k & ? & ? & ?). by eapply Hlift.
  - destruct (decide (j < length listed)%nat) as [Hj|Hj].
    + rewrite lookup_app_l in Ha by lia. rewrite lookup_app_l in Hb by done.
      destruct (IH i j a b Hij Ha Hb) as (k & ? & ? & ?). by eapply Hlift.
    + pose proof (lookup_lt_Some _ _ _ Hb) as Hlen.
      rewrite length_app in Hlen. simpl in Hlen.
      assert (j = length listed) as -> by lia.
      rewrite lookup_app_r, Nat.sub_diag in Hb by done.
      injection Hb as <-.
      rewrite lookup_app_l in Ha by done.
      assert (a ∈ calls) as Hacalls.
      { apply Helem. by eapply list_elem_of_lookup_2. }
      destruct (first_occurrence _ _ Hacalls) as (k & Hk & Hnot).
      apply (Hlift k); [done..|].
      intros Hm%elem_of_take. destruct Hm as (k' & Hk' & _).
      apply Hin, Helem. by eapply list_elem_of_lookup_2.
Qed.

(** X9. [generateReport] lists every module that could not be loaded once,
    however many times it was reported, in the order in which the modules
    were first reported: of two modules of the list, the one that comes
    first was reported at a time when the other had not been yet. *)
Theorem unableToLoadExternalModule_lists_each_once (calls : list string) :
  let this :=
    foldl (λ this modulePath,
             Modules.unableToLoadExternalModule modulePath this)
      Modules_newMigrationReporter calls in
  let listed :=
    Modules.MigrationReport.unableToLoadExternalModule
      (Modules.generateReport this) in
  NoDup listed ∧
  (∀ modulePath, modulePath ∈ listed ↔ modulePath ∈ calls) ∧
  listed `sublist_of` calls ∧
  (∀ (i j : nat) (a b : string),
     (i < j)%nat → listed !! i = Some a → listed !! j = Some b →
     ∃ k, calls !! k = Some a ∧ (a ∉ take k calls) ∧ b ∉ take (S k) calls).
Proof.
  intros this listed. subst this listed.
  cbn [Modules.generateReport
         Modules.MigrationReport.unableToLoadExternalModule].
  rewrite unableToLoadExternalModule_foldl.
  cbn [Modules_newMigrationReporter Modules._unableToLoadExternalModule].
  split_and!.
  - apply Set_add_foldl_NoDup. constructor.
  - apply Set_add_foldl_elem_of.
  - by destruct (Set_add_foldl_sublist calls []) as (added & -> & Hsub).
  - apply Set_add_foldl_order.
Qed.

(** X10. In a merged report every module whose require was destructed is
    listed once, with the sum of the counts that the reports have for it,
    and every module that could not be loaded is listed once, if some
    report lists it. *)
Theorem mergeReports_sums_the_counts
    (reports : list Modules.MigrationReport.t) :
  let merged := Modules.mergeReports reports in
  NoDup (Modules.modulePath <$>
           Modules.MigrationReport.requireWasDestructed merged) ∧
  (∀ c, c ∈ Modules.MigrationReport.requireWasDestructed merged ↔
        Modules.keyTotal (Modules.modulePath c)
          (reports ≫= Modules.MigrationReport.requireWasDestructed) =
        Some (Modules.count c)) ∧
  NoDup (Modules.MigrationReport.unableToLoadExternalModule merged) ∧
  (∀ modulePath,
     modulePath ∈ Modules.MigrationReport.unableToLoadExternalModule merged ↔
     ∃ r, r ∈ reports ∧
          modulePath ∈ Modules.MigrationReport.unableToLoadExternalModule r).
Proof.
  intros merged. subst merged.
  cbn [Modules.mergeReports Modules.MigrationReport.requireWasDestructed
         Modules.MigrationReport.unableToLoadExternalModule].
  assert (NoDup (Modules.mergeRequireWasDestructed reports).*1) as Hnodup.
  { rewrite mergeRequireWasDestructed_foldl.
    apply countStep_foldl_NoDup. constructor. }
  split_and!.
  - by rewrite entriesToCounts_paths.
  - intros c. rewrite entriesToCounts_elem, (Map_get_elem _ _ _ Hnodup).
    rewrite mergeRequireWasDestructed_foldl, countStep_foldl_get. simpl.
    by destruct (Modules.keyTotal _ _).
  - apply mergeUnableToLoadExternalModule_NoDup.
  - intros modulePath.
    rewrite <- (elem_of_list_to_set (C := gset string) modulePath
                  (Modules.mergeUnableToLoadExternalModule reports)).
    fold (Modules.modulesAsSet
            (Modules.mergeUnableToLoadExternalModule reports)).
    rewrite mergeUnableToLoadExternalModule_set. unfold Modules.modulesAsSet.
    rewrite elem_of_list_to_set, list_elem_of_bind. naive_solver.
Qed.

(** ** Findings are kept *)

Global Instance extends_preorder : PreOrder extends.
Proof.
  split.
  - intros r. by repeat split.
  - intros r1 r2 r3 (?&?&?&?) (?&?&?&?). repeat split; by etrans.
Qed.

Lemma keepsFindings_ret {A} (a : A) : keepsFindings (ret a).
Proof. intros r. reflexivity. Qed.

Lemma keepsFindings_throw {A} (message : string) :
  keepsFindings (A := A) (throw message).
Proof. intros r. reflexivity. Qed.

Lemma keepsFindings_bind {A B} (m : M MigrationReporter A)
    (k : A → M MigrationReporter B) :
  keepsFindings m → (∀ a, keepsFindings (k a)) → keepsFindings (bind m k).
Proof.
  intros Hm Hk r. unfold bind. specialize (Hm r).
  destruct (m r) as [[a|e] r1]; [|done].
  etrans; [exact Hm|]. apply Hk.
Qed.

Lemma keepsFindings_when (b : bool) (m : M MigrationReporter unit) :
  keepsFindings m → keepsFindings (when b m).
Proof. intros Hm. destruct b; [done|]. apply keepsFindings_ret. Qed.

Lemma keepsFindings_mapM {A B} (f : A → M MigrationReporter B)
    (l : list A) :
  Forall (λ x, keepsFindings (f x)) l → keepsFindings (mapM f l).
Proof.
  induction 1 as [|x l Hx _ IH]; simpl; [apply keepsFindings_ret|].
  apply keepsFindings_bind; [done|]. intros y.
  apply keepsFindings_bind; [done|]. intros ys. apply keepsFindings_ret.
Qed.

Lemma keepsFindings_mapiM {A B} (f : nat → A → M MigrationReporter B)
    (l : list A) (i : nat) :
  Forall (λ x, ∀ i, keepsFindings (f i x)) l → keepsFindings (mapiM f i l).
Proof.
  intros H. revert i.
  induction H as [|x l Hx _ IH]; intros i; simpl; [apply keepsFindings_ret|].
  apply keepsFindings_bind; [done|]. intros y.
  apply keepsFindings_bind; [done|]. intros ys. apply keepsFindings_ret.
Qed.

Lemma keepsFindings_optM {A B} (f : A → M MigrationReporter B)
    (o : option A) :
  (∀ x, o = Some x → keepsFindings (f x)) → keepsFindings (optM f o).
Proof.
  intros H. destruct o as [x|]; simpl; [|apply keepsFindings_ret].
  apply keepsFindings_bind; [by apply H|]. intros y. apply keepsFindings_ret.
Qed.

Lemma keepsFindings_foldM {A B} (f : B → A → M MigrationReporter B)
    (l : list A) (acc : B) :
  Forall (λ x, ∀ acc, keepsFindings (f acc x)) l →
  keepsFindings (foldM f l acc).
Proof.
  intros H. revert acc.
  induction H as [|x l Hx _ IH]; intros acc; simpl; [apply keepsFindings_ret|].
  apply keepsFindings_bind; [done|]. intros acc'. apply IH.
Qed.

Lemma keepsFindings_report (filePath : string) (l : SourceLocation) :
  keepsFindings (typeParameterWithVariance filePath l) ∧
  keepsFindings (objectPropertyWithInternalName filePath l) ∧
  keepsFindings (objectPropertyWithMinusVariance filePath l) ∧
  keepsFindings (unsupportedTypeCast filePath l).
Proof.
  split_and!; intros r; repeat split; simpl;
    done || by apply prefix_app_r.
Qed.

Section KeepsFindings.
Variable filePath : string.

Lemma migrateType_keepsFindings_all :
  (∀ flowType, keepsFindings (migrateType filePath flowType)) ∧
  (∀ p, keepsFindings (migrateTypeParameter filePath p)) ∧
  (∀ p, (∀ i, keepsFindings (migrateFunctionTypeParam filePath i p)) ∧
        keepsFindings (migrateRest filePath p)) ∧
  (∀ m, keepsFindings (migrateObjectMember filePath m) ∧
        keepsFindings (migrateFlowMember filePath m)).
Proof.
  apply FlowType_mutind.
  - apply keepsFindings_ret.
  - intros e IH. simpl. apply keepsFindings_bind; [done|].
    intros ?. apply keepsFindings_ret.
  - apply keepsFindings_ret.
  - intros b. apply keepsFindings_ret.
  - apply keepsFindings_ret.
  - apply keepsFindings_ret.
  - (* function *)
    intros tps Htps params Hparams rest Hrest ret' Hret. simpl.
    apply keepsFindings_bind.
    { apply keepsFindings_optM. intros l ->. apply keepsFindings_mapM.
      apply (option_list_all_Forall _ _ Htps). }
    intros tps'. apply keepsFindings_bind.
    { apply keepsFindings_mapiM. apply list_all_Forall in Hparams.
      eapply Forall_impl; [exact Hparams|]. by intros p [Hp _]. }
    intros params'. apply keepsFindings_bind.
    { destruct rest as [r|]; [|apply keepsFindings_ret].
      apply keepsFindings_bind.
      - apply (option_all_Some _ _ Hrest r eq_refl).
      - intros ?. apply keepsFindings_ret. }
    intros restParams. apply keepsFindings_bind; [done|].
    intros ?. apply keepsFindings_ret.
  - (* generic *)
    intros id tps Htps. simpl. apply keepsFindings_bind.
    { pose proof (option_list_all_Forall _ _ Htps) as Hl.
      destruct tps as [[|p ps]|]; try apply keepsFindings_ret.
      apply keepsFindings_bind.
      - exact (keepsFindings_mapM (migrateType filePath) (p :: ps) Hl).
      - intros ?. apply keepsFindings_ret. }
    intros ?. apply keepsFindings_ret.
  - intros body _. apply keepsFindings_throw.
  - (* intersection *)
    intros types Htypes. simpl. apply list_all_Forall in Htypes.
    apply keepsFindings_bind; [|intros ?; apply keepsFindings_ret].
    apply keepsFindings_mapM. eapply Forall_impl; [exact Htypes|].
    intros T HT. apply keepsFindings_bind; [done|].
    intros ?. apply keepsFindings_ret.
  - apply keepsFindings_ret.
  - apply keepsFindings_ret.
  - intros T IH. simpl. apply keepsFindings_bind; [done|].
    intros ?. apply keepsFindings_ret.
  - intros v. apply keepsFindings_ret.
  - apply keepsFindings_ret.
  - (* object *)
    intros properties Hprops indexers Hidx callProperties Hcall
      internalSlots Hslots exact.
    rewrite migrateType_object.
    apply keepsFindings_bind; [|intros ?; apply keepsFindings_ret].
    apply keepsFindings_foldM.
    rewrite sortByLine_Permutation. apply Forall_fmap.
    assert (Forall (λ m, keepsFindings (migrateFlowMember filePath m))
              (flowMembersOf properties indexers callProperties
                 internalSlots)) as Hall.
    { apply list_all_Forall in Hprops.
      apply option_list_all_Forall in Hidx, Hcall, Hslots.
      unfold flowMembersOf. rewrite !Forall_app.
      split_and!; (eapply Forall_impl; [eassumption|]); by intros ? [_ ?]. }
    eapply Forall_impl; [exact Hall|]. intros m Hm parts. simpl.
    apply keepsFindings_bind; [done|]. intros ?. apply keepsFindings_ret.
  - intros v. apply keepsFindings_ret.
  - apply keepsFindings_ret.
  - apply keepsFindings_ret.
  - (* tuple *)
    intros types Htypes. simpl. apply list_all_Forall in Htypes.
    apply keepsFindings_bind; [|intros ?; apply keepsFindings_ret].
    by apply keepsFindings_mapM.
  - (* typeof *)
    intros T IH. simpl. apply keepsFindings_bind; [done|]. intros ts.
    destruct ts as [| | | | | | | | | | | |name [ps|]| | | | | | | | |];
      apply keepsFindings_throw || apply keepsFindings_ret.
  - (* union *)
    intros types Htypes. simpl. apply list_all_Forall in Htypes.
    apply keepsFindings_bind; [|intros ?; apply keepsFindings_ret].
    apply keepsFindings_mapM. eapply Forall_impl; [exact Htypes|].
    intros T HT. apply keepsFindings_bind; [done|].
    intros ?. apply keepsFindings_ret.
  - apply keepsFindings_ret.
  - intros type. apply keepsFindings_throw.
  - (* type parameter *)
    intros name bound Hbound default Hdefault variance loc. simpl.
    apply keepsFindings_bind.
    { apply keepsFindings_when, keepsFindings_report. }
    intros _. apply keepsFindings_bind.
    { apply keepsFindings_optM. intros T ->.
      apply (option_all_Some _ _ Hbound T eq_refl). }
    intros c. apply keepsFindings_bind.
    { apply keepsFindings_optM. intros T ->.
      apply (option_all_Some _ _ Hdefault T eq_refl). }
    intros d. apply keepsFindings_ret.
  - (* function type parameter *)
    intros name optional T IH. split.
    + intros i. simpl. apply keepsFindings_bind; [done|].
      intros ?. apply keepsFindings_ret.
    + simpl. apply keepsFindings_bind; [done|].
      intros ?. apply keepsFindings_ret.
  - (* property *)
    intros key value IH variance kind method optional proto static loc.
    assert (keepsFindings
              (migrateObjectMember filePath
                 (ObjectTypeProperty key value variance kind method
                    optional proto static loc))) as Hmember.
    { simpl.
      apply keepsFindings_bind.
      { apply keepsFindings_when, keepsFindings_report. }
      intros _. apply keepsFindings_bind.
      { apply keepsFindings_when, keepsFindings_report. }
      intros _.
      destruct kind; [|apply keepsFindings_throw].
      destruct proto; [apply keepsFindings_throw|].
      destruct static; [apply keepsFindings_throw|].
      apply keepsFindings_bind; [done|]. intros ts.
      destruct method; simpl; [|apply keepsFindings_ret].
      destruct ts; apply keepsFindings_throw || apply keepsFindings_ret. }
    split; [exact Hmember|].
    unfold migrateFlowMember. apply keepsFindings_bind; [done|].
    intros ?. apply keepsFindings_ret.
  - (* spread *)
    intros argument IH loc. split; [apply keepsFindings_throw|].
    simpl. apply keepsFindings_bind; [done|].
    intros ?. apply keepsFindings_ret.
  - (* indexer *)
    intros id key IHkey value IHvalue variance static loc.
    assert (keepsFindings
              (migrateObjectMember filePath
                 (ObjectTypeIndexer id key value variance static loc)))
      as Hmember.
    { simpl. apply keepsFindings_bind.
      { apply keepsFindings_when, keepsFindings_report. }
      intros _. destruct static; [apply keepsFindings_throw|].
      apply keepsFindings_bind; [done|]. intros tsKey.
      apply keepsFindings_bind; [done|]. intros tsValue.
      apply keepsFindings_ret. }
    split; [exact Hmember|].
    unfold migrateFlowMember. apply keepsFindings_bind; [done|].
    intros ?. apply keepsFindings_ret.
  - intros value _ static loc.
    split; [apply keepsFindings_throw|].
    unfold migrateFlowMember. apply keepsFindings_bind;
      [apply keepsFindings_throw | intros ?; apply keepsFindings_ret].
  - intros id value _ optional static method loc.
    split; [apply keepsFindings_throw|].
    unfold migrateFlowMember. apply keepsFindings_bind;
      [apply keepsFindings_throw | intros ?; apply keepsFindings_ret].
  - intros type loc.
    split; [apply keepsFindings_throw|].
    unfold migrateFlowMember. apply keepsFindings_bind;
      [apply keepsFindings_throw | intros ?; apply keepsFindings_ret].
Qed.

(** X11. The type migration never drops a finding: whether it returns or
    throws, each array of the reporter after it starts with what the
    array held before.  The same holds for the migration of the members
    of an object type and of type parameter declarations. *)
Theorem migrateType_keeps_the_findings :
  (∀ flowType r, extends r (migrateType filePath flowType r).2) ∧
  (∀ flowMember r, extends r (migrateObjectMember filePath flowMember r).2) ∧
  (∀ flowTypeParameters r,
     extends r
       (migrateTypeParameterDeclaration filePath flowTypeParameters r).2) ∧
  (∀ flowTypeParameters r,
     extends r
       (migrateTypeParameterInstantiation filePath flowTypeParameters r).2).
Proof.
  destruct migrateType_keepsFindings_all as (HT & HP & _ & HM).
  split_and!.
  - intros flowType. apply HT.
  - intros flowMember. apply HM.
  - intros ps. apply keepsFindings_mapM, Forall_forall. intros p _. apply HP.
  - intros ps. apply keepsFindings_mapM, Forall_forall. intros p _. apply HT.
Qed.

Lemma extends_elem_of (r r' : MigrationReporter) :
  extends r r' →
  (∀ l, l ∈ _typeParameterWithVariance r → l ∈ _typeParameterWithVariance r') ∧
  (∀ l, l ∈ _objectPropertyWithInternalName r →
        l ∈ _objectPropertyWithInternalName r') ∧
  (∀ l, l ∈ _objectPropertyWithMinusVariance r →
        l ∈ _objectPropertyWithMinusVariance r').
Proof.
  intros ([k1 ->] & [k2 ->] & [k3 ->] & _).
  split_and!; intros l Hl; apply elem_of_app; by left.
Qed.

(** X12. A finding is recorded before anything can throw.  After the migration
    of a type parameter with a variance annotation, of an object type
    property with an internal name or a [-] variance, or of an indexer
    with a [-] variance, the reporter holds the location of the node,
    also when the migration throws. *)
Theorem findings_are_recorded_first :
  (∀ name bound default variance loc r,
     mkLocation filePath loc ∈
     _typeParameterWithVariance
       (migrateTypeParameter filePath
          (MkTypeParameter name bound default (Some variance) loc) r).2) ∧
  (∀ key value variance kind method optional proto static loc r,
     (hasInternalName key = true →
      mkLocation filePath loc ∈
      _objectPropertyWithInternalName
        (migrateObjectMember filePath
           (ObjectTypeProperty key value variance kind method optional proto
              static loc) r).2) ∧
     (variance = Some minus →
      mkLocation filePath loc ∈
      _objectPropertyWithMinusVariance
        (migrateObjectMember filePath
           (ObjectTypeProperty key value variance kind method optional proto
              static loc) r).2)) ∧
  (∀ id key value static loc r,
     mkLocation filePath loc ∈
     _objectPropertyWithMinusVariance
       (migrateObjectMember filePath
          (ObjectTypeIndexer id key value (Some minus) static loc) r).2).
Proof.
  destruct migrateType_keepsFindings_all as (HT & HP & _ & HM).
  split_and!.
  - intros name bound default variance loc r. simpl.
    unfold bind at 1. simpl.
    match goal with
    | |- _ ∈ _ (?k ?r1).2 =>
        assert (keepsFindings k) as Hk;
        [|apply (extends_elem_of _ _ (Hk r1)); simpl;
          apply elem_of_app; right; by left]
    end.
    apply keepsFindings_bind.
    { apply keepsFindings_optM. intros T _. apply HT. }
    intros c. apply keepsFindings_bind.
    { apply keepsFindings_optM. intros T _. apply HT. }
    intros d. apply keepsFindings_ret.
  - intros key value variance kind method optional proto static loc r.
    pose proof (keepsFindings_report filePath loc) as (_ & _ & Hminus & _).
    assert (keepsFindings
              (match kind with
               | None =>
                   throw "Unsupported object type property kind: undefined"
               | Some _ =>
                   if proto then
                     throw "Did not expect any Flow properties with `proto` set to true."
                   else if static then
                     throw "Did not expect any Flow properties with `static` set to true."
                   else
                     bind (migrateType filePath value) (λ tsValue,
                       if negb method then
                         ret (TSPropertySignature key tsValue
                                (negb (keyIsIdentifier key)) optional
                                (readonlyOfVariance variance))
                       else
                         match tsValue with
                         | TSFunctionType typeParameters parameters
                             typeAnnotation =>
                             ret (TSMethodSignature key typeParameters
                                    parameters typeAnnotation
                                    (negb (keyIsIdentifier key)) optional)
                         | _ =>
                             throw ("Unexpected AST node: " +:+
                                    JSON_stringify (TSType_type tsValue))
                         end)
               end : M MigrationReporter TSTypeElement)) as Hrest.
    { destruct kind; [|apply keepsFindings_throw].
      destruct proto; [apply keepsFindings_throw|].
      destruct static; [apply keepsFindings_throw|].
      apply keepsFindings_bind; [apply HT|]. intros ts.
      destruct method; simpl; [|apply keepsFindings_ret].
      destruct ts; apply keepsFindings_throw || apply keepsFindings_ret. }
    split.
    + intros Hname. simpl. rewrite Hname. unfold bind at 1. simpl.
      match goal with
      | |- _ ∈ _ (?k ?r1).2 =>
          assert (keepsFindings k) as Hk;
          [|apply (extends_elem_of _ _ (Hk r1)); simpl;
            apply elem_of_app; right; by left]
      end.
      apply keepsFindings_bind; [by apply keepsFindings_when|].
      intros _. exact Hrest.
    + intros ->. simpl. unfold bind at 1.
      destruct (when (hasInternalName key)
                  (objectPropertyWithInternalName filePath loc) r)
        as [[[]|e] r0] eqn:Hwhen; [|by destruct (hasInternalName key)].
      unfold bind at 1. simpl.
      apply (extends_elem_of _ _ (Hrest _)). simpl.
      apply elem_of_app; right; by left.
  - intros id key value static loc r.
    simpl. unfold bind at 1. simpl.
    match goal with
    | |- _ ∈ _ (?k ?r1).2 =>
        assert (keepsFindings k) as Hk;
        [|apply (extends_elem_of _ _ (Hk r1)); simpl;
          apply elem_of_app; right; by left]
    end.
    destruct static; [apply keepsFindings_throw|].
    apply keepsFindings_bind; [apply HT|]. intros tsKey.
    apply keepsFindings_bind; [apply HT|]. intros tsValue.
    apply keepsFindings_ret.
Qed.
End KeepsFindings.

(** ** The annotation of an optional parameter *)

Lemma typeOfIntersectionParts_not_void (parts : list IntersectionPart) :
  Forall goodPart parts → typeOfIntersectionParts parts ≠ TSVoidKeyword.
Proof.
  intros Hparts. unfold typeOfIntersectionParts.
  destruct parts as [|p parts]; [done|].
  assert (typeOfIntersectionPart p ≠ TSVoidKeyword) as Hp.
  { apply Forall_cons in Hparts as [Hp _].
    destruct p as [members|ts]; simpl.
    - destruct members as [|e l]; [done|].
      destruct e as [| |parameters v ro]; try by destruct l.
      destruct parameters as [|[n o [k|]|] ps]; try by destruct l.
      destruct l; [|done]. by destruct (negb (isStringOrNumberKeyword k)).
    - by destruct Hp as [_ [ts' ->]]. }
  rewrite fmap_cons. by destruct (typeOfIntersectionPart <$> parts).
Qed.

Lemma migrateGenericTypeAnnotation_not_void (id : TSEntityName)
    (params : option (list TSType)) :
  migrateGenericTypeAnnotation id params ≠ TSVoidKeyword.
Proof.
  unfold migrateGenericTypeAnnotation.
  repeat match goal with
         | |- context [if ?b then _ else _] => destruct b
         end; done.
Qed.

Section OptionalParameters.
Variable filePath : string.

(** Only the Flow type [void] migrates to the keyword [void]. *)
Lemma migrateType_void (flowType : FlowType) (r r' : MigrationReporter) :
  migrateType filePath flowType r = (Ok TSVoidKeyword, r') →
  flowType = VoidTypeAnnotation.
Proof.
  intros H.
  destruct flowType; try (by auto); try (by injection H).
  - by apply bind_Ok_inv in H as (? & ? & _ & [= ]).
  - simpl in H.
    repeat apply bind_Ok_inv in H as (? & ? & _ & H).
    by injection H.
  - simpl in H. apply bind_Ok_inv in H as (? & ? & _ & [= Hg]).
    by apply migrateGenericTypeAnnotation_not_void in Hg.
  - simpl in H. by apply bind_Ok_inv in H as (? & ? & _ & [= ]).
  - simpl in H. by apply bind_Ok_inv in H as (? & ? & _ & [= ]).
  - rewrite migrateType_object in H.
    apply bind_Ok_inv in H as (parts & ? & Hparts & [= Ho]).
    apply (post_run _ _ _ _ _ _ (migrateType_object_parts _ _ _ _ _))
      in Hparts.
    by apply typeOfIntersectionParts_not_void in Ho.
  - simpl in H. by apply bind_Ok_inv in H as (? & ? & _ & [= ]).
  - simpl in H. apply bind_Ok_inv in H as (tsType & ? & _ & H).
    by destruct tsType as [| | | | | | | | | | | |name [ps|]| | | | | | | | |].
  - simpl in H. by apply bind_Ok_inv in H as (? & ? & _ & [= ]).
Qed.

(** The members of a migrated union: none is [void] unless the origin
    has the member [void], and none is [undefined]. *)
Lemma migrateType_union_members (types : list FlowType)
    (r r' : MigrationReporter) (ts : TSType) :
  migrateType filePath (UnionTypeAnnotation types) r = (Ok ts, r') →
  ∃ members,
    ts = TSUnionType members ∧ length members = length types ∧
    (TSUndefinedKeyword ∉ members) ∧
    (Forall (λ T, isVoidTypeAnnotation T = false) types →
     TSVoidKeyword ∉ members) ∧
    (NullLiteralTypeAnnotation ∈ types → TSNullKeyword ∈ members).
Proof.
  simpl. intros H.
  apply bind_Ok_inv in H as (members & r1 & Hmembers & [= <- _]).
  exists members. split; [done|].
  apply mapM_Forall2 in Hmembers.
  split_and!.
  - symmetry. by eapply Forall2_length.
  - intros Hin. apply list_elem_of_lookup in Hin as [i Hi].
    destruct (Forall2_lookup_r _ _ _ _ _ Hmembers Hi)
      as (T & _ & ra & rb & HT).
    apply bind_Ok_inv in HT as (t & rc & Ht & [= Hp]).
    destruct (migrateType_post_all filePath) as (Hgood & _).
    pose proof (post_run _ _ _ _ _ _ (Hgood T) Ht) as [_ Hne].
    by destruct t.
  - intros Hvoid Hin. apply list_elem_of_lookup in Hin as [i Hi].
    destruct (Forall2_lookup_r _ _ _ _ _ Hmembers Hi)
      as (T & HTi & ra & rb & HT).
    apply bind_Ok_inv in HT as (t & rc & Ht & [= Hp]).
    assert (t = TSVoidKeyword) as -> by (by destruct t).
    apply migrateType_void in Ht as ->.
    rewrite Forall_forall in Hvoid.
    by specialize (Hvoid _ (list_elem_of_lookup_2 _ _ _ HTi)).
  - intros Hin. apply list_elem_of_lookup in Hin as [i Hi].
    destruct (Forall2_lookup_l _ _ _ _ _ Hmembers Hi)
      as (m & Hm & ra & rb & HT).
    injection HT as <- _. by eapply list_elem_of_lookup_2.
Qed.

Lemma filter_not_void (types : list FlowType) :
  Forall (λ T, isVoidTypeAnnotation T = false)
    (filter (λ T, isVoidTypeAnnotation T = false) types) ∧
  (existsb isVoidTypeAnnotation types = false →
   filter (λ T, isVoidTypeAnnotation T = false) types = types).
Proof.
  split.
  - apply Forall_forall. by intros T [? _]%list_elem_of_filter.
  - induction types as [|T types IH]; [done|]. simpl.
    intros [HT Htypes]%orb_false_iff.
    by rewrite filter_cons, decide_True, IH.
Qed.

(** The visitor on the annotation of an identifier that is no variable
    declarator, when the annotation is a union. *)
Lemma TypeAnnotation_visitor_union (grandParentType : string) (parent : LVal)
    (types : list FlowType) :
  isIdentifier parent = true → grandParentType ≠ "VariableDeclarator" →
  TypeAnnotation_visitor filePath grandParentType parent
    (UnionTypeAnnotation types) =
  bind (migrateType filePath
          (UnionTypeAnnotation
             (filter (λ T, isVoidTypeAnnotation T = false) types)))
    (λ ts, ret (setTypeAnnotation (Some (TSTypeAnnotation ts))
                  (if existsb isVoidTypeAnnotation types
                   then setOptional (Some true) parent else parent))).
Proof.
  intros Hident Hparent. unfold TypeAnnotation_visitor. rewrite Hident.
  assert (String.eqb grandParentType "VariableDeclarator" = false) as ->.
  { apply not_true_iff_false. by rewrite String_eqb_spec. }
  cbn -[migrateType].
  destruct (existsb isVoidTypeAnnotation types) eqn:Hvoid; [done|].
  by rewrite (proj2 (filter_not_void types) Hvoid).
Qed.

Lemma TypeAnnotation_visitor_nullable (grandParentType : string)
    (parent : LVal) (T : FlowType) :
  isIdentifier parent = true → grandParentType ≠ "VariableDeclarator" →
  TypeAnnotation_visitor filePath grandParentType parent
    (NullableTypeAnnotation T) =
  bind (migrateType filePath
          (UnionTypeAnnotation
             (filter (λ T, isVoidTypeAnnotation T = false)
                [T; NullLiteralTypeAnnotation])))
    (λ ts, ret (setTypeAnnotation (Some (TSTypeAnnotation ts))
                  (setOptional (Some true) parent))).
Proof.
  intros Hident Hparent. unfold TypeAnnotation_visitor. rewrite Hident.
  assert (String.eqb grandParentType "VariableDeclarator" = false) as ->.
  { apply not_true_iff_false. by rewrite String_eqb_spec. }
  rewrite filter_cons, filter_cons, filter_nil.
  rewrite (decide_True (P := isVoidTypeAnnotation NullLiteralTypeAnnotation = false))
    by done.
  cbn -[migrateType].
  destruct (isVoidTypeAnnotation T) eqn:Hvoid.
  - by rewrite decide_False.
  - by rewrite decide_True.
Qed.

(** X13. A parameter that may be absent is marked optional instead of having
    [void] or [undefined] in its type.  For an identifier that is not the
    identifier of a variable declarator: an annotation [?T] makes it
    optional with a union type that has the member [null] and neither
    [undefined] nor [void]; a union annotation loses its members [void],
    keeps one member for each other member, and makes the identifier
    optional exactly when a member [void] was there. *)
Theorem TypeAnnotation_visitor_marks_optional (grandParentType : string)
    (parent parent' : LVal) (T : FlowType) (r r' : MigrationReporter) :
  isIdentifier parent = true → grandParentType ≠ "VariableDeclarator" →
  TypeAnnotation_visitor filePath grandParentType parent T r =
    (Ok parent', r') →
  (∀ T0, T = NullableTypeAnnotation T0 →
     node_optional parent' = Some true ∧
     ∃ members,
       node_typeAnnotation parent' =
         Some (TSTypeAnnotation (TSUnionType members)) ∧
       TSNullKeyword ∈ members ∧ (TSUndefinedKeyword ∉ members) ∧
       TSVoidKeyword ∉ members) ∧
  (∀ types, T = UnionTypeAnnotation types →
     node_optional parent' =
       (if existsb isVoidTypeAnnotation types then Some true
        else node_optional parent) ∧
     ∃ members,
       node_typeAnnotation parent' =
         Some (TSTypeAnnotation (TSUnionType members)) ∧
       length members =
         length (filter (λ T, isVoidTypeAnnotation T = false) types) ∧
       (TSUndefinedKeyword ∉ members) ∧ TSVoidKeyword ∉ members).
Proof.
  intros Hident Hparent Hvisit. split.
  - intros T0 ->.
    rewrite TypeAnnotation_visitor_nullable in Hvisit by done.
    apply bind_Ok_inv in Hvisit as (ts & r1 & Hts & [= <- _]).
    split; [done|].
    apply migrateType_union_members
      in Hts as (members & -> & _ & Hundefined & Hvoid & Hnull).
    exists members. split_and!; [done| |done|].
    + apply Hnull. apply list_elem_of_filter. split; [done|].
      apply elem_of_cons. right. apply list_elem_of_singleton. done.
    + apply Hvoid, filter_not_void.
  - intros types ->.
    rewrite TypeAnnotation_visitor_union in Hvisit by done.
    apply bind_Ok_inv in Hvisit as (ts & r1 & Hts & [= <- _]).
    split; [by destruct (existsb isVoidTypeAnnotation types)|].
    apply migrateType_union_members
      in Hts as (members & -> & Hlen & Hundefined & Hvoid & _).
    exists members. split_and!; [done..|].
    apply Hvoid, filter_not_void.
Qed.
End OptionalParameters.

(** The parameter [x: number | void]. *)
Lemma TypeAnnotation_visitor_marks_optional_witness :
  let here : SourceLocation :=
    {| start := {| line := 1; column := 11 |};
       end_ := {| line := 1; column := 12 |} |} in
  let x :=
    {| node_type := "Identifier"; node_name := "x"; node_optional := None;
       node_typeAnnotation := None; node_loc := here |} in
  let T := UnionTypeAnnotation [NumberTypeAnnotation; VoidTypeAnnotation] in
  let x' :=
    {| node_type := "Identifier"; node_name := "x";
       node_optional := Some true;
       node_typeAnnotation :=
         Some (TSTypeAnnotation (TSUnionType [TSNumberKeyword]));
       node_loc := here |} in
  TypeAnnotation_visitor "a.js" "FunctionDeclaration" x T newMigrationReporter
    = (Ok x', newMigrationReporter) ∧
  node_optional x' = Some true.
Proof.
  intros here x T x'. split; [reflexivity|].
  assert (isIdentifier x = true) as Hident by reflexivity.
  assert ("FunctionDeclaration" ≠ "VariableDeclarator") as Hparent by done.
  assert (TypeAnnotation_visitor "a.js" "FunctionDeclaration" x T
            newMigrationReporter = (Ok x', newMigrationReporter)) as Hvisit
    by reflexivity.
  destruct (TypeAnnotation_visitor_marks_optional "a.js"
              "FunctionDeclaration" x x' T newMigrationReporter
              newMigrationReporter Hident Hparent Hvisit) as [_ H].
  by destruct (H _ eq_refl) as [Hopt _].
Defined.

(** ** Parameters that are in order already *)

Lemma exitParam_shape (optional : bool) (param : Param) :
  let param' := (exitParam optional param).2 in
  node_name (paramIdentifier param') = node_name (paramIdentifier param) ∧
  node_type (paramIdentifier param') = node_type (paramIdentifier param) ∧
  node_loc (paramIdentifier param') = node_loc (paramIdentifier param) ∧
  paramDefault param' = paramDefault param.
Proof.
  unfold exitParam.
  destruct param as [node|left_ right_ a]; simpl.
  - destruct (isIdentifier node && isOptional node), optional; simpl;
      try done; by destruct node as [? ? ? [[]|] ?].
  - destruct (isIdentifier left_ && isOptional left_), optional; simpl;
      try done; by destruct left_ as [? ? ? [[]|] ?].
Qed.

Lemma exitFrom_optionals (params : list Param) :
  Forall (λ p, paramIsOptional p = true) params →
  exitFrom params = (true, clearOptionalOfDefault <$> params).
Proof.
  induction 1 as [|p l Hp _ IH]; simpl; [done|].
  rewrite IH. unfold exitParam. rewrite Hp. simpl. by destruct p.
Qed.

Lemma exitFrom_required_prefix (required rest : list Param) :
  Forall (λ p, paramIsOptional p = false) required →
  (exitFrom (required ++ rest)).2 = required ++ (exitFrom rest).2.
Proof.
  induction 1 as [|p l Hp _ IH]; simpl; [done|].
  destruct (exitFrom (l ++ rest)) as [optional sofar]. simpl in IH.
  subst sofar. by rewrite exitParam_required.
Qed.

(** X14. [FunctionDeclaration.exit] leaves a parameter list that is in order
    as it is: when no optional parameter stands before a required one,
    the only change is that an identifier with a default loses its
    optional mark.  Whatever the list, no parameter is added, dropped,
    moved or renamed, and no default is touched. *)
Theorem FunctionDeclaration_exit_keeps_the_order :
  (∀ required optionals : list Param,
     Forall (λ p, paramIsOptional p = false) required →
     Forall (λ p, paramIsOptional p = true) optionals →
     FunctionDeclaration_exit (required ++ optionals) =
     required ++ (clearOptionalOfDefault <$> optionals)) ∧
  (∀ params : list Param,
     length (FunctionDeclaration_exit params) = length params ∧
     (node_name ∘ paramIdentifier) <$> FunctionDeclaration_exit params =
       (node_name ∘ paramIdentifier) <$> params ∧
     (node_type ∘ paramIdentifier) <$> FunctionDeclaration_exit params =
       (node_type ∘ paramIdentifier) <$> params ∧
     (node_loc ∘ paramIdentifier) <$> FunctionDeclaration_exit params =
       (node_loc ∘ paramIdentifier) <$> params ∧
     paramDefault <$> FunctionDeclaration_exit params =
       paramDefault <$> params).
Proof.
  split.
  - intros required optionals Hrequired Hoptionals.
    rewrite FunctionDeclaration_exit_exitFrom.
    rewrite exitFrom_required_prefix by done.
    by rewrite exitFrom_optionals.
  - intros params. rewrite FunctionDeclaration_exit_exitFrom.
    induction params as [|param l IH]; [done|]. cbn [exitFrom].
    destruct (exitFrom l) as [optional sofar]. simpl in IH.
    pose proof (exitParam_shape optional param) as Hshape.
    destruct (exitParam optional param) as [optional' param'].
    cbv zeta in Hshape. simpl in Hshape.
    destruct IH as (Hlen & Hname & Htype & Hloc & Hdefault).
    destruct Hshape as (Hn & Ht & Hl & Hd).
    cbn [snd]. rewrite !fmap_cons. cbn [length compose].
    fold (fmap (M := list) (node_name ∘ paramIdentifier) l).
    fold (fmap (M := list) (node_type ∘ paramIdentifier) l).
    fold (fmap (M := list) (node_loc ∘ paramIdentifier) l).
    fold (fmap (M := list) paramDefault l).
    by rewrite Hlen, Hname, Htype, Hloc, Hdefault, Hn, Ht, Hl, Hd.
Qed.

(** The parameters [(a: string, b?: number, c?: boolean = true)]. *)
Lemma FunctionDeclaration_exit_keeps_the_order_witness :
  let here : SourceLocation :=
    {| start := {| line := 1; column := 11 |};
       end_ := {| line := 1; column := 12 |} |} in
  let identifier name optional ts :=
    {| node_type := "Identifier"; node_name := name;
       node_optional := optional;
       node_typeAnnotation := Some (TSTypeAnnotation ts);
       node_loc := here |} in
  let a := Pattern (identifier "a" None TSStringKeyword) in
  let b := Pattern (identifier "b" (Some true) TSNumberKeyword) in
  let c optional :=
    AssignmentPattern (identifier "c" optional TSBooleanKeyword)
      (BooleanLiteral true) None in
  FunctionDeclaration_exit [a; b; c (Some true)] = [a; b; c (Some false)].
Proof.
  intros here identifier a b c.
  destruct FunctionDeclaration_exit_keeps_the_order as [H _].
  apply (H [a] [b; c (Some true)]); by repeat constructor.
Defined.

(** ** What a worker writes *)

Lemma append_inv_suffix (a b x y : string) :
  a +:+ x = b +:+ y → String.length x = String.length y → x = y.
Proof.
  revert b. induction a as [|c a IH]; intros b Heq Hlen.
  - rewrite append_nil in Heq. subst x. rewrite append_length in Hlen.
    destruct b; [by rewrite append_nil | simpl in Hlen; lia].
  - destruct b as [|c' b].
    + rewrite append_nil in Heq. subst y.
      rewrite append_cons in Hlen. simpl in Hlen.
      rewrite append_length in Hlen. lia.
    + rewrite !append_cons in Heq. injection Heq as _ Heq. by eapply IH.
Qed.

Lemma replaceJsExtension_js (base extension : string) :
  replaceJsExtension (base +:+ ".js") extension = base +:+ extension.
Proof.
  induction base as [|c base IH]; [by rewrite !append_nil|].
  rewrite !append_cons. cbn [replaceJsExtension].
  destruct (String.eqb (String c (base +:+ ".js")) ".js") eqn:Heq.
  - apply String_eqb_spec in Heq. apply (f_equal String.length) in Heq.
    simpl in Heq. rewrite append_length in Heq. simpl in Heq. lia.
  - by rewrite IH.
Qed.

Lemma replaceJsExtension_other (filePath extension : string) :
  endsWith filePath ".js" = false →
  replaceJsExtension filePath extension = filePath.
Proof.
  induction filePath as [|c s IH]; cbn [endsWith replaceJsExtension].
  - done.
  - intros [Heq Hrest]%orb_false_iff. rewrite Heq. by rewrite IH.
Qed.

Lemma not_a_source (base : string) :
  endsWith (base +:+ ".ts") ".js" = false ∧
  endsWith (base +:+ ".tsx") ".js" = false.
Proof.
  split; apply not_true_iff_false; intros [p Hp]%endsWith_inv.
  - by apply append_inv_suffix in Hp.
  - change ".tsx" with ("." +:+ "tsx") in Hp.
    rewrite <- append_assoc in Hp. by apply append_inv_suffix in Hp.
Qed.

Section WorkerWrites.
Variable parseTypeAlias : string → result FlowType.
Variable executeFlowTypeAtPos : string → SourceLocation → result string.
Variable recast_parse : string → result File.
Variable recast_print : File → string.

Local Abbreviation processFile' :=
  (processFile parseTypeAlias executeFlowTypeAtPos recast_parse recast_print).
Local Abbreviation processBatchAsync' :=
  (processBatchAsync parseTypeAlias executeFlowTypeAtPos recast_parse
     recast_print).

Lemma processFile_disk (w : World) (filePath : string) :
  disk (processFile' w filePath) = disk w ∨
  ∃ extension newFileText,
    (extension = ".ts" ∨ extension = ".tsx") ∧
    disk (processFile' w filePath) =
    <[replaceJsExtension filePath extension := newFileText]> (disk w).
Proof.
  unfold processFile.
  destruct (readFile w filePath) as [fileText|e]; [|by left].
  destruct (recast_parse fileText) as [file|e]; [|by left].
  destruct (migrateToTypeScript _ _ _ _ _) as [[file'|e] r]; [|by left].
  right. destruct (existsb isJSXElement file); eexists _, _; eauto.
Qed.

Lemma processBatchAsync_disk (filePaths : list string) (w : World)
    (path : string) :
  (∀ filePath, filePath ∈ filePaths →
     path ≠ replaceJsExtension filePath ".ts" ∧
     path ≠ replaceJsExtension filePath ".tsx") →
  disk (processBatchAsync' filePaths w) !! path = disk w !! path.
Proof.
  unfold processBatchAsync. revert w.
  induction filePaths as [|filePath l IH]; intros w Hpath; [done|].
  cbn [foldl]. rewrite IH by (intros f Hf; apply Hpath; by right).
  destruct (Hpath filePath (list_elem_of_here _ _)) as [Hts Htsx].
  destruct (processFile_disk w filePath)
    as [->|(extension & text & [->| ->] & ->)]; [done| |];
    by rewrite lookup_insert_ne.
Qed.

(** X15. A worker writes next to the sources and never on them.  The file
    written for [base.js] is [base.ts] or [base.tsx]; for a path that does
    not end in [.js] the path itself is written.  So a batch of [.js]
    files leaves every [.js] file on the disk as it was, a batch leaves
    every file as it was that is neither [f.ts] nor [f.tsx] for a file
    [f.js] of the batch, and no file is ever removed. *)
Theorem workers_write_beside_the_sources :
  (∀ base extension,
     replaceJsExtension (base +:+ ".js") extension = base +:+ extension) ∧
  (∀ filePath extension,
     endsWith filePath ".js" = false →
     replaceJsExtension filePath extension = filePath) ∧
  (∀ (filePaths : list string) (w : World) (path : string),
     (∀ filePath, filePath ∈ filePaths →
        path ≠ replaceJsExtension filePath ".ts" ∧
        path ≠ replaceJsExtension filePath ".tsx") →
     disk (processBatchAsync' filePaths w) !! path = disk w !! path) ∧
  (∀ (filePaths : list string) (w : World) (path : string),
     Forall (λ filePath, endsWith filePath ".js" = true) filePaths →
     endsWith path ".js" = true →
     disk (processBatchAsync' filePaths w) !! path = disk w !! path) ∧
  (∀ (filePaths : list string) (w : World),
     dom (disk w) ⊆ dom (disk (processBatchAsync' filePaths w))).
Proof.
  split_and!.
  - apply replaceJsExtension_js.
  - apply replaceJsExtension_other.
  - apply processBatchAsync_disk.
  - intros filePaths w path Hsources Hpath.
    apply processBatchAsync_disk. intros filePath Hin.
    rewrite Forall_forall in Hsources.
    destruct (endsWith_inv _ _ (Hsources _ Hin)) as [base ->].
    rewrite !replaceJsExtension_js.
    destruct (not_a_source base) as [Hts Htsx].
    split; intros ->; congruence.
  - intros filePaths. unfold processBatchAsync.
    induction filePaths as [|filePath l IH] using rev_ind; intros w; [done|].
    rewrite foldl_app. cbn [foldl]. etrans; [apply IH|].
    destruct (processFile_disk (foldl processFile' w l) filePath)
      as [Heq|(extension & text & _ & Heq)].
    + by rewrite Heq.
    + rewrite Heq, dom_insert. set_solver.
Qed.
End WorkerWrites.

(** ** The queue of questions to Flow *)

Section QueueProperties.
Variable executeFlowTypeAtPos : string → SourceLocation → result string.

(** What every run keeps. *)
Let queueInvariant (asked : list QueueEntry) (q : QueueState) : Prop :=
  outcomeOf executeFlowTypeAtPos <$> asked =
    settled q ++ (outcomeOf executeFlowTypeAtPos <$> pendingEntries q) ∧
  (processingFlowTypeAtPosQueue q = true ↔ is_Some (inFlight q)) ∧
  (inFlight q = None → flowTypeAtPosQueue q = []).

Lemma queueStep_invariant (asked : list QueueEntry) (q : QueueState)
    (event : QueueEvent) :
  queueInvariant asked q →
  queueInvariant (asked ++ askedEntries [event])
    (queueStep executeFlowTypeAtPos q event).
Proof.
  unfold queueInvariant, pendingEntries.
  destruct q as [processing queue flight done_].
  intros (Hfifo & Hprocessing & Hidle). simpl in *.
  destruct event as [entry|]; simpl.
  - unfold enqueue. simpl. destruct processing.
    + simpl. rewrite fmap_app, Hfifo, !fmap_app, <- !(assoc_L (++)).
      split; [done|]. split; [exact Hprocessing|].
      intros Hnone. destruct (proj1 Hprocessing eq_refl). congruence.
    + assert (flight = None) as ->.
      { destruct flight as [entry'|]; [|done].
        assert (false = true) by (apply Hprocessing; by eexists). done. }
      rewrite (Hidle eq_refl) in *. simpl. rewrite app_nil_r in Hfifo.
      rewrite fmap_app, Hfifo. split; [done|]. split; [|done].
      split; [by eexists | done].
  - rewrite app_nil_r. unfold complete. simpl.
    destruct flight as [entry|]; [|done]. simpl.
    unfold processFlowTypeAtPosQueue. simpl.
    destruct queue as [|entry' queue]; simpl.
    + rewrite app_nil_r. split; [done|]. split; [|done].
      split; [done | by intros []].
    + rewrite Hfifo. simpl. rewrite <- (assoc_L (++)). simpl.
      split; [done|]. split; [|done].
      split; [by eexists | done].
Qed.

Lemma runQueue_invariant (events : list QueueEvent) :
  queueInvariant (askedEntries events)
    (runQueue executeFlowTypeAtPos events).
Proof.
  unfold runQueue.
  induction events as [|event events IH] using rev_ind.
  - unfold queueInvariant. simpl. split; [done|]. split; [|done].
    split; [done | by intros []].
  - rewrite foldl_app. cbn [foldl].
    unfold askedEntries. rewrite omap_app.
    by apply queueStep_invariant.
Qed.

(** X16. The questions to Flow are answered one at a time and in the order
    they were asked.  After any sequence of calls and answers, the
    promises settled so far are those of the first entries asked, each
    settled with the outcome of its own call of [flow type-at-pos], and
    the entries not settled yet follow in the order asked; the queue is
    marked as being processed exactly while a call is under way, and no
    entry waits when none is. *)
Theorem flowTypeAtPos_queue_is_first_in_first_out
    (events : list QueueEvent) :
  let q := runQueue executeFlowTypeAtPos events in
  outcomeOf executeFlowTypeAtPos <$> askedEntries events =
    settled q ++ (outcomeOf executeFlowTypeAtPos <$> pendingEntries q) ∧
  (processingFlowTypeAtPosQueue q = true ↔ is_Some (inFlight q)) ∧
  (inFlight q = None →
   flowTypeAtPosQueue q = [] ∧
   settled q = outcomeOf executeFlowTypeAtPos <$> askedEntries events).
Proof.
  intros q. destruct (runQueue_invariant events) as (Hfifo & Hp & Hidle).
  fold q in Hfifo, Hp, Hidle. split; [done|]. split; [done|].
  intros Hnone. split; [by apply Hidle|].
  rewrite Hfifo. unfold pendingEntries. rewrite Hnone, (Hidle Hnone).
  by rewrite app_nil_r.
Qed.
End QueueProperties.

(** Two questions asked at once, the first of which fails, and both
    answers. *)
Lemma flowTypeAtPos_queue_is_first_in_first_out_witness :
  let at_line (l : N) : SourceLocation :=
    {| start := {| line := l; column := 0%N |};
       end_ := {| line := l; column := 1%N |} |} in
  let execute := λ (_ : string) (location : SourceLocation),
    if (line (start location) =? 1)%N
    then Throw (MkError "Command failed: flow type-at-pos")
    else Ok "number" in
  let first :=
    {| entry_id := 0; entry_filePath := "a.js";
       entry_location := at_line 1%N |} in
  let second :=
    {| entry_id := 1; entry_filePath := "a.js";
       entry_location := at_line 2%N |} in
  let q := runQueue execute [Asked first; Asked second; Answered; Answered] in
  inFlight q = None ∧
  settled q =
    [(0%nat, Throw (MkError "Command failed: flow type-at-pos"));
     (1%nat, Ok "number")].
Proof.
  intros at_line execute first second q.
  assert (inFlight q = None) as Hnone by reflexivity.
  split; [exact Hnone|].
  destruct (flowTypeAtPos_queue_is_first_in_first_out execute
              [Asked first; Asked second; Answered; Answered])
    as (_ & _ & H).
  destruct (H Hnone) as [_ Hsettled]. exact Hsettled.
Defined.

(** ** The annotation that Flow infers *)

Section InferredAnnotations.
Variable parseTypeAlias : string → result FlowType.
Variable executeFlowTypeAtPos : string → SourceLocation → result string.
Variable filePath : string.

Local Abbreviation inferAnnotation' :=
  (inferAnnotation parseTypeAlias executeFlowTypeAtPos filePath).

(** X17. An annotation inferred by Flow is never the bare keyword [any]: where
    Flow infers [empty] or a type that migrates to [any], the parameter is
    annotated [FlowAnyInferred].  The asynchronous function changes
    nothing of the parameter but its annotation, and it only adds
    findings to the reporter. *)
Theorem inferred_annotation_is_never_any (node : LVal)
    (r : MigrationReporter) :
  node_typeAnnotation node = None →
  let node' := (inferAnnotation' node r).1.1 in
  node_typeAnnotation node' ≠ Some (TSTypeAnnotation TSAnyKeyword) ∧
  (node' = node ∨
   ∃ tsType, node' = setTypeAnnotation (Some (TSTypeAnnotation tsType)) node) ∧
  (∀ flowType,
     flowTypeAtPos parseTypeAlias executeFlowTypeAtPos filePath
       (node_loc node) = Ok (Some flowType) →
     flowType = EmptyTypeAnnotation ∨ flowType = AnyTypeAnnotation →
     inferAnnotation' node r =
     (setTypeAnnotation
        (Some (TSTypeAnnotation
                 (TSTypeReference (TSIdentifierName "FlowAnyInferred") None)))
        node,
      Ok tt, r)) ∧
  extends r (inferAnnotation' node r).2.
Proof.
  intros Hnone node'. subst node'. unfold inferAnnotation.
  destruct (flowTypeAtPos _ _ _ _) as [[flowType|]|e].
  - assert (extends r
              (if isEmptyTypeAnnotation flowType then (Ok TSAnyKeyword, r)
               else migrateType filePath flowType r).2) as Hextends.
    { destruct (isEmptyTypeAnnotation flowType); [reflexivity|].
      apply migrateType_keepsFindings_all. }
    split_and!.
    + destruct (if isEmptyTypeAnnotation flowType then _ else _)
        as [[tsType|e] r1]; simpl; [|by rewrite Hnone].
      by destruct tsType.
    + destruct (if isEmptyTypeAnnotation flowType then _ else _)
        as [[tsType|e] r1]; simpl; [|by left].
      right. by eexists.
    + intros ? [= <-] [-> | ->]; reflexivity.
    + by destruct (if isEmptyTypeAnnotation flowType then _ else _)
        as [[tsType|e] r1].
  - simpl. split_and!; [by rewrite Hnone | by left | done | reflexivity].
  - simpl. split_and!; [by rewrite Hnone | by left | done | reflexivity].
Qed.
End InferredAnnotations.

(** A parameter of a function that is never called: Flow infers
    [empty]. *)
Lemma inferred_annotation_is_never_any_witness :
  let here : SourceLocation :=
    {| start := {| line := 1; column := 11 |};
       end_ := {| line := 1; column := 12 |} |} in
  let x :=
    {| node_type := "Identifier"; node_name := "x"; node_optional := None;
       node_typeAnnotation := None; node_loc := here |} in
  let parse := λ _ : string, Ok EmptyTypeAnnotation in
  let execute := λ (_ : string) (_ : SourceLocation), Ok "empty" in
  node_typeAnnotation x = None ∧
  node_typeAnnotation
    (inferAnnotation parse execute "a.js" x newMigrationReporter).1.1 =
  Some (TSTypeAnnotation
          (TSTypeReference (TSIdentifierName "FlowAnyInferred") None)) ∧
  node_typeAnnotation
    (inferAnnotation parse execute "a.js" x newMigrationReporter).1.1 ≠
  Some (TSTypeAnnotation TSAnyKeyword).
Proof.
  intros here x parse execute.
  assert (node_typeAnnotation x = None) as Hnone by reflexivity.
  split_and!; [exact Hnone | reflexivity |].
  apply (inferred_annotation_is_never_any parse execute "a.js" x
           newMigrationReporter Hnone).
Defined.

(** ** The cache of default imports *)

Section BabelInteropProperties.
Variable builtinModuleSet : gset string.
Variable babelInteropDefaultImportOverrides : gmap string bool.
Variable CWD : string.
Variable path_relative : string → string → string.

Local Abbreviation isTheSame :=
  (isBabelInteropDefaultImportTheSame builtinModuleSet
     babelInteropDefaultImportOverrides CWD path_relative).

(** X18. The answer for a module is computed once per process.  A second call
    for the same module returns the answer of the first and leaves the
    cache as it is, whatever loading the module would give by then, also
    when the first answer was [null] because the module failed to load;
    a call changes the cached answer of no other module; and on a module
    that is not in the cache the answer is that of
    [_isBabelInteropDefaultImportTheSame]. *)
Theorem isBabelInteropDefaultImportTheSame_is_cached
    (require require' : string → result LoadedModule) (modulePath : string)
    (cache : gmap string (option bool)) :
  let first := isTheSame require modulePath cache in
  isTheSame require' modulePath first.2 = first ∧
  (∀ other, other ≠ modulePath → first.2 !! other = cache !! other) ∧
  first.2 !! modulePath = Some first.1 ∧
  (cache !! modulePath = None →
   first.1 =
   _isBabelInteropDefaultImportTheSame builtinModuleSet
     babelInteropDefaultImportOverrides CWD path_relative require
     modulePath).
Proof.
  intros first. subst first. unfold isBabelInteropDefaultImportTheSame.
  destruct (cache !! modulePath) as [result|] eqn:Hcache; simpl.
  - rewrite Hcache. done.
  - rewrite lookup_insert_eq. split_and!; [done| |done|done].
    intros other Hother. by rewrite lookup_insert_ne.
Qed.
End BabelInteropProperties.

(** ** Which casts ask for the utilities *)

Lemma liftReporter_state {A} (m : M MigrationReporter A)
    (st : TraversalState) :
  shouldImportUtils (liftReporter m st).2 = shouldImportUtils st ∧
  reporter (liftReporter m st).2 = (m (reporter st)).2.
Proof. unfold liftReporter. by destruct (m (reporter st)). Qed.

Section CastUtilities.
Variable filePath : string.

(** What a computation of the cast visitor does to the state of the
    traversal: the flag is set or left alone, and findings are only
    added. *)
Let effect {A} (m : M TraversalState A) (sets : bool) : Prop :=
  ∀ st, shouldImportUtils (m st).2 = shouldImportUtils st || sets ∧
        extends (reporter st) (reporter (m st).2).

Lemma effect_ret {A} (a : A) : effect (ret a) false.
Proof. intros st. simpl. by rewrite orb_false_r. Qed.

Lemma effect_lift {A} (m : M MigrationReporter A) :
  keepsFindings m → effect (liftReporter m) false.
Proof.
  intros Hm st. destruct (liftReporter_state m st) as [-> ->].
  rewrite orb_false_r. split; [done | apply Hm].
Qed.

Lemma effect_bind {A B} (m : M TraversalState A)
    (k : A → M TraversalState B) (sets : bool) :
  effect m sets → (∀ a, effect (k a) false) → effect (bind m k) sets.
Proof.
  intros Hm Hk st. unfold bind. destruct (Hm st) as [Hflag Hr].
  destruct (m st) as [[a|e] st1]; simpl in *; [|done].
  destruct (Hk a st1) as [Hflag' Hr']. rewrite Hflag', Hflag, orb_false_r.
  split; [done | by etrans].
Qed.

Lemma effect_importUtils (hasBindingU : bool) :
  effect (importUtils hasBindingU) (negb hasBindingU).
Proof.
  intros st. unfold importUtils, bind.
  destruct hasBindingU; simpl; rewrite ?orb_true_r, ?orb_false_r; done.
Qed.

Lemma effect_asCast (T : FlowType) (k : TSType → Expression) :
  effect (bind (liftReporter (migrateType filePath T)) (λ ts, ret (k ts)))
    false.
Proof.
  apply effect_bind; [|intros ts; apply effect_ret].
  apply effect_lift, migrateType_keepsFindings_all.
Qed.

(** X19. The import of the utilities is asked for by the safe cast alone, and
    only where [u] is not bound: after the visitor the flag
    [shouldImportUtils] is set if it was set before, or if none of the
    four direct strategies applies and the scope has no binding [u]; it
    is then set also when the migration of the type throws.  The visitor
    only adds findings to the reporter. *)
Theorem TypeCastExpression_asks_for_utilities
    (parentPath : option NodePath) (hasBindingU : bool)
    (expression : Expression) (T : FlowType) (st : TraversalState) :
  let after :=
    (TypeCastExpression_visitor filePath parentPath hasBindingU expression T
       st).2 in
  shouldImportUtils after =
    shouldImportUtils st ||
    (resolvedBySafeCast expression T && negb hasBindingU) ∧
  extends (reporter st) (reporter after).
Proof.
  intros after. subst after. revert st.
  change (effect
            (TypeCastExpression_visitor filePath parentPath hasBindingU
               expression T)
            (resolvedBySafeCast expression T && negb hasBindingU)).
  assert (effect
            (bind (importUtils hasBindingU)
               (λ u, bind (liftReporter (migrateType filePath T))
                       (λ ts, ret (CallExpression
                                     (MemberExpression u (Identifier "cast"))
                                     [expression] (Some [ts])))))
            (negb hasBindingU)) as Hsafe.
  { apply effect_bind; [apply effect_importUtils|].
    intros u. apply effect_asCast. }
  assert (effect
            (if isAnyTypeAnnotation T then
               bind (liftReporter (migrateType filePath T))
                 (λ ts, ret (TSAsExpression expression ts))
             else if isSelfLiteralCast expression T then
               ret (TSAsExpression expression
                      (TSTypeReference (TSIdentifierName "const") None))
             else if isComplexLiteral expression then
               bind (liftReporter (migrateType filePath T))
                 (λ ts, ret (TSAsExpression expression ts))
             else
               bind (importUtils hasBindingU)
                 (λ u, bind (liftReporter (migrateType filePath T))
                         (λ ts, ret (CallExpression
                                       (MemberExpression u
                                          (Identifier "cast"))
                                       [expression] (Some [ts])))))
            (negb (isAnyTypeAnnotation T) &&
             negb (isSelfLiteralCast expression T) &&
             negb (isComplexLiteral expression) && negb hasBindingU))
    as Hother.
  { destruct (isAnyTypeAnnotation T); [apply effect_asCast|].
    destruct (isSelfLiteralCast expression T); [apply effect_ret|].
    destruct (isComplexLiteral expression); [apply effect_asCast|].
    exact Hsafe. }
  unfold resolvedBySafeCast, TypeCastExpression_visitor.
  destruct expression; try apply Hother.
  destruct (isUnsoundInnerAnnotation typeAnnotation); [|apply Hother].
  cbn [negb andb].
  match goal with |- context [if ?b then _ else _] => destruct b end.
  - apply effect_bind; [|intros tsInner; apply effect_asCast].
    apply effect_lift, migrateType_keepsFindings_all.
  - apply (effect_asCast T (λ tsOuter, TSAsExpression expression tsOuter)).
Qed.
End CastUtilities.

(** ** Test files *)

Section TestFiles.
Variable parseTypeAlias : string → result FlowType.
Variable executeFlowTypeAtPos : string → SourceLocation → result string.
Variable filePath : string.

(** X20. In a test file the type that Flow infers wins over [any].  For a
    function declaration with one parameter, an identifier without an
    annotation: the parameter is annotated [any] during the traversal, the
    question to Flow having been asked before; when Flow has no usable
    answer the parameter keeps [any], and when the answer migrates to a
    type other than [any] that type replaces it. *)
Theorem inferred_type_replaces_any_in_a_test_file (node : LVal)
    (r : MigrationReporter) :
  isTestFile filePath = true →
  isIdentifier node = true → node_typeAnnotation node = None →
  let migrate :=
    migrateToTypeScript parseTypeAlias executeFlowTypeAtPos filePath
      [FunctionDeclaration [Pattern node]] r in
  let annotated (tsType : TSType) : File :=
    [FunctionDeclaration
       [Pattern (setTypeAnnotation (Some (TSTypeAnnotation tsType)) node)]] in
  (flowTypeAtPos parseTypeAlias executeFlowTypeAtPos filePath
     (node_loc node) = Ok None →
   migrate = (Ok (annotated TSAnyKeyword), r)) ∧
  (∀ flowType tsType r',
     flowTypeAtPos parseTypeAlias executeFlowTypeAtPos filePath
       (node_loc node) = Ok (Some flowType) →
     isEmptyTypeAnnotation flowType = false →
     migrateType filePath flowType r = (Ok tsType, r') →
     tsType ≠ TSAnyKeyword →
     migrate = (Ok (annotated tsType), r')) ∧
  (∀ e,
     flowTypeAtPos parseTypeAlias executeFlowTypeAtPos filePath
       (node_loc node) = Throw e →
     migrate = (Throw e, r)).
Proof.
  intros Htest Hident Hnone migrate annotated.
  assert (migrate =
          let '(node', outcome, r1) :=
            inferAnnotation parseTypeAlias executeFlowTypeAtPos filePath
              (setTypeAnnotation (Some (TSTypeAnnotation TSAnyKeyword)) node)
              r in
          match outcome with
          | Ok _ => (Ok [FunctionDeclaration [Pattern node']], r1)
          | Throw e => (Throw e, r1)
          end) as ->.
  { subst migrate. unfold migrateToTypeScript. cbn [mapM]. unfold bind at 1.
    unfold visitDeclaration. rewrite Htest. cbn [fmap list_fmap mapM].
    unfold annotateWithAny at 1. rewrite Hnone.
    unfold bind at 1. unfold bind at 1. unfold visitParam at 1.
    cbn [node_typeAnnotation setTypeAnnotation]. cbn [ret].
    unfold bind at 1. cbn [ret mapM]. unfold bind at 1. cbn [ret].
    assert (FunctionDeclaration_exit
              [Pattern (setTypeAnnotation
                          (Some (TSTypeAnnotation TSAnyKeyword)) node)] =
            [Pattern (setTypeAnnotation
                        (Some (TSTypeAnnotation TSAnyKeyword)) node)]) as ->.
    { unfold FunctionDeclaration_exit. cbn [rev app exitParams].
      unfold exitParam. cbn [paramIsOptional].
      by destruct (isIdentifier _ && isOptional _). }
    cbn [settleDeclarations paramsOf needsInference]. rewrite Hident, Hnone.
    cbn [andb settleParams]. rewrite bool_decide_eq_true_2 by done.
    destruct (inferAnnotation _ _ _ _ _) as [[node' [[]|e]] r1]; reflexivity. }
  subst annotated. unfold inferAnnotation.
  change (node_loc (setTypeAnnotation (Some (TSTypeAnnotation TSAnyKeyword))
                      node))
    with (node_loc node).
  split_and!.
  - intros ->. reflexivity.
  - intros flowType tsType r' -> -> -> Hany. by destruct tsType.
  - intros e ->. reflexivity.
Qed.
End TestFiles.

(** The test file [a.test.js] with [function f(x) {}], where Flow infers
    [number]. *)
Lemma inferred_type_replaces_any_in_a_test_file_witness :
  let here : SourceLocation :=
    {| start := {| line := 1; column := 11 |};
       end_ := {| line := 1; column := 12 |} |} in
  let x :=
    {| node_type := "Identifier"; node_name := "x"; node_optional := None;
       node_typeAnnotation := None; node_loc := here |} in
  let parse := λ _ : string, Ok NumberTypeAnnotation in
  let execute := λ (_ : string) (_ : SourceLocation), Ok "number" in
  migrateToTypeScript parse execute "a.test.js"
    [FunctionDeclaration [Pattern x]] newMigrationReporter =
  (Ok [FunctionDeclaration
         [Pattern (setTypeAnnotation (Some (TSTypeAnnotation TSNumberKeyword))
                     x)]],
   newMigrationReporter).
Proof.
  intros here x parse execute.
  destruct (inferred_type_replaces_any_in_a_test_file parse execute
              "a.test.js" x newMigrationReporter)
    as (_ & H & _); [reflexivity..|].
  apply (H NumberTypeAnnotation); [reflexivity..|done].
Defined.

(** ** The members of an object type *)

(** What a loop keeps, counted in turns. *)
Lemma foldM_counted {S A B} (f : B → A → M S B) (I : nat → B → Prop)
    (l : list A) (acc b : B) (s s' : S) (n : nat) :
  I n acc →
  (∀ k acc x s1 acc' s2,
     I k acc → x ∈ l → f acc x s1 = (Ok acc', s2) → I (Datatypes.S k) acc') →
  foldM f l acc s = (Ok b, s') → I (n + length l)%nat b.
Proof.
  intros Hacc Hstep. revert n acc s Hacc.
  induction l as [|x l IH]; intros n acc s Hacc; simpl.
  - intros [= <- _]. by rewrite Nat.add_0_r.
  - intros H. apply bind_Ok_inv in H as (acc' & s1 & Hx & Hl).
    replace (n + Datatypes.S (length l))%nat
      with (Datatypes.S n + length l)%nat by lia.
    apply (IH (λ k acc x s1 acc' s2 Hk Hin, Hstep k acc x s1 acc' s2 Hk
                 (list_elem_of_further _ _ _ Hin)) _ acc' s1); [|done].
    eapply Hstep; [exact Hacc | by left | exact Hx].
Qed.

Section ObjectMembers.
Variable filePath : string.

(** X21. No member of an object type is dropped.  An object type without a
    spread that migrates becomes one object literal type with one member
    for each property, indexer, call property and internal slot of the
    origin, or, when its only member is an indexer, the map utility
    applied to the key and value types: never an intersection. *)
Theorem object_type_keeps_every_member (properties : list ObjectTypeMember)
    (indexers callProperties internalSlots : option (list ObjectTypeMember))
    (exact : bool) (r r' : MigrationReporter) (ts : TSType) :
  Forall (λ flowMember, isSpreadProperty flowMember = false)
    (flowMembersOf properties indexers callProperties internalSlots) →
  migrateType filePath
    (ObjectTypeAnnotation properties indexers callProperties internalSlots
       exact) r = (Ok ts, r') →
  (∃ members,
     ts = TSTypeLiteral members ∧
     length members =
     length (flowMembersOf properties indexers callProperties internalSlots)) ∨
  (length (flowMembersOf properties indexers callProperties internalSlots) =
     1%nat ∧
   ∃ key value,
     ts = TSTypeReference (TSQualifiedName (TSIdentifierName "h") "ObjectMap")
            (Some [key; value])).
Proof.
  intros Hspread. rewrite migrateType_object. intros H.
  apply bind_Ok_inv in H as (parts & r1 & Hparts & [= <- _]).
  set (flowMembers :=
         flowMembersOf properties indexers callProperties internalSlots) in *.
  apply (foldM_counted _
           (λ n parts,
              (n = 0%nat ∧ parts = []) ∨
              ∃ members, parts = [literal members] ∧ length members = n)
           _ _ _ _ _ 0%nat) in Hparts.
  - assert (length
              (sortByLine
                 ((λ flowMember,
                     (line (start (memberLoc flowMember)),
                      migrateFlowMember filePath flowMember)) <$>
                  flowMembers)) = length flowMembers) as Hsorted.
    { by rewrite sortByLine_Permutation, length_fmap. }
    rewrite Nat.add_0_l, Hsorted in Hparts.
    destruct Hparts as [[Hlen ->]|(members & -> & Hlen)].
    + left. by exists [].
    + unfold typeOfIntersectionParts. cbn [fmap list_fmap].
      unfold typeOfIntersectionPart.
      assert (∀ ts',
                ts' = TSTypeLiteral members →
                (∃ members', ts' = TSTypeLiteral members' ∧
                             length members' = length flowMembers) ∨
                (length flowMembers = 1%nat ∧
                 ∃ key value,
                   ts' = TSTypeReference
                           (TSQualifiedName (TSIdentifierName "h") "ObjectMap")
                           (Some [key; value]))) as Hliteral.
      { intros ts' ->. left. by exists members. }
      destruct members as [|e members]; [by apply Hliteral|].
      destruct e as [| |parameters valueType ro];
        try (destruct members; by apply Hliteral).
      destruct parameters as [|[name optional [indexType|]|] ps];
        try (destruct members; by apply Hliteral).
      destruct members as [|e' members]; [|by apply Hliteral].
      destruct (negb (isStringOrNumberKeyword indexType));
        [|by apply Hliteral].
      right. split; [by rewrite <- Hlen|]. by eexists _, _.
  - by left.
  - intros k acc [line_ m] s1 acc' s2 Hacc Hin Hstep.
    rewrite sortByLine_Permutation in Hin.
    apply list_elem_of_fmap in Hin as (flowMember & [= -> ->] & Hin).
    rewrite Forall_forall in Hspread. specialize (Hspread _ Hin).
    cbn [snd] in Hstep.
    apply bind_Ok_inv in Hstep as (migrated & s3 & Hm & [= <- _]).
    assert (∃ tsMember, migrated = OwnMember tsMember) as [tsMember ->].
    { unfold migrateFlowMember in Hm.
      destruct flowMember; try done;
        apply bind_Ok_inv in Hm as (tsMember & ? & _ & [= <- _]);
        by eexists. }
    right. destruct Hacc as [[-> ->]|(members & -> & Hlen)].
    + by exists [tsMember].
    + exists (members ++ [tsMember]). split; [done|].
      rewrite length_app. simpl. lia.
Qed.
End ObjectMembers.

(** The object type [{foo: number, bar?: string}]. *)
Lemma object_type_keeps_every_member_witness :
  let here (l : N) : SourceLocation :=
    {| start := {| line := l; column := 2 |};
       end_ := {| line := l; column := 20 |} |} in
  let properties :=
    [ObjectTypeProperty (KeyIdentifier "foo") NumberTypeAnnotation None
       (Some init) false false false false (here 2%N);
     ObjectTypeProperty (KeyIdentifier "bar") StringTypeAnnotation None
       (Some init) false true false false (here 3%N)] in
  ∃ members,
    migrateType "a.js" (ObjectTypeAnnotation properties None None None false)
      newMigrationReporter = (Ok (TSTypeLiteral members), newMigrationReporter) ∧
    length members = 2%nat.
Proof.
  intros here properties.
  assert (migrateType "a.js"
            (ObjectTypeAnnotation properties None None None false)
            newMigrationReporter =
          (Ok (TSTypeLiteral
                 [TSPropertySignature (KeyIdentifier "foo") TSNumberKeyword
                    false false None;
                  TSPropertySignature (KeyIdentifier "bar") TSStringKeyword
                    false true None]),
           newMigrationReporter)) as Hmigrate by reflexivity.
  assert (Forall (λ flowMember, isSpreadProperty flowMember = false)
            (flowMembersOf properties None None None)) as Hspread
    by (by repeat constructor).
  destruct (object_type_keeps_every_member "a.js" properties None None None
              false _ _ _ Hspread Hmigrate)
    as [(members & [= <-] & Hlen)|[_ (key & value & [=])]].
  by eexists.
Defined.

(** ** Merging the report of one worker *)

Lemma mergeArrays_single {Report T} (k : Report → list T) (o : Report) :
  mergeArrays k [o] = k o.
Proof. rewrite mergeArrays_bind. simpl. apply app_nil_r. Qed.

Lemma Map_set_absent (m : Modules.JsMap) (k : string) (v : N) :
  k ∉ m.*1 → Modules.Map_set m k v = m ++ [(k, v)].
Proof.
  induction m as [|e m IH]; simpl; [done|].
  rewrite not_elem_of_cons. intros [Hne Hin].
  rewrite decide_False by done. by rewrite IH.
Qed.

Lemma countStep_foldl_distinct (m acc : Modules.JsMap) :
  NoDup (acc ++ m).*1 →
  foldl Modules.countStep acc (Modules.entriesToCounts m) = acc ++ m.
Proof.
  revert acc. induction m as [|[k v] m IH]; intros acc Hnodup; simpl.
  - by rewrite app_nil_r.
  - assert (k ∉ acc.*1) as Hk.
    { rewrite fmap_app, fmap_cons in Hnodup.
      apply NoDup_app in Hnodup as (_ & Hdisjoint & _).
      intros Hin. apply (Hdisjoint k Hin). by left. }
    unfold Modules.countStep at 2. simpl.
    rewrite (Map_get_None _ _ Hk), (Map_set_absent _ _ _ Hk). simpl.
    rewrite IH by (by rewrite <- (assoc_L (++))).
    by rewrite <- (assoc_L (++)).
Qed.

Lemma Set_add_foldl_distinct (l acc : Modules.JsSet) :
  NoDup (acc ++ l) → foldl Modules.Set_add acc l = acc ++ l.
Proof.
  revert acc. induction l as [|x l IH]; intros acc Hnodup; simpl.
  - by rewrite app_nil_r.
  - assert (x ∉ acc) as Hx.
    { apply NoDup_app in Hnodup as (_ & Hdisjoint & _).
      intros Hin. apply (Hdisjoint x Hin). by left. }
    unfold Modules.Set_add at 2. rewrite decide_False by done.
    rewrite IH by (by rewrite <- (assoc_L (++))).
    by rewrite <- (assoc_L (++)).
Qed.

(** X22. Merging the report of a single worker gives that report back, and
    merging no report gives the report of a reporter that recorded
    nothing.  For the reporter of the ES-modules migration the counts and
    the modules are those of a [Map] and of a [Set]: their keys are
    distinct. *)
Theorem mergeReports_of_one_report :
  (∀ this : MigrationReporter,
     mergeReports [generateReport this] = generateReport this) ∧
  mergeReports [] = generateReport newMigrationReporter ∧
  (∀ this : Modules.MigrationReporter,
     NoDup (Modules._requireWasDestructed this).*1 →
     NoDup (Modules._unableToLoadExternalModule this) →
     Modules.mergeReports [Modules.generateReport this] =
     Modules.generateReport this) ∧
  Modules.mergeReports [] =
    Modules.generateReport Modules_newMigrationReporter.
Proof.
  split_and!.
  - intros this. unfold mergeReports. by rewrite !mergeArrays_single.
  - reflexivity.
  - intros this Hmap Hset. unfold Modules.mergeReports.
    rewrite !mergeArrays_single.
    unfold Modules.mergeRequireWasDestructed,
      Modules.mergeUnableToLoadExternalModule.
    cbn [foldl Modules.generateReport
           Modules.MigrationReport.requireWasDestructed
           Modules.MigrationReport.unableToLoadExternalModule
           Modules.MigrationReport.skippedLargeFiles
           Modules.MigrationReport.requireNotCalled
           Modules.MigrationReport.requireOtherThanString
           Modules.MigrationReport.cannotFindModule
           Modules.MigrationReport.moduleNotExportAssignment
           Modules.MigrationReport.importAfterSideEffects].
    rewrite (countStep_foldl_distinct _ []) by done.
    by rewrite (Set_add_foldl_distinct _ []).
  - reflexivity.
Qed.

(** A reporter after two destructed requires of one module and a module
    that could not be loaded. *)
Lemma mergeReports_of_one_report_witness :
  let this :=
    Modules.unableToLoadExternalModule "x"
      (Modules.requireWasDestructed "m"
         (Modules.requireWasDestructed "m" Modules_newMigrationReporter)) in
  Modules.MigrationReport.requireWasDestructed (Modules.generateReport this) =
    [{| Modules.modulePath := "m"; Modules.count := 2 |}] ∧
  Modules.mergeReports [Modules.generateReport this] =
    Modules.generateReport this.
Proof.
  intros this. split; [reflexivity|].
  destruct mergeReports_of_one_report as (_ & _ & H & _).
  apply H; repeat constructor; by intros ?%elem_of_nil.
Defined.
